(** * CrisisNet: mesh topology and routing

    A shallow embedding of [src/lib/mesh/network.ts] (class [MeshNetwork])
    and [src/lib/routing/algorithms.ts] (classes [DijkstraRouter],
    [AntColonyRouter] and [Router]), with the properties of the design
    document stated and settled against it.

    Conventions of the embedding:
    - a JavaScript [number] is an IEEE 754 binary64 value ([float]);
    - a [Date] is its time value (milliseconds, a [Z]);
    - [Map<string, number>] objects that are only read and written by key are
      [gmap string float]; the [Map<string, Node>] of the topology manager,
      whose iteration order is observable, is the list of its values in
      insertion order;
    - a [Set<string>] is the list of its members in insertion order;
    - [Math.random()] reads an explicit stream of numbers;
    - [while] loops run on fuel; running out of fuel is the separate outcome
      [OutOfFuel], and the loops are shown to return with the fuel they get. *)

From Stdlib Require Import ZArith PrimFloat.
From stdpp Require Import gmap strings list.

Set Warnings "-inexact-float".
Set Warnings "-clear-no-such-hyp".
Local Open Scope bool_scope.

(** ** JavaScript values *)

Module JS.

Abbreviation number := float (only parsing).

Definition Infinity : number := infinity.

(** [ToBoolean] on a number: [0], [-0] and [NaN] are falsy. *)
Definition truthy (v : number) : bool :=
  negb (PrimFloat.eqb v 0%float || PrimFloat.is_nan v).

(** [m.get(k) || d] for a [Map<string, number>]: [undefined] is falsy. *)
Definition num_or (o : option number) (d : number) : number :=
  match o with
  | Some v => if truthy v then v else d
  | None => d
  end.

(** [ToBoolean] on a string: only the empty string is falsy. *)
Definition str_truthy (s : string) : bool := negb (bool_decide (s = EmptyString)).

(** [m.get(k) || null] for a [Map<string, string | null>]. *)
Definition str_or_null (o : option (option string)) : option string :=
  match o with
  | Some (Some s) => if str_truthy s then Some s else None
  | _ => None
  end.

(** [Math.pow(v, n)] at the integral exponents the sources use (1 and 2),
    as iterated multiplication. *)
Fixpoint Math_pow (v : number) (n : nat) : number :=
  match n with
  | 0 => 1%float
  | 1 => v
  | S m => PrimFloat.mul v (Math_pow v m)
  end.

Definition Math_sqrt (v : number) : number := PrimFloat.sqrt v.

Definition Math_max (a b : number) : number :=
  if PrimFloat.is_nan a || PrimFloat.is_nan b then nan
  else if PrimFloat.ltb a b then b else a.

(** Distance between two points, as every source site writes it:
    [Math.sqrt(Math.pow(bx - ax, 2) + Math.pow(by - ay, 2))]. *)
Definition euclid (ax ay bx by_ : number) : number :=
  Math_sqrt (PrimFloat.add (Math_pow (PrimFloat.sub bx ax) 2)
                           (Math_pow (PrimFloat.sub by_ ay) 2)).

(** A [Set<string>] in insertion order. *)
Definition set_has (x : string) (s : list string) : bool := bool_decide (x ∈ s).
Definition set_add (x : string) (s : list string) : list string :=
  if set_has x s then s else s ++ [x].
Definition set_delete (x : string) (s : list string) : list string :=
  filter (λ y, y ≠ x) s.

(** [arr.sort(cmp)]: the sort is stable, and [cmp x y > 0] alone moves [y]
    before [x].  For a comparator that orders the elements consistently
    (the sources sort finite distances by their difference) this insertion
    sort returns the one stable sorted arrangement. *)
Fixpoint sort_insert {A : Type} (cmp : A → A → number) (x : A) (l : list A) : list A :=
  match l with
  | [] => [x]
  | y :: l' => if PrimFloat.ltb 0%float (cmp x y) then y :: sort_insert cmp x l'
               else x :: l
  end.

Definition Array_sort {A : Type} (cmp : A → A → number) (l : list A) : list A :=
  foldr (sort_insert cmp) [] l.

End JS.

(** Result of a computation that contains a [while] loop. *)
Inductive outcome (A : Type) : Type :=
| Returned (a : A)
| OutOfFuel.
Arguments Returned {A} a.
Arguments OutOfFuel {A}.

(** ** Data model ([@/types]) *)

Inductive Status : Type := online | offline | busy | relay.

#[global] Instance Status_eq_dec : EqDecision Status.
Proof. solve_decision. Defined.

Inductive Priority : Type := critical | high | normal | low.

#[global] Instance Priority_eq_dec : EqDecision Priority.
Proof. solve_decision. Defined.

Record Node : Type := mkNode {
  node_id : string;
  node_name : string;
  node_x : JS.number;
  node_y : JS.number;
  node_status : Status;
  node_battery : JS.number;
  node_signalStrength : JS.number;
  node_connections : list string;
  node_lastSeen : Z;
  node_messageCount : JS.number;
  node_ipAddress : string
}.

Record Route : Type := mkRoute {
  route_source : string;
  route_destination : string;
  route_path : list string;
  route_cost : JS.number;
  route_latency : JS.number;
  route_reliability : JS.number
}.

Record Connection : Type := mkConnection {
  conn_nodeA : string;
  conn_nodeB : string;
  conn_strength : JS.number;
  conn_latency : JS.number;
  conn_active : bool
}.

(** [nodes.find(n => n.id === i)] *)
Definition nodes_find (nodes : list Node) (i : string) : option Node :=
  List.find (λ n, bool_decide (node_id n = i)) nodes.

Definition is_online (n : Node) : bool := bool_decide (node_status n = online).

(** ** Topology manager ([MeshNetwork]) *)

Module NODE_CONFIG.
Definition MAX_CONNECTIONS : nat := 8.
Definition MIN_CONNECTIONS : nat := 2.
Definition MAX_RANGE : JS.number := 500%float.
End NODE_CONFIG.

(** Writes to the fields of a node object. *)
Definition set_connections (c : list string) (n : Node) : Node :=
  mkNode (node_id n) (node_name n) (node_x n) (node_y n) (node_status n)
         (node_battery n) (node_signalStrength n) c (node_lastSeen n)
         (node_messageCount n) (node_ipAddress n).

Definition set_status (st : Status) (n : Node) : Node :=
  mkNode (node_id n) (node_name n) (node_x n) (node_y n) st
         (node_battery n) (node_signalStrength n) (node_connections n)
         (node_lastSeen n) (node_messageCount n) (node_ipAddress n).

Definition set_lastSeen (t : Z) (n : Node) : Node :=
  mkNode (node_id n) (node_name n) (node_x n) (node_y n) (node_status n)
         (node_battery n) (node_signalStrength n) (node_connections n) t
         (node_messageCount n) (node_ipAddress n).

(** [n.connections.push(i)] *)
Definition push_connection (i : string) (n : Node) : Node :=
  set_connections (node_connections n ++ [i]) n.

(** [connectedNode.connections = connectedNode.connections.filter(id => id !== nodeId)] *)
Definition scrub (nodeId : string) (connectedNode : Node) : Node :=
  set_connections (filter (λ i, i ≠ nodeId) (node_connections connectedNode))
                  connectedNode.

(** The [Map<string, Node>]: its values in insertion order, each under the
    key [node_id].  The node objects live in the map, and a reference to one
    of them is its key: a write through a reference is [nodes_modify]. *)
Definition nodes_modify (f : Node → Node) (i : string) (l : list Node) : list Node :=
  (λ n, if bool_decide (node_id n = i) then f n else n) <$> l.

(** [nodes.set(n.id, n)]: a known key keeps its place. *)
Definition nodes_set (n : Node) (l : list Node) : list Node :=
  if bool_decide (node_id n ∈ node_id <$> l)
  then nodes_modify (λ _, n) (node_id n) l
  else l ++ [n].

(** [nodes.delete(i)] *)
Definition nodes_delete (i : string) (l : list Node) : list Node :=
  filter (λ n, node_id n ≠ i) l.

Module MeshNetwork.

Record state : Type := mkState {
  nodes : list Node;
  connections : list Connection;
  localNodeId : option string
}.

(** [new MeshNetwork()] *)
Definition empty : state := mkState [] [] None.

Definition getNode (i : string) (s : state) : option Node := nodes_find (nodes s) i.
Definition getNodes (s : state) : list Node := nodes s.
Definition getConnections (s : state) : list Connection := connections s.

(** The [connections] array of the node object with key [i], as it is now. *)
Definition connections_of (i : string) (s : state) : list string :=
  from_option node_connections [] (getNode i s).

(** Lines 105-110. *)
Definition calculateDistance (nodeA nodeB : Node) : JS.number :=
  JS.euclid (node_x nodeA) (node_y nodeA) (node_x nodeB) (node_y nodeB).

(** Lines 90-100. *)
Definition findNearbyNodes (node : Node) (range : JS.number) (s : state) : list Node :=
  snd <$>
    JS.Array_sort (λ a b, (fst a - fst b)%float)
      (filter (λ p, PrimFloat.leb (fst p) range = true)
         ((λ n, (calculateDistance node n, n)) <$>
            filter (λ n, node_id n ≠ node_id node) (nodes s))).

(** Lines 115-132.  [nodeA] and [nodeB] are references to node objects; the
    two pushes go through them. *)
Definition establishConnection (nodeA nodeB : Node) (s : state) : Connection * state :=
  let distance := calculateDistance nodeA nodeB in
  let connection :=
    mkConnection (node_id nodeA) (node_id nodeB)
      (JS.Math_max 0%float (100 - (distance / NODE_CONFIG.MAX_RANGE * 50))%float)
      (10 + distance / 10)%float true in
  (connection,
   mkState (nodes_modify (push_connection (node_id nodeA)) (node_id nodeB)
              (nodes_modify (push_connection (node_id nodeB)) (node_id nodeA) (nodes s)))
           (connections s ++ [connection]) (localNodeId s)).

(** Lines 80-84: the body of the [forEach]; [includes] reads the array of
    [node] as the earlier rounds left it. *)
Definition discover_step (node : Node) (s : state) (nearbyNode : Node) : state :=
  if bool_decide (node_id nearbyNode ∈ connections_of (node_id node) s) then s
  else snd (establishConnection node nearbyNode s).

(** Lines 74-85. *)
Definition discoverConnections (node : Node) (s : state) : state :=
  fold_left (discover_step node)
    (take NODE_CONFIG.MAX_CONNECTIONS (findNearbyNodes node NODE_CONFIG.MAX_RANGE s)) s.

(** Lines 44-62.  [newId] and [ip] are the strings that
    [CryptoUtils.generateId()] and [generateIpAddress()] draw, [now] is the
    clock.  The node returned is the object under [newId] in the result. *)
Definition createNode (newId ip : string) (now : Z) (name : string)
    (x y : JS.number) (s : state) : state :=
  let node := mkNode newId name x y online 100%float 100%float [] now 0%float ip in
  discoverConnections node
    (mkState (nodes_set node (nodes s)) (connections s) (localNodeId s)).

(** Lines 137-155. *)
Definition removeNode (nodeId : string) (s : state) : state :=
  match getNode nodeId s with
  | None => s
  | Some node =>
    let scrubbed :=
      fold_left (λ l connId, nodes_modify (scrub nodeId) connId l)
        (node_connections node) (nodes s) in
    mkState (nodes_delete nodeId scrubbed)
            (filter (λ c, conn_nodeA c ≠ nodeId ∧ conn_nodeB c ≠ nodeId) (connections s))
            (localNodeId s)
  end.

(** Lines 160-166. *)
Definition updateNodeStatus (now : Z) (nodeId : string) (status : Status)
    (s : state) : state :=
  match getNode nodeId s with
  | None => s
  | Some _ =>
    mkState (nodes_modify (λ node, set_lastSeen now (set_status status node))
                          nodeId (nodes s))
            (connections s) (localNodeId s)
  end.

(** Lines 179-182: the neighbours that are known and online. *)
Definition alive (s : state) (connId : string) : bool :=
  match getNode connId s with
  | Some connectedNode => is_online connectedNode
  | None => false
  end.

(** Lines 172-183: the body of the [forEach], for the node under key [i]. *)
Definition heal_step (s : state) (i : string) : state :=
  match getNode i s with
  | None => s
  | Some node =>
    let s1 :=
      if (length (node_connections node) <? NODE_CONFIG.MIN_CONNECTIONS)%nat
         && is_online node
      then discoverConnections node s else s in
    mkState (nodes_modify
               (λ n, set_connections
                       (filter (λ connId, alive s1 connId = true) (node_connections n)) n)
               i (nodes s1))
            (connections s1) (localNodeId s1)
  end.

(** Lines 171-184. *)
Definition healNetwork (s : state) : state :=
  fold_left heal_step (node_id <$> nodes s) s.

(** Lines 226-229. *)
Definition simulateFailure (now : Z) (nodeId : string) (s : state) : state :=
  healNetwork (updateNodeStatus now nodeId offline s).

(** Lines 234-240. *)
Definition simulateRecovery (nodeId : string) (s : state) : state :=
  match getNode nodeId s with
  | None => s
  | Some node =>
    let s1 := mkState (nodes_modify (set_status online) nodeId (nodes s))
                      (connections s) (localNodeId s) in
    discoverConnections (set_status online node) s1
  end.

End MeshNetwork.

(** ** Deterministic strategy ([DijkstraRouter]) *)

Module DijkstraRouter.

Record state : Type := mkState {
  distances : gmap string JS.number;
  previous : gmap string (option string);
  unvisited : list string
}.

(** Lines 40-45: every node at [Infinity], no predecessor, unvisited;
    then the source at [0]. *)
Definition init_step (st : state) (node : Node) : state :=
  mkState (<[node_id node := JS.Infinity]> (distances st))
          (<[node_id node := None]> (previous st))
          (JS.set_add (node_id node) (unvisited st)).

Definition initialize (nodes : list Node) (sourceId : string) : state :=
  let st := fold_left init_step nodes (mkState ∅ ∅ []) in
  mkState (<[sourceId := 0%float]> (distances st)) (previous st) (unvisited st).

(** Lines 49-58: the linear scan for the unvisited node of least tentative
    distance; the result is [(minNode, minDistance)]. *)
Definition scan_step (dist : gmap string JS.number)
    (acc : option string * JS.number) (nodeId : string) : option string * JS.number :=
  let distance := JS.num_or (dist !! nodeId) JS.Infinity in
  if PrimFloat.ltb distance (snd acc) then (Some nodeId, distance) else acc.

Definition scan_min (dist : gmap string JS.number) (unv : list string)
    : option string * JS.number :=
  fold_left (scan_step dist) unv (None, JS.Infinity).

(** Lines 108-119. *)
Definition calculateEdgeCost (nodeA nodeB : Node) : JS.number :=
  let distance := JS.euclid (node_x nodeA) (node_y nodeA) (node_x nodeB) (node_y nodeB) in
  let signalFactor :=
    ((200 - node_signalStrength nodeA - node_signalStrength nodeB) / 200)%float in
  let batteryFactor :=
    ((200 - node_battery nodeA - node_battery nodeB) / 200)%float in
  (distance * (1 + signalFactor * 0.5 + batteryFactor * 0.3))%float.

(** Lines 68-81: relaxation of one neighbour of [currentNode]. *)
Definition relax (nodes : list Node) (minNode : string) (currentNode : Node)
    (st : state) (neighborId : string) : state :=
  if negb (JS.set_has neighborId (unvisited st)) then st
  else match nodes_find nodes neighborId with
       | None => st
       | Some neighbor =>
         if negb (is_online neighbor) then st
         else
           let edgeCost := calculateEdgeCost currentNode neighbor in
           let newDistance :=
             (JS.num_or (distances st !! minNode) 0 + edgeCost)%float in
           if PrimFloat.ltb newDistance
                (JS.num_or (distances st !! neighborId) JS.Infinity)
           then mkState (<[neighborId := newDistance]> (distances st))
                        (<[neighborId := Some minNode]> (previous st))
                        (unvisited st)
           else st
       end.

(** Lines 47-82: the main loop. *)
Fixpoint main_loop (fuel : nat) (nodes : list Node) (destinationId : string)
    (st : state) : outcome state :=
  match unvisited st with
  | [] => Returned st
  | _ :: _ =>
    match fuel with
    | 0 => OutOfFuel
    | S fuel' =>
      match fst (scan_min (distances st) (unvisited st)) with
      | None => Returned st
      | Some minNode =>
        if bool_decide (minNode = destinationId) then Returned st
        else
          let st1 := mkState (distances st) (previous st)
                             (JS.set_delete minNode (unvisited st)) in
          match nodes_find nodes minNode with
          | None => main_loop fuel' nodes destinationId st1
          | Some currentNode =>
            main_loop fuel' nodes destinationId
              (fold_left (relax nodes minNode currentNode)
                         (node_connections currentNode) st1)
          end
      end
    end
  end.

(** Lines 85-91: walk the predecessors back from the destination. *)
Fixpoint reconstruct (fuel : nat) (prev : gmap string (option string))
    (current : option string) (path : list string) : outcome (list string) :=
  match current with
  | None => Returned path
  | Some c =>
    match fuel with
    | 0 => OutOfFuel
    | S fuel' => reconstruct fuel' prev (JS.str_or_null (prev !! c)) (c :: path)
    end
  end.

(** Lines 124-141: the latency accumulated over consecutive pairs. *)
Fixpoint estimateLatency_from (totalLatency : JS.number) (path : list string)
    (nodes : list Node) : JS.number :=
  match path with
  | a :: ((b :: _) as rest) =>
    let total' :=
      match nodes_find nodes a, nodes_find nodes b with
      | Some nodeA, Some nodeB =>
        let distance :=
          JS.euclid (node_x nodeA) (node_y nodeA) (node_x nodeB) (node_y nodeB) in
        (totalLatency + (10 + distance / 10))%float
      | _, _ => totalLatency
      end in
    estimateLatency_from total' rest nodes
  | _ => totalLatency
  end.

Definition estimateLatency (path : list string) (nodes : list Node) : JS.number :=
  estimateLatency_from 0%float path nodes.

(** Lines 146-157. *)
Definition calculateReliability (path : list string) (nodes : list Node) : JS.number :=
  fold_left (λ reliability nodeId,
    match nodes_find nodes nodeId with
    | Some node =>
      (reliability * ((node_signalStrength node / 100) * (node_battery node / 100)))%float
    | None => reliability
    end) path 1%float.

(** Lines 30-103.  The main loop removes one member of [unvisited] per
    round, and a predecessor chain visits each node at most once. *)
Definition findShortestPath (nodes : list Node) (sourceId destinationId : string)
    : outcome (option Route) :=
  match main_loop (S (length nodes)) nodes destinationId (initialize nodes sourceId) with
  | OutOfFuel => OutOfFuel
  | Returned st =>
    match reconstruct (S (length nodes)) (previous st) (Some destinationId) [] with
    | OutOfFuel => OutOfFuel
    | Returned path =>
      if negb (bool_decide (head path = Some sourceId)) then Returned None
      else Returned (Some
        (mkRoute sourceId destinationId path
           (JS.num_or (distances st !! destinationId) JS.Infinity)
           (estimateLatency path nodes)
           (calculateReliability path nodes)))
    end
  end.

End DijkstraRouter.

Arguments DijkstraRouter.findShortestPath : simpl never.


(** Sequencing of computations that may run out of fuel. *)
#[global] Instance outcome_bind : MBind outcome := λ A B k m,
  match m with
  | Returned a => k a
  | OutOfFuel => OutOfFuel
  end.

(** [n] as a JavaScript number (exact below 2^53). *)
Fixpoint float_of_nat (n : nat) : JS.number :=
  match n with
  | 0 => 0%float
  | S m => (float_of_nat m + 1)%float
  end.

(** ** Stochastic strategy ([AntColonyRouter]) *)

Module ROUTING_CONFIG.
Definition ACO_ITERATIONS : nat := 100.
Definition ANT_COUNT : nat := 10.
Definition PHEROMONE_INITIAL : JS.number := 1.0%float.
Definition PHEROMONE_EVAPORATION : JS.number := 0.5%float.
Definition ALPHA : nat := 1.
Definition BETA : nat := 2.
Definition Q : JS.number := 100%float.
End ROUTING_CONFIG.

Module AntColonyRouter.

(** The router object: its [pheromones] field, which lives as long as the
    router does, and the number of [Math.random()] draws made so far. *)
Record state : Type := mkState {
  pheromones : gmap string JS.number;
  draws : nat
}.

Definition fresh : state := mkState ∅ 0.

(** Lines 353-355: [[nodeA, nodeB].sort().join('-')]; the default sort
    orders strings by code unit. *)
Definition getEdgeKey (nodeA nodeB : string) : string :=
  if String.ltb nodeB nodeA then nodeB +:+ "-" +:+ nodeA
  else nodeA +:+ "-" +:+ nodeB.

(** Lines 210-217.  Nothing is removed from the map here. *)
Definition initializePheromones (nodes : list Node)
    (ph : gmap string JS.number) : gmap string JS.number :=
  fold_left (λ ph nodeA,
    fold_left (λ ph nodeB,
      <[getEdgeKey (node_id nodeA) nodeB := ROUTING_CONFIG.PHEROMONE_INITIAL]> ph)
      (node_connections nodeA) ph)
    nodes ph.

(** Lines 292-313: weight of one neighbour, [None] when it is unknown. *)
Definition weight (ph : gmap string JS.number) (current : Node)
    (nodes : list Node) (destination : string) (neighborId : string)
    : option (string * JS.number) :=
  match nodes_find nodes neighborId with
  | None => None
  | Some neighbor =>
    let edgeKey := getEdgeKey (node_id current) neighborId in
    let pheromone := JS.num_or (ph !! edgeKey) ROUTING_CONFIG.PHEROMONE_INITIAL in
    let heuristic :=
      match nodes_find nodes destination with
      | Some destNode =>
        (1 / (1 + JS.euclid (node_x neighbor) (node_y neighbor)
                            (node_x destNode) (node_y destNode)))%float
      | None => 1%float
      end in
    Some (neighborId,
          (JS.Math_pow pheromone ROUTING_CONFIG.ALPHA
           * JS.Math_pow heuristic ROUTING_CONFIG.BETA)%float)
  end.

Definition probabilities (ph : gmap string JS.number) (current : Node)
    (neighbors : list string) (nodes : list Node) (destination : string)
    : list (string * JS.number) :=
  omap (weight ph current nodes destination) neighbors.

Definition total_of (probs : list (string * JS.number)) : JS.number :=
  fold_left (λ total p, (total + snd p)%float) probs 0%float.

(** Lines 319-322: the roulette wheel; [None] when the loop falls through. *)
Fixpoint roulette (random : JS.number) (probs : list (string * JS.number))
    : option string :=
  match probs with
  | [] => None
  | (i, prob) :: rest =>
    let random' := (random - prob)%float in
    if PrimFloat.leb random' 0%float then Some i else roulette random' rest
  end.

(** Lines 283-325.  The result is the [string | null | undefined] returned
    and the number of draws after the call. *)
Definition selectNextNode (rnd : nat → JS.number) (st : state) (current : Node)
    (neighbors : list string) (nodes : list Node) (destination : string)
    : option string * nat :=
  let probs := probabilities (pheromones st) current neighbors nodes destination in
  let total := total_of probs in
  if PrimFloat.eqb total 0%float then (head neighbors, draws st)
  else
    let random := (rnd (draws st) * total)%float in
    match roulette random probs with
    | Some i => (Some i, S (draws st))
    | None =>
      (match last probs with
       | Some (i, _) => if JS.str_truthy i then Some i else None
       | None => None
       end, S (draws st))
    end.

Definition priorityModifier (priority : Priority) : JS.number :=
  if bool_decide (priority = critical) then 0.5%float
  else if bool_decide (priority = high) then 0.75%float else 1.0%float.

(** The variables of [antTraverse]. *)
Record ant : Type := mkAnt {
  path : list string;
  visited : list string;
  currentId : string;
  totalCost : JS.number;
  ant_draws : nat
}.

(** Lines 238-241. *)
Definition available (nodes : list Node) (vis : list string)
    (currentNode : Node) : list string :=
  filter (λ i, match nodes_find nodes i with
               | Some node => is_online node && negb (JS.set_has i vis)
               | None => false
               end = true) (node_connections currentNode).

(** Lines 233-266: the walk; it ends by reaching the destination or by one
    of the [break]s. *)
Fixpoint walk (fuel : nat) (rnd : nat → JS.number) (ph : gmap string JS.number)
    (nodes : list Node) (destinationId : string) (priority : Priority)
    (a : ant) : outcome ant :=
  if bool_decide (currentId a = destinationId) then Returned a
  else
    match fuel with
    | 0 => OutOfFuel
    | S fuel' =>
      match nodes_find nodes (currentId a) with
      | None => Returned a
      | Some currentNode =>
        match available nodes (visited a) currentNode with
        | [] => Returned a
        | (_ :: _) as neighbors =>
          let '(next, d) :=
            selectNextNode rnd (mkState ph (ant_draws a)) currentNode neighbors
                           nodes destinationId in
          let a' := mkAnt (path a) (visited a) (currentId a) (totalCost a) d in
          match next with
          | None => Returned a'
          | Some nextId =>
            if negb (JS.str_truthy nextId) then Returned a'
            else
              match nodes_find nodes nextId with
              | None => Returned a'
              | Some nextNode =>
                let distance :=
                  JS.euclid (node_x currentNode) (node_y currentNode)
                            (node_x nextNode) (node_y nextNode) in
                walk fuel' rnd ph nodes destinationId priority
                  (mkAnt (path a ++ [nextId]) (JS.set_add nextId (visited a)) nextId
                         (totalCost a + distance * priorityModifier priority)%float d)
              end
          end
        end
      end
    end.

(** Lines 222-278.  Every round of the walk visits a node of [nodes] it has
    not visited before, so [length nodes] rounds and one last test are the
    most it can make. *)
Definition antTraverse (rnd : nat → JS.number) (st : state) (nodes : list Node)
    (sourceId destinationId : string) (priority : Priority)
    : outcome (option Route * nat) :=
  a ← walk (S (length nodes)) rnd (pheromones st) nodes destinationId priority
         (mkAnt [sourceId] [sourceId] sourceId 0%float (draws st)) ;
  if negb (bool_decide (currentId a = destinationId))
  then Returned (None, ant_draws a)
  else Returned (Some (mkRoute sourceId destinationId (path a) (totalCost a)
                         (float_of_nat (length (path a)) * 15)%float 0.9%float),
                 ant_draws a).

(** Lines 330-334. *)
Definition evaporatePheromones (ph : gmap string JS.number) : gmap string JS.number :=
  (λ value, (value * (1 - ROUTING_CONFIG.PHEROMONE_EVAPORATION))%float) <$> ph.

(** Lines 339-348. *)
Fixpoint deposit_on (deposit : JS.number) (p : list string)
    (ph : gmap string JS.number) : gmap string JS.number :=
  match p with
  | a :: ((b :: _) as rest) =>
    let key := getEdgeKey a b in
    let current := JS.num_or (ph !! key) 0%float in
    deposit_on deposit rest (<[key := (current + deposit)%float]> ph)
  | _ => ph
  end.

Definition depositPheromones (route : Route) (priority : Priority)
    (ph : gmap string JS.number) : gmap string JS.number :=
  let deposit :=
    (ROUTING_CONFIG.Q / route_cost route
     * (if bool_decide (priority = critical) then 2
        else if bool_decide (priority = high) then 1.5 else 1))%float in
  deposit_on deposit (route_path route) ph.

(** The variables of the iteration loop of [findOptimalPath]. *)
Record search : Type := mkSearch {
  bestRoute : option Route;
  bestCost : JS.number;
  router : state
}.

(** Lines 187-197: [n] ants, one after the other; [routes] collects the
    successful ones in order. *)
Fixpoint deploy (n : nat) (rnd : nat → JS.number) (nodes : list Node)
    (sourceId destinationId : string) (priority : Priority)
    (routes : list Route) (s : search) : outcome (list Route * search) :=
  match n with
  | 0 => Returned (routes, s)
  | S n' =>
    '(r, d) ← antTraverse rnd (router s) nodes sourceId destinationId priority ;
    let st := mkState (pheromones (router s)) d in
    match r with
    | None =>
      deploy n' rnd nodes sourceId destinationId priority routes
             (mkSearch (bestRoute s) (bestCost s) st)
    | Some route =>
      deploy n' rnd nodes sourceId destinationId priority (routes ++ [route])
             (if PrimFloat.ltb (route_cost route) (bestCost s)
              then mkSearch (Some route) (route_cost route) st
              else mkSearch (bestRoute s) (bestCost s) st)
    end
  end.

(** Lines 183-202: one iteration: the ants, evaporation, then the deposits. *)
Definition iteration (rnd : nat → JS.number) (nodes : list Node)
    (sourceId destinationId : string) (priority : Priority) (s : search)
    : outcome search :=
  '(routes, s') ← deploy ROUTING_CONFIG.ANT_COUNT rnd nodes sourceId destinationId
                    priority [] s ;
  let ph := fold_left (λ ph route, depositPheromones route priority ph) routes
              (evaporatePheromones (pheromones (router s'))) in
  Returned (mkSearch (bestRoute s') (bestCost s') (mkState ph (draws (router s')))).

Fixpoint iterations (n : nat) (rnd : nat → JS.number) (nodes : list Node)
    (sourceId destinationId : string) (priority : Priority) (s : search)
    : outcome search :=
  match n with
  | 0 => Returned s
  | S n' =>
    s' ← iteration rnd nodes sourceId destinationId priority s ;
    iterations n' rnd nodes sourceId destinationId priority s'
  end.

(** The router as the iterations find it: line 177 has run. *)
Definition at_start (nodes : list Node) (st : state) : state :=
  mkState (initializePheromones nodes (pheromones st)) (draws st).

(** Lines 170-205. *)
Definition findOptimalPath (rnd : nat → JS.number) (st : state) (nodes : list Node)
    (sourceId destinationId : string) (priority : Priority)
    : outcome (option Route * state) :=
  s ← iterations ROUTING_CONFIG.ACO_ITERATIONS rnd nodes sourceId destinationId
        priority (mkSearch None JS.Infinity (at_start nodes st)) ;
  Returned (bestRoute s, router s).

End AntColonyRouter.

Arguments AntColonyRouter.antTraverse : simpl never.
Arguments AntColonyRouter.iteration : simpl never.
Arguments AntColonyRouter.findOptimalPath : simpl never.
Arguments ROUTING_CONFIG.ACO_ITERATIONS : simpl never.
Arguments ROUTING_CONFIG.ANT_COUNT : simpl never.

(** ** Facade ([Router]) *)

Module Router.

(** Lines 369-382.  The deterministic strategy leaves the router as it is. *)
Definition findRoute (rnd : nat → JS.number) (st : AntColonyRouter.state)
    (nodes : list Node) (source destination : string) (priority : Priority)
    : outcome (option Route * AntColonyRouter.state) :=
  if bool_decide (priority = critical) then
    r ← DijkstraRouter.findShortestPath nodes source destination ;
    Returned (r, st)
  else AntColonyRouter.findOptimalPath rnd st nodes source destination priority.

(** [{ ...route, reliability: v }] *)
Definition with_reliability (route : Route) (v : JS.number) : Route :=
  mkRoute (route_source route) (route_destination route) (route_path route)
          (route_cost route) (route_latency route) v.

(** Lines 387-403. *)
Definition findAllRoutes (rnd : nat → JS.number) (st : AntColonyRouter.state)
    (nodes : list Node) (source destination : string)
    : outcome (list Route * AntColonyRouter.state) :=
  dijkstraRoute ← DijkstraRouter.findShortestPath nodes source destination ;
  let routes :=
    match dijkstraRoute with
    | Some r => [with_reliability r 0.95%float]
    | None => []
    end in
  '(acoCritical, st') ←
    AntColonyRouter.findOptimalPath rnd st nodes source destination critical ;
  Returned (match acoCritical with
            | Some r => routes ++ [r]
            | None => routes
            end, st').

End Router.

(** ** Sample topologies *)

(** Two nodes five apart, linked both ways, both online at 100/100. *)
Definition nodeA0 : Node :=
  mkNode "a" "Alpha" 0%float 0%float online 100%float 100%float ["b"] 0%Z 0%float
         "192.168.0.1".
Definition nodeB0 : Node :=
  mkNode "b" "Beta" 3%float 4%float online 100%float 100%float ["a"] 0%Z 0%float
         "192.168.0.2".

(** ** Vocabulary of the statements *)

(** A route with one node: what both strategies build when the source is the
    destination. *)
Definition dijkstra_self (nodes : list Node) (sourceId : string) : Route :=
  mkRoute sourceId sourceId [sourceId] JS.Infinity
    (DijkstraRouter.estimateLatency [sourceId] nodes)
    (DijkstraRouter.calculateReliability [sourceId] nodes).

Definition aco_self (sourceId : string) : Route :=
  mkRoute sourceId sourceId [sourceId] 0%float (float_of_nat 1 * 15)%float 0.9%float.

(** What the walk of an ant keeps true of its variables. *)
Definition walk_inv (nodes : list Node) (sourceId : string)
    (a : AntColonyRouter.ant) : Prop :=
  NoDup (AntColonyRouter.visited a)
  ∧ (∀ i, i ∈ AntColonyRouter.visited a → i = sourceId ∨ i ∈ node_id <$> nodes)
  ∧ AntColonyRouter.currentId a ∈ AntColonyRouter.visited a.

(** The ant as [antTraverse] sets it off. *)
Definition ant0 (sourceId : string) (d : nat) : AntColonyRouter.ant :=
  AntColonyRouter.mkAnt [sourceId] [sourceId] sourceId 0%float d.

(** The search once an ant has brought the one-node route back, and before. *)
Definition settled (sourceId : string) (s : AntColonyRouter.search) : Prop :=
  AntColonyRouter.bestRoute s = Some (aco_self sourceId)
  ∧ AntColonyRouter.bestCost s = 0%float.

Definition unsettled (s : AntColonyRouter.search) : Prop :=
  AntColonyRouter.bestRoute s = None ∧ AntColonyRouter.bestCost s = JS.Infinity.

(** The keys of the edges of a topology: one for every neighbour that a
    node lists. *)
Definition edge_keys (nodes : list Node) : list string :=
  nodeA ← nodes;
  AntColonyRouter.getEdgeKey (node_id nodeA) <$> node_connections nodeA.

(** A stream of draws that is constant. *)
Definition rnd_half : nat → JS.number := λ _, 0.5%float.

(** An online node without neighbours. *)
Definition nodeC0 : Node :=
  mkNode "c" "Gamma" 9%float 9%float online 100%float 100%float [] 0%Z 0%float
         "192.168.0.3".

(** [[r]] for a route, [[]] for [null]. *)
Definition candidates (r : option Route) : list Route :=
  match r with
  | Some route => [route]
  | None => []
  end.

(** The ids of the topology, in the order of the map. *)
Definition ids (l : list Node) : list string := node_id <$> l.

(** [y] is listed as a neighbour by the node with id [x]. *)
Definition adj (l : list Node) (x y : string) : Prop :=
  ∃ X, X ∈ l ∧ node_id X = x ∧ y ∈ node_connections X.

(** Adjacency symmetry, as the design document words it. *)
Definition symmetric (s : MeshNetwork.state) : Prop :=
  ∀ A B, A ∈ MeshNetwork.nodes s → B ∈ MeshNetwork.nodes s →
    (node_id B ∈ node_connections A ↔ node_id A ∈ node_connections B).

(** What the topology manager keeps true of its map: each key once, and
    adjacency symmetric between the nodes of the map. *)
Definition mesh_inv (l : list Node) : Prop :=
  NoDup (ids l) ∧ ∀ x y, adj l x y → y ∈ ids l → adj l y x.

(** The requests of a driver.  [createNode] draws the id of the new node
    ([newId]); [establishConnection] is handed two node objects, of which the
    manager reads the id and the position and to which it writes through the
    map. *)
Inductive request : Type :=
| Create (newId ip : string) (now : Z) (name : string) (x y : JS.number)
| Establish (nodeA nodeB : Node)
| Remove (nodeId : string).

Definition serve (s : MeshNetwork.state) (r : request) : MeshNetwork.state :=
  match r with
  | Create newId ip now name x y => MeshNetwork.createNode newId ip now name x y s
  | Establish nodeA nodeB => snd (MeshNetwork.establishConnection nodeA nodeB s)
  | Remove nodeId => MeshNetwork.removeNode nodeId s
  end.

Definition serve_all (s : MeshNetwork.state) (rs : list request) : MeshNetwork.state :=
  fold_left serve rs s.

(** A sequence of requests is in order when no id is drawn twice, and when
    the objects handed to [establishConnection] are nodes that [createNode]
    has returned, in the topology still or removed since.  [used] lists the
    ids drawn so far. *)
Definition in_order (used : list string) (r : request) : bool :=
  match r with
  | Create newId _ _ _ _ _ => negb (bool_decide (newId ∈ used))
  | Establish nodeA nodeB =>
    bool_decide (node_id nodeA ∈ used) && bool_decide (node_id nodeB ∈ used)
  | Remove _ => true
  end.

Definition drawn (used : list string) (r : request) : list string :=
  match r with
  | Create newId _ _ _ _ _ => newId :: used
  | _ => used
  end.

Fixpoint all_in_order (used : list string) (rs : list request) : bool :=
  match rs with
  | [] => true
  | r :: rs' => in_order used r && all_in_order (drawn used r) rs'
  end.

(** The invariant along a sequence of requests: the ids of the map and the
    ids that the nodes list have all been drawn. *)
Definition trace_inv (used : list string) (l : list Node) : Prop :=
  mesh_inv l ∧ (∀ i, i ∈ ids l → i ∈ used) ∧ (∀ x y, adj l x y → y ∈ used).

(** The node object that a [Create] request returns, as a driver holds it. *)
Definition handle (i : string) (x y : JS.number) : Node :=
  mkNode i "" x y online 100%float 100%float [] 0%Z 0%float "".

(** Four nodes in a row, one apart; the second is removed; the first and
    the last are connected once more, and the removed node, of which the
    driver still holds the object, is connected to the third. *)
Definition requests0 : list request :=
  [ Create "x" "192.168.1.1" 1 "X" 0%float 0%float;
    Create "y" "192.168.1.2" 2 "Y" 1%float 0%float;
    Create "c" "192.168.1.3" 3 "C" 2%float 0%float;
    Create "d" "192.168.1.4" 4 "D" 3%float 0%float;
    Remove "y";
    Establish (handle "x" 0%float 0%float) (handle "d" 3%float 0%float);
    Establish (handle "y" 1%float 0%float) (handle "c" 2%float 0%float) ].

(** A topology without a casualty: each key once, every node online, every
    neighbour a node of the map. *)
Definition healthy (l : list Node) : Prop :=
  NoDup (ids l)
  ∧ Forall (λ n, node_status n = online) l
  ∧ Forall (λ n, Forall (λ c, c ∈ ids l) (node_connections n)) l.

(** [n'] is [n] after some pushes to its [connections]. *)
Definition node_ext (n n' : Node) : Prop :=
  node_id n = node_id n' ∧ node_x n = node_x n' ∧ node_y n = node_y n'
  ∧ node_status n = node_status n'
  ∧ node_connections n `prefix_of` node_connections n'.

(** The map after some pushes to the [connections] of its nodes. *)
Definition ext (l l' : list Node) : Prop := Forall2 node_ext l l'.

(** The first part of the body of the [forEach] in [healNetwork]. *)
Definition reconnect (s : MeshNetwork.state) (i : string) : MeshNetwork.state :=
  match MeshNetwork.getNode i s with
  | None => s
  | Some node =>
    if (length (node_connections node) <? NODE_CONFIG.MIN_CONNECTIONS)%nat
       && is_online node
    then MeshNetwork.discoverConnections node s else s
  end.

(** The node under [i] has nothing to discover: it has its minimum of
    neighbours, or lists every node that discovery would connect it to. *)
Definition satisfied (s : MeshNetwork.state) (i : string) : Prop :=
  ∀ node, MeshNetwork.getNode i s = Some node →
    length (node_connections node) < NODE_CONFIG.MIN_CONNECTIONS →
    ∀ t, t ∈ take NODE_CONFIG.MAX_CONNECTIONS
               (MeshNetwork.findNearbyNodes node NODE_CONFIG.MAX_RANGE s) →
         adj (MeshNetwork.nodes s) i (node_id t).

(** Three online nodes in reach of one another that list no neighbour. *)
Definition strangers : MeshNetwork.state :=
  MeshNetwork.mkState
    [ mkNode "a" "Alpha" 0%float 0%float online 100%float 100%float [] 0%Z 0%float
             "192.168.0.1";
      mkNode "b" "Beta" 3%float 4%float online 100%float 100%float [] 0%Z 0%float
             "192.168.0.2";
      mkNode "c" "Gamma" 9%float 9%float online 100%float 100%float [] 0%Z 0%float
             "192.168.0.3" ]
    [] None.

(** Two nodes created five apart: discovery links the second to the first. *)
Definition pair_topology : MeshNetwork.state :=
  MeshNetwork.createNode "b" "192.168.0.2" 2 "Beta" 3%float 4%float
    (MeshNetwork.createNode "a" "192.168.0.1" 1 "Alpha" 0%float 0%float
       MeshNetwork.empty).

(** Four nodes created in a row, one apart.  The last fails and recovers;
    then the first two go offline. *)
Definition row_topology : MeshNetwork.state :=
  MeshNetwork.createNode "d" "192.168.1.4" 4 "D" 3%float 0%float
    (MeshNetwork.createNode "c" "192.168.1.3" 3 "C" 2%float 0%float
       (MeshNetwork.createNode "y" "192.168.1.2" 2 "Y" 1%float 0%float
          (MeshNetwork.createNode "x" "192.168.1.1" 1 "X" 0%float 0%float
             MeshNetwork.empty))).

Definition row_after_outage : MeshNetwork.state :=
  MeshNetwork.updateNodeStatus 8 "y" offline
    (MeshNetwork.updateNodeStatus 7 "x" offline
       (MeshNetwork.simulateRecovery "d"
          (MeshNetwork.simulateFailure 5 "d" row_topology))).

(** The endpoints of the records of the edge list. *)
Definition endpoints (s : MeshNetwork.state) : list (string * string) :=
  (λ c, (conn_nodeA c, conn_nodeB c)) <$> MeshNetwork.getConnections s.

(** Two pheromone maps with the same entries under the keys [K]. *)
Definition agree (K : list string) (ph1 ph2 : gmap string JS.number) : Prop :=
  ∀ k, k ∈ K → ph1 !! k = ph2 !! k.

(** Two routers that have made the same draws and whose maps agree on the
    edges of the topology. *)
Definition same_router (nodes : list Node) (st1 st2 : AntColonyRouter.state) : Prop :=
  AntColonyRouter.draws st1 = AntColonyRouter.draws st2
  ∧ agree (edge_keys nodes) (AntColonyRouter.pheromones st1)
          (AntColonyRouter.pheromones st2).

Definition same_search (nodes : list Node) (s1 s2 : AntColonyRouter.search) : Prop :=
  AntColonyRouter.bestRoute s1 = AntColonyRouter.bestRoute s2
  ∧ AntColonyRouter.bestCost s1 = AntColonyRouter.bestCost s2
  ∧ same_router nodes (AntColonyRouter.router s1) (AntColonyRouter.router s2).

(** Two computations end alike: both run out of fuel, or both return, with
    related results. *)
Definition orel {A : Type} (R : A → A → Prop) (o1 o2 : outcome A) : Prop :=
  match o1, o2 with
  | Returned a1, Returned a2 => R a1 a2
  | OutOfFuel, OutOfFuel => True
  | _, _ => False
  end.

(** The nodes other than [node] within [range] of it. *)
Definition in_range (node : Node) (range : JS.number) (n : Node) : Prop :=
  node_id n ≠ node_id node
  ∧ PrimFloat.leb (MeshNetwork.calculateDistance node n) range = true.

#[global] Instance in_range_dec (node : Node) (range : JS.number) (n : Node) :
  Decision (in_range node range n).
Proof. unfold in_range. apply _. Defined.

(** The node that [createNode] allocates. *)
Definition newborn (newId ip : string) (now : Z) (name : string)
    (x y : JS.number) : Node :=
  mkNode newId name x y online 100%float 100%float [] now 0%float ip.

(** The nodes that discovery tries for [node]: the first [MAX_CONNECTIONS]
    of the array that [findNearbyNodes] returns (line 79). *)
Definition nearest (node : Node) (s : MeshNetwork.state) : list Node :=
  take NODE_CONFIG.MAX_CONNECTIONS
       (MeshNetwork.findNearbyNodes node NODE_CONFIG.MAX_RANGE s).

(** What [establishConnection] writes to the node under [j]. *)
Definition linked_to (nodeA nodeB : Node) (j : string) (n : Node) : Node :=
  set_connections
    (node_connections n
     ++ (if bool_decide (j = node_id nodeA) then [node_id nodeB] else [])
     ++ (if bool_decide (j = node_id nodeB) then [node_id nodeA] else [])) n.

(** The node under [j] once the node under [i] has connected itself to the
    nodes [ts], none of which it listed.  *)
Definition joined (i : string) (ts : list Node) (j : string) (n : Node) : Node :=
  set_connections
    (node_connections n
     ++ (if bool_decide (j = i) then ids ts
         else if bool_decide (j ∈ ids ts) then [i] else [])) n.

(** The nodes of the map with their [connections] left out. *)
Definition bare (l : list Node) : list Node := set_connections [] <$> l.

(** An ant at [a] may move on to [b]: the node under [a] lists [b], and [b]
    is the key of an online node. *)
Definition hop (nodes : list Node) (a b : string) : Prop :=
  ∃ na nb, nodes_find nodes a = Some na ∧ b ∈ node_connections na
           ∧ nodes_find nodes b = Some nb ∧ node_status nb = online.

(** Every two entries of [p] that follow one another are a [hop]. *)
Definition linked (nodes : list Node) (p : list string) : Prop :=
  ∀ k a b, p !! k = Some a → p !! S k = Some b → hop nodes a b.

(** What line 261 adds for the move from [a] to [b]. *)
Definition hop_cost (nodes : list Node) (priority : Priority) (a b : string)
    : JS.number :=
  match nodes_find nodes a, nodes_find nodes b with
  | Some na, Some nb =>
    (JS.euclid (node_x na) (node_y na) (node_x nb) (node_y nb)
     * AntColonyRouter.priorityModifier priority)%float
  | _, _ => 0%float
  end.

(** The sum of line 261 along [p], from [acc], in the order of the path. *)
Fixpoint cost_along (nodes : list Node) (priority : Priority) (acc : JS.number)
    (p : list string) : JS.number :=
  match p with
  | a :: ((b :: _) as rest) =>
    cost_along nodes priority (acc + hop_cost nodes priority a b)%float rest
  | _ => acc
  end.

(** A route as an ant brings it back from a walk on [nodes]. *)
Definition ant_route (nodes : list Node) (sourceId destinationId : string)
    (priority : Priority) (r : Route) : Prop :=
  route_source r = sourceId ∧ route_destination r = destinationId
  ∧ head (route_path r) = Some sourceId ∧ last (route_path r) = Some destinationId
  ∧ NoDup (route_path r) ∧ linked nodes (route_path r)
  ∧ route_cost r = cost_along nodes priority 0%float (route_path r)
  ∧ route_latency r = (float_of_nat (length (route_path r)) * 15)%float
  ∧ route_reliability r = 0.9%float.

(** The invariant of the walk that gives the route its shape. *)
Definition walk_shape (nodes : list Node) (sourceId : string) (priority : Priority)
    (a : AntColonyRouter.ant) : Prop :=
  AntColonyRouter.visited a = AntColonyRouter.path a
  ∧ head (AntColonyRouter.path a) = Some sourceId
  ∧ last (AntColonyRouter.path a) = Some (AntColonyRouter.currentId a)
  ∧ NoDup (AntColonyRouter.path a)
  ∧ linked nodes (AntColonyRouter.path a)
  ∧ AntColonyRouter.totalCost a
    = cost_along nodes priority 0%float (AntColonyRouter.path a).

(** The ant has nowhere to go: its node is unknown, or every neighbour its
    node lists is unknown, offline or visited. *)
Definition dead_end (nodes : list Node) (a : AntColonyRouter.ant) : Prop :=
  match nodes_find nodes (AntColonyRouter.currentId a) with
  | None => True
  | Some currentNode =>
    AntColonyRouter.available nodes (AntColonyRouter.visited a) currentNode = []
  end.

(** The edge list holds a record between [x] and [y], in either order. *)
Definition edge (cs : list Connection) (x y : string) : Prop :=
  ∃ c, c ∈ cs ∧ ((conn_nodeA c = x ∧ conn_nodeB c = y)
                 ∨ (conn_nodeA c = y ∧ conn_nodeB c = x)).

(** The two representations of the topology say the same: each key once,
    and a record between two ids exactly when the one lists the other. *)
Definition in_step (s : MeshNetwork.state) : Prop :=
  NoDup (ids (MeshNetwork.nodes s))
  ∧ ∀ x y, edge (MeshNetwork.connections s) x y ↔ adj (MeshNetwork.nodes s) x y.

(** A request on the nodes of the map as it is: [createNode] draws an id
    that is not a key, [establishConnection] is handed two nodes of the
    map. *)
Definition live (s : MeshNetwork.state) (r : request) : bool :=
  match r with
  | Create newId _ _ _ _ _ => bool_decide (newId ∉ ids (MeshNetwork.nodes s))
  | Establish nodeA nodeB =>
    bool_decide (node_id nodeA ∈ ids (MeshNetwork.nodes s))
    && bool_decide (node_id nodeB ∈ ids (MeshNetwork.nodes s))
  | Remove _ => true
  end.

Fixpoint all_live (s : MeshNetwork.state) (rs : list request) : bool :=
  match rs with
  | [] => true
  | r :: rs' => live s r && all_live (serve s r) rs'
  end.

(** Four nodes in a row; the second is removed, and the first and the last
    are connected once more. *)
Definition requests1 : list request := take 6 requests0.

(** ** Statistics ([MeshNetwork.getStats]) *)

(** The object that [getStats] returns; the four counts are lengths of
    arrays. *)
Record Stats : Type := mkStats {
  totalNodes : nat;
  onlineNodes : nat;
  offlineNodes : nat;
  totalConnections : nat;
  avgConnections : JS.number
}.

(** Lines 210-221. *)
Definition getStats (s : MeshNetwork.state) : Stats :=
  let nodes := MeshNetwork.getNodes s in
  mkStats (length nodes)
    (length (filter (λ n, node_status n = online) nodes))
    (length (filter (λ n, node_status n = offline) nodes))
    (length (MeshNetwork.connections s))
    (if (0 <? length nodes)%nat
     then (fold_left (λ acc n, acc + float_of_nat (length (node_connections n)))
             nodes 0 / float_of_nat (length nodes))%float
     else 0%float).

(** Two node objects with the same key at the same place. *)
Definition same_place (n n' : Node) : Prop :=
  node_id n = node_id n' ∧ node_x n = node_x n' ∧ node_y n = node_y n'.

(** * Properties *)

(** ** The deterministic strategy: the first round is the last *)

Section dijkstra_first_round.
Import DijkstraRouter.
Variables (nodes : list Node) (sourceId : string).

(** While the nodes are entered, every tentative distance is [Infinity]
    and every predecessor is [null]. *)
Lemma init_fold_distances (st0 : state) (k : string) :
  (distances st0 !! k = None ∨ distances st0 !! k = Some JS.Infinity) →
  distances (fold_left init_step nodes st0) !! k = None
  ∨ distances (fold_left init_step nodes st0) !! k = Some JS.Infinity.
Proof.
  revert st0. induction nodes as [|n ns IH]; intros st0 H0; cbn; [done|].
  apply IH; cbn. destruct (decide (node_id n = k)) as [->|Hk].
  - right. apply lookup_insert_eq.
  - by rewrite lookup_insert_ne.
Qed.

Lemma init_fold_previous (st0 : state) (k : string) :
  (previous st0 !! k = None ∨ previous st0 !! k = Some None) →
  previous (fold_left init_step nodes st0) !! k = None
  ∨ previous (fold_left init_step nodes st0) !! k = Some None.
Proof.
  revert st0. induction nodes as [|n ns IH]; intros st0 H0; cbn; [done|].
  apply IH; cbn. destruct (decide (node_id n = k)) as [->|Hk].
  - right. apply lookup_insert_eq.
  - by rewrite lookup_insert_ne.
Qed.

Lemma initialize_source :
  distances (initialize nodes sourceId) !! sourceId = Some 0%float.
Proof. unfold initialize; cbn. apply lookup_insert_eq. Qed.

(** Read through [|| Infinity], every tentative distance is [Infinity]:
    the source's [0] is falsy. *)
Lemma initialize_reads_Infinity (k : string) :
  JS.num_or (distances (initialize nodes sourceId) !! k) JS.Infinity = JS.Infinity.
Proof.
  destruct (decide (sourceId = k)) as [Heq|Hne].
  { rewrite <- Heq, initialize_source. reflexivity. }
  unfold initialize; cbn. rewrite lookup_insert_ne by done.
  destruct (init_fold_distances (mkState ∅ ∅ []) k) as [-> | ->]; by try left.
Qed.

Lemma initialize_previous (k : string) :
  JS.str_or_null (previous (initialize nodes sourceId) !! k) = None.
Proof.
  unfold initialize; cbn.
  destruct (init_fold_previous (mkState ∅ ∅ []) k) as [-> | ->]; by try left.
Qed.

(** The scan over any frontier finds no node. *)
Lemma scan_min_initialize (unv : list string) :
  scan_min (distances (initialize nodes sourceId)) unv = (None, JS.Infinity).
Proof.
  unfold scan_min. induction unv as [|u unv IH]; [done|].
  cbn [fold_left]. unfold scan_step at 2.
  by rewrite initialize_reads_Infinity.
Qed.

Lemma main_loop_initialize (fuel : nat) (destinationId : string) :
  main_loop (S fuel) nodes destinationId (initialize nodes sourceId)
  = Returned (initialize nodes sourceId).
Proof.
  cbn [main_loop]. destruct (unvisited (initialize nodes sourceId)); [done|].
  by rewrite scan_min_initialize.
Qed.

Lemma reconstruct_initialize (fuel : nat) (destinationId : string) :
  reconstruct (S fuel) (previous (initialize nodes sourceId)) (Some destinationId) []
  = Returned [destinationId].
Proof. cbn [reconstruct]. rewrite initialize_previous. by destruct fuel. Qed.

End dijkstra_first_round.

Lemma findShortestPath_distinct (nodes : list Node) (sourceId destinationId : string) :
  sourceId ≠ destinationId →
  DijkstraRouter.findShortestPath nodes sourceId destinationId = Returned None.
Proof.
  intros Hne. unfold DijkstraRouter.findShortestPath.
  rewrite main_loop_initialize, reconstruct_initialize. cbn.
  rewrite bool_decide_eq_false_2; [done|]. congruence.
Qed.

Lemma dijkstra_same_endpoints (nodes : list Node) (sourceId : string) :
  DijkstraRouter.findShortestPath nodes sourceId sourceId
  = Returned (Some (dijkstra_self nodes sourceId)).
Proof.
  unfold DijkstraRouter.findShortestPath.
  rewrite main_loop_initialize, reconstruct_initialize. cbn [head].
  rewrite bool_decide_eq_true_2 by done. cbn [negb].
  by rewrite initialize_source.
Qed.

(** [findShortestPath] returns on every input. *)
Lemma dijkstra_returns (nodes : list Node) (sourceId destinationId : string) :
  ∃ r, DijkstraRouter.findShortestPath nodes sourceId destinationId = Returned r.
Proof.
  destruct (decide (sourceId = destinationId)) as [<-|Hne].
  - eexists. apply dijkstra_same_endpoints.
  - eexists. by apply findShortestPath_distinct.
Qed.

(** C2.  With source and destination distinct, [findShortestPath] returns
    [null] on every node list: the scan reads the source's tentative distance
    [0] through [|| Infinity], finds no node, and the loop is left before any
    relaxation. *)
Theorem dijkstra_distinct_endpoints_null (nodes : list Node)
    (sourceId destinationId : string) :
  sourceId ≠ destinationId →
  JS.num_or (DijkstraRouter.distances (DijkstraRouter.initialize nodes sourceId)
               !! sourceId) JS.Infinity = JS.Infinity
  ∧ fst (DijkstraRouter.scan_min
           (DijkstraRouter.distances (DijkstraRouter.initialize nodes sourceId))
           (DijkstraRouter.unvisited (DijkstraRouter.initialize nodes sourceId))) = None
  ∧ DijkstraRouter.main_loop (S (length nodes)) nodes destinationId
      (DijkstraRouter.initialize nodes sourceId)
    = Returned (DijkstraRouter.initialize nodes sourceId)
  ∧ DijkstraRouter.findShortestPath nodes sourceId destinationId = Returned None.
Proof.
  intros Hne. split_and!.
  - apply initialize_reads_Infinity.
  - by rewrite scan_min_initialize.
  - apply main_loop_initialize.
  - by apply findShortestPath_distinct.
Qed.

Lemma dijkstra_distinct_endpoints_null_witness :
  "a" ≠ "b"
  ∧ DijkstraRouter.findShortestPath [nodeA0; nodeB0] "a" "b" = Returned None.
Proof.
  assert (H : "a" ≠ "b") by done.
  split; [exact H|].
  apply (dijkstra_distinct_endpoints_null [nodeA0; nodeB0] "a" "b" H).
Defined.

(** ** The stochastic strategy *)

Section ant_walk.
Import AntColonyRouter.
Variables (rnd : nat → JS.number) (ph : gmap string JS.number) (nodes : list Node).
Variables (sourceId destinationId : string) (priority : Priority).
Local Abbreviation walk_inv := (walk_inv nodes sourceId).

Lemma weight_fst (current : Node) (i : string) (p : string * JS.number) :
  weight ph current nodes destinationId i = Some p → fst p = i.
Proof.
  unfold weight. destruct (nodes_find nodes i); [|done]. by intros [= <-].
Qed.

Lemma probabilities_elem (current : Node) (neighbors : list string)
    (p : string * JS.number) :
  p ∈ probabilities ph current neighbors nodes destinationId → fst p ∈ neighbors.
Proof.
  unfold probabilities. rewrite list_elem_of_omap. intros (i & Hi & Hw).
  by rewrite (weight_fst _ _ _ Hw).
Qed.

Lemma roulette_elem (random : JS.number) (probs : list (string * JS.number)) (i : string) :
  roulette random probs = Some i → i ∈ probs.*1.
Proof.
  revert random. induction probs as [|[j w] probs IH]; intros random; cbn; [done|].
  destruct (PrimFloat.leb _ _).
  - intros [= ->]. left.
  - intros H. right. by eapply IH.
Qed.

Lemma selectNextNode_elem (d : nat) (current : Node) (neighbors : list string) (i : string) :
  fst (selectNextNode rnd (mkState ph d) current neighbors nodes destinationId) = Some i →
  i ∈ neighbors.
Proof.
  unfold selectNextNode. cbn [pheromones draws].
  destruct (PrimFloat.eqb _ _).
  { cbn. destruct neighbors; [done|]. intros [= ->]. left. }
  destruct (roulette _ _) as [j|] eqn:Hr; cbn.
  - intros [= ->]. apply roulette_elem in Hr.
    apply list_elem_of_fmap in Hr as (p & -> & Hp). by eapply probabilities_elem.
  - destruct (last _) as [[j w]|] eqn:Hl; [|done].
    destruct (JS.str_truthy j); [|done]. intros [= ->].
    apply last_Some_elem_of in Hl. by apply probabilities_elem in Hl.
Qed.

Lemma available_elem (vis : list string) (currentNode : Node) (i : string) :
  i ∈ available nodes vis currentNode →
  (i ∉ vis) ∧ i ∈ node_id <$> nodes.
Proof.
  unfold available. rewrite list_elem_of_filter. intros [H _].
  destruct (nodes_find nodes i) as [n|] eqn:Hf; [|done].
  apply andb_true_iff in H as [_ H]. apply negb_true_iff in H.
  unfold JS.set_has in H. apply bool_decide_eq_false in H. split; [done|].
  apply find_some in Hf as [Hin Hid]. apply bool_decide_eq_true in Hid. subst i.
  apply list_elem_of_fmap. exists n. split; [done|]. by apply list_elem_of_In.
Qed.


Lemma walk_inv_length (a : ant) : walk_inv a → length (visited a) ≤ S (length nodes).
Proof.
  intros (Hnd & Hsub & _).
  assert (visited a ⊆+ sourceId :: (node_id <$> nodes)) as Hle.
  { apply NoDup_submseteq; [done|]. intros i Hi. apply Hsub in Hi as [->|Hi]; [left|by right]. }
  apply submseteq_length in Hle. cbn in Hle. by rewrite length_fmap in Hle.
Qed.

Lemma walk_returns (fuel : nat) (a : ant) :
  walk_inv a →
  S (length nodes) < fuel + length (visited a) →
  ∃ a', walk fuel rnd ph nodes destinationId priority a = Returned a'
        ∧ walk_inv a'.
Proof.
  revert a. induction fuel as [|fuel IH]; intros a Hinv Hfuel.
  { apply walk_inv_length in Hinv. lia. }
  cbn [walk]. case_bool_decide; [by eauto|].
  destruct (nodes_find nodes (currentId a)) as [currentNode|]; [|by eauto].
  destruct (available nodes (visited a) currentNode) as [|n0 ns] eqn:Hav; [by eauto|].
  destruct (selectNextNode _ _ _ _ _ _) as [next d] eqn:Hsel.
  assert (Hinv' : walk_inv (mkAnt (path a) (visited a) (currentId a) (totalCost a) d)) by done.
  destruct next as [nextId|]; [|by eauto].
  destruct (JS.str_truthy nextId); cbn [negb]; [|by eauto].
  destruct (nodes_find nodes nextId) as [nextNode|] eqn:Hnext; [|by eauto].
  assert (Hel : nextId ∈ n0 :: ns).
  { eapply selectNextNode_elem. by rewrite Hsel. }
  rewrite <- Hav in Hel. apply available_elem in Hel as [Hnv Hid].
  assert (Hadd : JS.set_add nextId (visited a) = visited a ++ [nextId]).
  { unfold JS.set_add, JS.set_has. by rewrite bool_decide_eq_false_2. }
  apply IH.
  - destruct Hinv as (Hnd & Hsub & Hcur). unfold walk_inv; cbn. rewrite Hadd.
    split_and!.
    + apply NoDup_app. split_and!; [done| |apply NoDup_singleton].
      intros i Hi ->%list_elem_of_singleton. done.
    + intros i [Hi| ->%list_elem_of_singleton]%elem_of_app; [by apply Hsub|by right].
    + apply elem_of_app. right. by apply list_elem_of_singleton.
  - cbn. rewrite Hadd, length_app. cbn. lia.
Qed.


End ant_walk.

Section ant_traverse.
Import AntColonyRouter.
Variables (rnd : nat → JS.number) (nodes : list Node).
Variables (sourceId destinationId : string) (priority : Priority).
Local Abbreviation walk_inv := (walk_inv nodes sourceId).
Local Abbreviation ant0 := (ant0 sourceId).


Lemma ant0_inv (d : nat) : walk_inv (ant0 d).
Proof.
  unfold walk_inv; cbn. split_and!.
  - apply NoDup_singleton.
  - intros i ->%list_elem_of_singleton. by left.
  - by apply list_elem_of_singleton.
Qed.

(** [antTraverse] returns on every input; what it returns is read off the
    ant the walk ends with. *)
Lemma antTraverse_returns (st : state) :
  ∃ a, walk_inv a
    ∧ antTraverse rnd st nodes sourceId destinationId priority
      = Returned
          (if bool_decide (currentId a = destinationId)
           then Some (mkRoute sourceId destinationId (path a) (totalCost a)
                        (float_of_nat (length (path a)) * 15)%float 0.9%float)
           else None, ant_draws a).
Proof.
  destruct (walk_returns rnd (pheromones st) nodes sourceId destinationId priority
              (S (length nodes)) (ant0 (draws st)) (ant0_inv _))
    as (a & Hw & Hinv); [cbn; lia|].
  exists a. split; [done|]. unfold antTraverse. fold (ant0 (draws st)).
  rewrite Hw. cbn. by case_bool_decide.
Qed.

Lemma antTraverse_reliability (st : state) :
  ∃ r d, antTraverse rnd st nodes sourceId destinationId priority = Returned (r, d)
    ∧ ∀ route, r = Some route → route_reliability route = 0.9%float.
Proof.
  destruct (antTraverse_returns st) as (a & _ & ->).
  eexists _, _. split; [done|]. intros route. case_bool_decide; [|done].
  by intros [= <-].
Qed.

Lemma nodes_find_None (i : string) :
  i ∉ node_id <$> nodes → nodes_find nodes i = None.
Proof.
  intros Hi. unfold nodes_find. destruct (find _ _) as [n|] eqn:Hf; [|done].
  apply find_some in Hf as [Hin Hid]. apply bool_decide_eq_true in Hid.
  destruct Hi. apply list_elem_of_fmap. exists n. split; [done|].
  by apply list_elem_of_In.
Qed.

(** An ant between distinct endpoints, one of them unknown, fails. *)
Lemma antTraverse_unknown (st : state) :
  sourceId ≠ destinationId →
  sourceId ∉ node_id <$> nodes ∨ destinationId ∉ node_id <$> nodes →
  ∃ d, antTraverse rnd st nodes sourceId destinationId priority = Returned (None, d).
Proof.
  intros Hne [Hs|Hd].
  - exists (draws st). unfold antTraverse. cbn [walk currentId].
    rewrite bool_decide_eq_false_2 by done.
    rewrite (nodes_find_None _ Hs). cbn.
    by rewrite bool_decide_eq_false_2.
  - destruct (antTraverse_returns st) as (a & (_ & Hsub & Hcur) & ->).
    exists (ant_draws a). rewrite bool_decide_eq_false_2; [done|].
    intros Heq. rewrite Heq in Hcur. apply Hsub in Hcur as [?|?]; congruence.
Qed.

(** With the source as destination the ant returns at once. *)
Lemma antTraverse_self (st : state) :
  sourceId = destinationId →
  antTraverse rnd st nodes sourceId destinationId priority
  = Returned (Some (aco_self sourceId), draws st).
Proof.
  intros <-. unfold antTraverse. cbn [walk currentId].
  rewrite bool_decide_eq_true_2 by done. cbn.
  by rewrite bool_decide_eq_true_2.
Qed.

End ant_traverse.

(** *** The search as a whole *)

Section aco_search.
Import AntColonyRouter.
Variables (rnd : nat → JS.number) (nodes : list Node).
Variables (sourceId destinationId : string) (priority : Priority).

(** [R] holds of every route an ant can bring back. *)
Variable R : Route → Prop.
Hypothesis ants_ok : ∀ st : state,
  ∃ r d, antTraverse rnd st nodes sourceId destinationId priority = Returned (r, d)
    ∧ ∀ route, r = Some route → R route.

Lemma deploy_best (n : nat) (routes : list Route) (s : search) :
  ∃ routes' s', deploy n rnd nodes sourceId destinationId priority routes s
                = Returned (routes', s')
    ∧ ∀ r, bestRoute s' = Some r → bestRoute s = Some r ∨ R r.
Proof.
  revert routes s. induction n as [|n IH]; intros routes s; cbn [deploy].
  { eexists _, _. split; [done|]. by left. }
  destruct (ants_ok (router s)) as (r & d & -> & Hr). cbn.
  destruct r as [route|].
  - edestruct IH as (routes' & s' & -> & Hbest).
    eexists _, _. split; [done|]. intros r Hs'. apply Hbest in Hs'.
    destruct Hs' as [Hs'|?]; [|by right].
    destruct (PrimFloat.ltb _ _); cbn in Hs'; [|by left].
    right. injection Hs' as <-. by apply Hr.
  - edestruct IH as (routes' & s' & -> & Hbest).
    eexists _, _. split; [done|]. intros r Hs'. by apply Hbest in Hs'.
Qed.

Lemma iteration_best (s : search) :
  ∃ s', iteration rnd nodes sourceId destinationId priority s = Returned s'
    ∧ ∀ r, bestRoute s' = Some r → bestRoute s = Some r ∨ R r.
Proof.
  unfold iteration.
  destruct (deploy_best ROUTING_CONFIG.ANT_COUNT [] s) as (routes & s' & -> & Hbest).
  cbn. eexists. split; [done|]. done.
Qed.

Lemma iterations_best (n : nat) (s : search) :
  ∃ s', iterations n rnd nodes sourceId destinationId priority s = Returned s'
    ∧ ∀ r, bestRoute s' = Some r → bestRoute s = Some r ∨ R r.
Proof.
  revert s. induction n as [|n IH]; intros s; cbn [iterations].
  { eexists. split; [done|]. by left. }
  destruct (iteration_best s) as (s1 & -> & H1). cbn.
  destruct (IH s1) as (s' & -> & H'). eexists. split; [done|].
  intros r Hr. apply H' in Hr as [Hr|?]; [|by right]. by apply H1.
Qed.

Lemma findOptimalPath_best (st : state) :
  ∃ r st', findOptimalPath rnd st nodes sourceId destinationId priority
           = Returned (r, st')
    ∧ ∀ route, r = Some route → R route.
Proof.
  unfold findOptimalPath.
  destruct (iterations_best ROUTING_CONFIG.ACO_ITERATIONS
              (mkSearch None JS.Infinity (at_start nodes st))) as (s' & -> & H').
  cbn. eexists _, _. split; [done|]. intros route Hr.
  apply H' in Hr as [Hr|?]; done.
Qed.

End aco_search.

(** *** Source and destination equal *)

Section aco_self_route.
Import AntColonyRouter.
Variables (rnd : nat → JS.number) (nodes : list Node).
Variables (sourceId : string) (priority : Priority).

Local Abbreviation settled := (settled sourceId).

Lemma deploy_settled (n : nat) (routes : list Route) (s : search) :
  settled s →
  ∃ routes' s', deploy n rnd nodes sourceId sourceId priority routes s
                = Returned (routes', s') ∧ settled s'.
Proof.
  revert routes s. induction n as [|n IH]; intros routes s Hs; cbn [deploy].
  { by eexists _, _. }
  rewrite antTraverse_self by done. cbn.
  apply IH. destruct Hs as [Hr Hc]. rewrite Hc. by cbn.
Qed.

Lemma deploy_unsettled (n : nat) (routes : list Route) (s : search) :
  unsettled s →
  ∃ routes' s', deploy (S n) rnd nodes sourceId sourceId priority routes s
                = Returned (routes', s') ∧ settled s'.
Proof.
  intros [Hr Hc]. cbn [deploy]. rewrite antTraverse_self by done. cbn.
  apply deploy_settled. rewrite Hc. by cbn.
Qed.

Lemma iteration_settled (s : search) :
  settled s ∨ unsettled s →
  ∃ s', iteration rnd nodes sourceId sourceId priority s = Returned s' ∧ settled s'.
Proof.
  intros Hs. unfold iteration.
  assert (∃ routes' s', deploy ROUTING_CONFIG.ANT_COUNT rnd nodes sourceId sourceId
                          priority [] s = Returned (routes', s') ∧ settled s')
    as (routes' & s' & -> & Hs').
  { destruct Hs; [by apply deploy_settled|by apply deploy_unsettled]. }
  cbn. by eexists.
Qed.

Lemma iterations_settled (n : nat) (s : search) :
  settled s →
  ∃ s', iterations n rnd nodes sourceId sourceId priority s = Returned s' ∧ settled s'.
Proof.
  revert s. induction n as [|n IH]; intros s Hs; cbn [iterations]; [by eexists|].
  destruct (iteration_settled s) as (s1 & -> & H1); [by left|]. cbn. by apply IH.
Qed.

Lemma iterations_unsettled (n : nat) (s : search) :
  unsettled s →
  ∃ s', iterations (S n) rnd nodes sourceId sourceId priority s = Returned s'
        ∧ settled s'.
Proof.
  intros Hs. cbn [iterations].
  destruct (iteration_settled s) as (s1 & -> & H1); [by right|].
  apply (iterations_settled n s1 H1).
Qed.

Lemma findOptimalPath_self (st : state) :
  ∃ st', findOptimalPath rnd st nodes sourceId sourceId priority
         = Returned (Some (aco_self sourceId), st').
Proof.
  unfold findOptimalPath.
  change ROUTING_CONFIG.ACO_ITERATIONS with (S 99).
  destruct (iterations_unsettled 99 (mkSearch None JS.Infinity (at_start nodes st)))
    as (s' & -> & [Hr _]); [done|].
  exists (router s'). by rewrite <- Hr.
Qed.

End aco_self_route.

(** C10.  With the source as destination neither strategy reports no-path:
    [findShortestPath] returns a route whose path is the source alone and
    whose cost is [Infinity], and [findOptimalPath] returns a route whose
    path is the source alone and whose cost is [0]. *)
Theorem same_endpoints_routes (nodes : list Node) (sourceId : string)
    (rnd : nat → JS.number) (st : AntColonyRouter.state) (priority : Priority) :
  (∃ r, DijkstraRouter.findShortestPath nodes sourceId sourceId = Returned (Some r)
        ∧ route_path r = [sourceId] ∧ route_cost r = JS.Infinity)
  ∧ (∃ r st', AntColonyRouter.findOptimalPath rnd st nodes sourceId sourceId priority
              = Returned (Some r, st')
        ∧ route_path r = [sourceId] ∧ route_cost r = 0%float).
Proof.
  split.
  - exists (dijkstra_self nodes sourceId). split; [|done].
    apply dijkstra_same_endpoints.
  - destruct (findOptimalPath_self rnd nodes sourceId priority st) as [st' H].
    by exists (aco_self sourceId), st'.
Qed.

Lemma outcome_bind_Returned {A B : Type} (a : A) (k : A → outcome B) :
  Returned a ≫= k = k a.
Proof. reflexivity. Qed.

(** *** Unknown endpoints *)

Section unknown_endpoints.
Variables (rnd : nat → JS.number) (nodes : list Node).
Variables (sourceId destinationId : string).
Hypothesis distinct : sourceId ≠ destinationId.
Hypothesis unknown :
  sourceId ∉ node_id <$> nodes ∨ destinationId ∉ node_id <$> nodes.

Lemma findOptimalPath_unknown (priority : Priority) (st : AntColonyRouter.state) :
  ∃ st', AntColonyRouter.findOptimalPath rnd st nodes sourceId destinationId priority
         = Returned (None, st').
Proof.
  destruct (findOptimalPath_best rnd nodes sourceId destinationId priority
              (λ _, False)) with (st := st) as (r & st' & -> & Hr).
  { intros st0.
    destruct (antTraverse_unknown rnd nodes sourceId destinationId priority st0
                distinct unknown) as [d ->].
    by eexists _, _. }
  exists st'. destruct r as [route|]; [|done]. by destruct (Hr route).
Qed.

Lemma findRoute_unknown (priority : Priority) (st : AntColonyRouter.state) :
  ∃ st', Router.findRoute rnd st nodes sourceId destinationId priority
         = Returned (None, st').
Proof.
  unfold Router.findRoute. case_bool_decide.
  - rewrite findShortestPath_distinct by done. rewrite outcome_bind_Returned.
    by exists st.
  - apply findOptimalPath_unknown.
Qed.

Lemma findAllRoutes_unknown (st : AntColonyRouter.state) :
  ∃ st', Router.findAllRoutes rnd st nodes sourceId destinationId
         = Returned ([], st').
Proof.
  unfold Router.findAllRoutes. rewrite findShortestPath_distinct by done.
  rewrite outcome_bind_Returned.
  destruct (findOptimalPath_unknown critical st) as [st' ->].
  rewrite outcome_bind_Returned. by exists st'.
Qed.

End unknown_endpoints.

(** *** The candidates of [findAllRoutes] *)

Lemma findOptimalPath_reliability (rnd : nat → JS.number) (nodes : list Node)
    (sourceId destinationId : string) (priority : Priority)
    (st : AntColonyRouter.state) :
  ∃ r st', AntColonyRouter.findOptimalPath rnd st nodes sourceId destinationId priority
           = Returned (r, st')
    ∧ ∀ route, r = Some route → route_reliability route = 0.9%float.
Proof.
  apply (findOptimalPath_best rnd nodes sourceId destinationId priority
           (λ route, route_reliability route = 0.9%float)).
  apply antTraverse_reliability.
Qed.

(** *** The pheromone map when a search starts *)

Section pheromone_map.
Import AntColonyRouter.

Lemma init_inner_lookup (a : string) (conns : list string)
    (ph : gmap string JS.number) (k : string) :
  fold_left (λ ph nodeB, <[getEdgeKey a nodeB := ROUTING_CONFIG.PHEROMONE_INITIAL]> ph)
            conns ph !! k
  = if bool_decide (k ∈ getEdgeKey a <$> conns)
    then Some ROUTING_CONFIG.PHEROMONE_INITIAL else ph !! k.
Proof.
  revert ph. induction conns as [|c conns IH]; intros ph; cbn [fold_left fmap list_fmap].
  { rewrite bool_decide_eq_false_2; [done|]. apply not_elem_of_nil. }
  rewrite IH. case_bool_decide as H1.
  - rewrite bool_decide_eq_true_2; [done|]. by right.
  - destruct (decide (k = getEdgeKey a c)) as [->|Hk].
    + rewrite lookup_insert_eq, bool_decide_eq_true_2; [done|left].
    + rewrite lookup_insert_ne by done. rewrite bool_decide_eq_false_2; [done|].
      by intros [?|?]%elem_of_cons.
Qed.

Lemma initializePheromones_lookup (nodes : list Node) (ph : gmap string JS.number)
    (k : string) :
  initializePheromones nodes ph !! k
  = if bool_decide (k ∈ edge_keys nodes)
    then Some ROUTING_CONFIG.PHEROMONE_INITIAL else ph !! k.
Proof.
  unfold initializePheromones, edge_keys. revert ph.
  induction nodes as [|n ns IH]; intros ph; cbn [fold_left mbind list_bind].
  { rewrite bool_decide_eq_false_2; [done|]. apply not_elem_of_nil. }
  rewrite IH, init_inner_lookup.
  match goal with
  | |- context [bool_decide (k ∈ ?l1 ++ ?l2)] => pose proof (elem_of_app l1 l2 k)
  end.
  repeat case_bool_decide; try done; tauto.
Qed.

Lemma elem_of_edge_keys (nodes : list Node) (k : string) :
  k ∈ edge_keys nodes
  ↔ ∃ nodeA b, nodeA ∈ nodes ∧ b ∈ node_connections nodeA
               ∧ k = getEdgeKey (node_id nodeA) b.
Proof.
  unfold edge_keys. rewrite list_elem_of_bind. split.
  - intros (nodeA & (b & -> & Hb)%list_elem_of_fmap & Hn). by exists nodeA, b.
  - intros (nodeA & b & Hn & Hb & ->). exists nodeA. split; [|done].
    apply list_elem_of_fmap. by exists b.
Qed.

End pheromone_map.

(** *** Unknown ids in the topology manager *)

Lemma updateNodeStatus_unknown (now : Z) (i : string) (status : Status)
    (s : MeshNetwork.state) :
  i ∉ node_id <$> MeshNetwork.nodes s →
  MeshNetwork.updateNodeStatus now i status s = s.
Proof.
  intros Hi. unfold MeshNetwork.updateNodeStatus, MeshNetwork.getNode.
  by rewrite nodes_find_None.
Qed.

Lemma removeNode_unknown (i : string) (s : MeshNetwork.state) :
  i ∉ node_id <$> MeshNetwork.nodes s →
  MeshNetwork.removeNode i s = s.
Proof.
  intros Hi. unfold MeshNetwork.removeNode, MeshNetwork.getNode.
  by rewrite nodes_find_None.
Qed.

(** C7, as the code has it.  For an id absent from the topology
    [updateNodeStatus] and [removeNode] leave the state as it is; a routing
    call through the facade between two distinct ids, one of them unknown,
    returns no-path under every priority, and [findAllRoutes] returns no
    candidate. *)
Theorem unknown_id_no_op_no_path (s : MeshNetwork.state) (i : string)
    (now : Z) (status : Status) (rnd : nat → JS.number)
    (st : AntColonyRouter.state) (nodes : list Node)
    (source destination : string) (priority : Priority) :
  i ∉ node_id <$> MeshNetwork.nodes s →
  source ≠ destination →
  source ∉ node_id <$> nodes ∨ destination ∉ node_id <$> nodes →
  MeshNetwork.updateNodeStatus now i status s = s
  ∧ MeshNetwork.removeNode i s = s
  ∧ (∃ st', Router.findRoute rnd st nodes source destination priority
            = Returned (None, st'))
  ∧ (∃ st', Router.findAllRoutes rnd st nodes source destination
            = Returned ([], st')).
Proof.
  intros Hi Hne Hunknown. split_and!.
  - by apply updateNodeStatus_unknown.
  - by apply removeNode_unknown.
  - by apply findRoute_unknown.
  - by apply findAllRoutes_unknown.
Qed.

Lemma unknown_id_no_op_no_path_witness :
  MeshNetwork.updateNodeStatus 7 "zz" offline (MeshNetwork.mkState [nodeA0; nodeB0] [] None)
  = MeshNetwork.mkState [nodeA0; nodeB0] [] None
  ∧ MeshNetwork.removeNode "zz" (MeshNetwork.mkState [nodeA0; nodeB0] [] None)
    = MeshNetwork.mkState [nodeA0; nodeB0] [] None
  ∧ (∃ st', Router.findRoute rnd_half AntColonyRouter.fresh [nodeA0; nodeB0] "a" "zz" normal
            = Returned (None, st'))
  ∧ (∃ st', Router.findAllRoutes rnd_half AntColonyRouter.fresh [nodeA0; nodeB0] "a" "zz"
            = Returned ([], st')).
Proof.
  apply (unknown_id_no_op_no_path (MeshNetwork.mkState [nodeA0; nodeB0] [] None) "zz"
           7 offline rnd_half AntColonyRouter.fresh [nodeA0; nodeB0] "a" "zz" normal).
  - compute_done.
  - done.
  - right. compute_done.
Defined.

(** C7 as stated fails: a routing call whose source and destination are the
    same unknown id returns a route, under the deterministic and under the
    stochastic strategy. *)
Lemma unknown_same_endpoints_route :
("x" ∉ node_id <$> [nodeA0; nodeB0])
  ∧ Router.findRoute rnd_half AntColonyRouter.fresh [nodeA0; nodeB0] "x" "x" critical
    = Returned (Some (dijkstra_self [nodeA0; nodeB0] "x"), AntColonyRouter.fresh)
  ∧ ∃ st', Router.findRoute rnd_half AntColonyRouter.fresh [nodeA0; nodeB0] "x" "x" normal
           = Returned (Some (aco_self "x"), st').
Proof.
  split_and!.
  - compute_done.
  - unfold Router.findRoute. rewrite bool_decide_eq_true_2 by done.
    by rewrite dijkstra_same_endpoints.
  - unfold Router.findRoute. rewrite bool_decide_eq_false_2 by done.
    apply findOptimalPath_self.
Qed.

(** C8, as the code has it.  [findAllRoutes] runs the deterministic strategy
    once and the stochastic strategy once under critical priority and returns
    every route found, the deterministic one first.  The deterministic
    candidate is the route of [findShortestPath] with its reliability
    replaced by the stand-in 0.95; the stochastic candidate carries the
    stand-in 0.9 that the ant traversal sets. *)
Theorem findAllRoutes_stand_in_reliabilities (rnd : nat → JS.number)
    (st : AntColonyRouter.state) (nodes : list Node) (source destination : string) :
  ∃ dijkstraRoute acoCritical st',
    DijkstraRouter.findShortestPath nodes source destination = Returned dijkstraRoute
    ∧ AntColonyRouter.findOptimalPath rnd st nodes source destination critical
      = Returned (acoCritical, st')
    ∧ Router.findAllRoutes rnd st nodes source destination
      = Returned (candidates ((λ r, Router.with_reliability r 0.95%float) <$> dijkstraRoute)
                  ++ candidates acoCritical, st')
    ∧ (∀ route, acoCritical = Some route → route_reliability route = 0.9%float).
Proof.
  destruct (dijkstra_returns nodes source destination) as [dr Hd].
  destruct (findOptimalPath_reliability rnd nodes source destination critical st)
    as (ar & st' & Ha & Hrel).
  exists dr, ar, st'. split_and!; [done..| |done].
  unfold Router.findAllRoutes. rewrite Hd, outcome_bind_Returned, Ha.
  rewrite outcome_bind_Returned.
  destruct dr, ar; cbn; by rewrite ?app_nil_r.
Qed.

(** C8 as stated fails: on a node at 100/100 routed to itself the
    deterministic strategy computes the reliability 1, and the deterministic
    candidate of [findAllRoutes] carries 0.95. *)
Lemma findAllRoutes_overrides_dijkstra_reliability :
  ∃ dijkstraRoute c1 c2 st',
    DijkstraRouter.findShortestPath [nodeA0; nodeB0] "a" "a" = Returned (Some dijkstraRoute)
    ∧ Router.findAllRoutes rnd_half AntColonyRouter.fresh [nodeA0; nodeB0] "a" "a"
      = Returned ([c1; c2], st')
    ∧ c1 = Router.with_reliability dijkstraRoute 0.95%float
    ∧ route_reliability dijkstraRoute = 1%float
    ∧ route_reliability c1 = 0.95%float
    ∧ route_reliability c1 ≠ route_reliability dijkstraRoute.
Proof.
  destruct (findOptimalPath_self rnd_half [nodeA0; nodeB0] "a" critical
              AntColonyRouter.fresh) as [st' Haco].
  exists (dijkstra_self [nodeA0; nodeB0] "a"),
         (Router.with_reliability (dijkstra_self [nodeA0; nodeB0] "a") 0.95%float),
         (aco_self "a"), st'.
  split_and!.
  - apply dijkstra_same_endpoints.
  - unfold Router.findAllRoutes.
    rewrite dijkstra_same_endpoints, outcome_bind_Returned, Haco.
    by rewrite outcome_bind_Returned.
  - done.
  - vm_compute. reflexivity.
  - done.
  - intros H. apply (f_equal (λ v, PrimFloat.ltb v 1%float)) in H.
    vm_compute in H. discriminate.
Qed.

(** *** The search does not read what earlier searches left *)

Lemma orel_bind {A B : Type} (R : A → A → Prop) (S : B → B → Prop)
    (m1 m2 : outcome A) (k1 k2 : A → outcome B) :
  orel R m1 m2 → (∀ a1 a2, R a1 a2 → orel S (k1 a1) (k2 a2)) →
  orel S (m1 ≫= k1) (m2 ≫= k2).
Proof. destruct m1, m2; cbn; try done. intros HR Hk. by apply Hk. Qed.

Lemma omap_ext_in {A B : Type} (f g : A → option B) (l : list A) :
  (∀ x, x ∈ l → f x = g x) → omap f l = omap g l.
Proof.
  induction l as [|x l IH]; intros H; [done|]. cbn.
  rewrite (H x) by left. rewrite IH; [done|]. intros y Hy. apply H. by right.
Qed.

Section independence.
Import AntColonyRouter.
Variables (rnd : nat → JS.number) (nodes : list Node).
Variables (sourceId destinationId : string) (priority : Priority).
Local Abbreviation K := (edge_keys nodes).

Lemma probabilities_agree (ph1 ph2 : gmap string JS.number) (current : Node)
    (neighbors : list string) :
  agree K ph1 ph2 → current ∈ nodes → neighbors ⊆ node_connections current →
  probabilities ph1 current neighbors nodes destinationId
  = probabilities ph2 current neighbors nodes destinationId.
Proof.
  intros Hag Hcur Hsub. unfold probabilities. apply omap_ext_in. intros i Hi.
  unfold weight. destruct (nodes_find nodes i); [|done].
  rewrite (Hag (getEdgeKey (node_id current) i)); [done|].
  apply elem_of_edge_keys. exists current, i. split_and!; [done| |done]. by apply Hsub.
Qed.

Lemma selectNextNode_agree (ph1 ph2 : gmap string JS.number) (d : nat)
    (current : Node) (neighbors : list string) :
  agree K ph1 ph2 → current ∈ nodes → neighbors ⊆ node_connections current →
  selectNextNode rnd (mkState ph1 d) current neighbors nodes destinationId
  = selectNextNode rnd (mkState ph2 d) current neighbors nodes destinationId.
Proof.
  intros Hag Hcur Hsub. unfold selectNextNode. cbn [pheromones draws].
  by rewrite (probabilities_agree ph1 ph2).
Qed.

Lemma available_sub (vis : list string) (currentNode : Node) :
  available nodes vis currentNode ⊆ node_connections currentNode.
Proof. intros i [_ Hi]%list_elem_of_filter. done. Qed.

Lemma walk_agree (ph1 ph2 : gmap string JS.number) (fuel : nat) (a : ant) :
  agree K ph1 ph2 →
  walk fuel rnd ph1 nodes destinationId priority a
  = walk fuel rnd ph2 nodes destinationId priority a.
Proof.
  intros Hag. revert a. induction fuel as [|fuel IH]; intros a; [done|].
  cbn [walk]. case_bool_decide; [done|].
  destruct (nodes_find nodes (currentId a)) as [currentNode|] eqn:Hcur; [|done].
  apply find_some in Hcur as [Hin%list_elem_of_In _].
  pose proof (available_sub (visited a) currentNode) as Hsub.
  destruct (available nodes (visited a) currentNode) as [|n0 ns]; [done|].
  rewrite (selectNextNode_agree ph1 ph2) by done.
  destruct (selectNextNode _ _ _ _ _ _) as [[nextId|] d]; [|done].
  destruct (JS.str_truthy nextId); cbn [negb]; [|done].
  destruct (nodes_find nodes nextId); [|done]. apply IH.
Qed.

Lemma antTraverse_agree (st1 st2 : state) :
  same_router nodes st1 st2 →
  antTraverse rnd st1 nodes sourceId destinationId priority
  = antTraverse rnd st2 nodes sourceId destinationId priority.
Proof.
  intros [Hd Hag]. unfold antTraverse. by rewrite Hd, (walk_agree _ _ _ _ Hag).
Qed.

Lemma deploy_agree (n : nat) (routes : list Route) (s1 s2 : search) :
  same_search nodes s1 s2 →
  orel (λ r1 r2, fst r1 = fst r2 ∧ same_search nodes (snd r1) (snd r2))
    (deploy n rnd nodes sourceId destinationId priority routes s1)
    (deploy n rnd nodes sourceId destinationId priority routes s2).
Proof.
  revert routes s1 s2. induction n as [|n IH]; intros routes s1 s2 Hs; [done|].
  cbn [deploy]. destruct Hs as (Hr & Hc & Hst).
  rewrite (antTraverse_agree _ _ Hst).
  destruct (antTraverse rnd (router s2) _ _ _ _) as [[r d]|]; [|done].
  rewrite !outcome_bind_Returned. destruct Hst as [_ Hag].
  destruct r as [route|]; apply IH; rewrite ?Hc; [destruct (PrimFloat.ltb _ _)|];
    by repeat split.
Qed.

Lemma evaporate_agree (ph1 ph2 : gmap string JS.number) :
  agree K ph1 ph2 → agree K (evaporatePheromones ph1) (evaporatePheromones ph2).
Proof.
  intros Hag k Hk. unfold evaporatePheromones. by rewrite !lookup_fmap, (Hag k Hk).
Qed.

Lemma deposit_on_agree (deposit : JS.number) (p : list string)
    (ph1 ph2 : gmap string JS.number) :
  agree K ph1 ph2 → agree K (deposit_on deposit p ph1) (deposit_on deposit p ph2).
Proof.
  revert ph1 ph2. induction p as [|a p IH]; intros ph1 ph2 Hag; [done|].
  destruct p as [|b p]; [done|]. cbn [deposit_on]. apply IH. intros k Hk.
  destruct (decide (getEdgeKey a b = k)) as [<-|Hne].
  - by rewrite !lookup_insert_eq, (Hag _ Hk).
  - rewrite !lookup_insert_ne by done. by apply Hag.
Qed.

Lemma deposits_agree (routes : list Route) (ph1 ph2 : gmap string JS.number) :
  agree K ph1 ph2 →
  agree K (fold_left (λ ph route, depositPheromones route priority ph) routes ph1)
          (fold_left (λ ph route, depositPheromones route priority ph) routes ph2).
Proof.
  revert ph1 ph2. induction routes as [|r routes IH]; intros ph1 ph2 Hag; [done|].
  cbn [fold_left]. apply IH. by apply deposit_on_agree.
Qed.

Lemma iteration_agree (s1 s2 : search) :
  same_search nodes s1 s2 →
  orel (same_search nodes)
    (iteration rnd nodes sourceId destinationId priority s1)
    (iteration rnd nodes sourceId destinationId priority s2).
Proof.
  intros Hs. unfold iteration.
  eapply orel_bind; [by apply deploy_agree|].
  intros [routes1 s1'] [routes2 s2'] [Hr (Hb & Hc & Hd & Hag)].
  cbn in Hr, Hb, Hc, Hd, Hag. subst routes2.
  unfold orel, same_search, same_router.
  cbn [bestRoute bestCost router draws pheromones].
  split_and!; [done..|]. by apply deposits_agree, evaporate_agree.
Qed.

Lemma iterations_agree (n : nat) (s1 s2 : search) :
  same_search nodes s1 s2 →
  orel (same_search nodes)
    (iterations n rnd nodes sourceId destinationId priority s1)
    (iterations n rnd nodes sourceId destinationId priority s2).
Proof.
  revert s1 s2. induction n as [|n IH]; intros s1 s2 Hs; [done|].
  cbn [iterations]. eapply orel_bind; [by apply iteration_agree|]. apply IH.
Qed.

Lemma at_start_same (st : state) (ph' : gmap string JS.number) :
  same_router nodes (at_start nodes st) (at_start nodes (mkState ph' (draws st))).
Proof.
  split; [done|]. intros k Hk. cbn.
  by rewrite !initializePheromones_lookup, !bool_decide_eq_true_2.
Qed.

(** The route found, and the draws made, are the same whatever the map held
    when the search was called. *)
Lemma findOptimalPath_independent (st : state) (ph' : gmap string JS.number) :
  orel (λ r1 r2, fst r1 = fst r2 ∧ draws (snd r1) = draws (snd r2))
    (findOptimalPath rnd st nodes sourceId destinationId priority)
    (findOptimalPath rnd (mkState ph' (draws st)) nodes sourceId destinationId priority).
Proof.
  unfold findOptimalPath. eapply orel_bind.
  - apply iterations_agree. split_and!; [done..|]. apply at_start_same.
  - intros s1 s2 (Hb & _ & Hd & _). by cbn.
Qed.

End independence.

(** C6, as the code has it.  When the iterations of [findOptimalPath] start,
    the key of every edge of the supplied topology is at the initial level,
    and every other key is as the earlier calls on this router left it:
    nothing is removed.  On a router that has not searched before, the map
    holds the keys of the edges of the topology and no other.  What is left
    in the map is not read: the search returns the same route whatever the
    map held when it was called. *)
Theorem pheromones_at_start (rnd : nat → JS.number) (nodes : list Node)
    (st : AntColonyRouter.state) (sourceId destinationId : string)
    (priority : Priority) (k : string) (ph' : gmap string JS.number) :
  AntColonyRouter.pheromones (AntColonyRouter.at_start nodes st) !! k
  = (if bool_decide (k ∈ edge_keys nodes)
     then Some ROUTING_CONFIG.PHEROMONE_INITIAL
     else AntColonyRouter.pheromones st !! k)
  ∧ (is_Some (AntColonyRouter.pheromones
                (AntColonyRouter.at_start nodes AntColonyRouter.fresh) !! k)
     ↔ k ∈ edge_keys nodes)
  ∧ ∃ r st1 st2,
      AntColonyRouter.findOptimalPath rnd st nodes sourceId destinationId priority
      = Returned (r, st1)
      ∧ AntColonyRouter.findOptimalPath rnd
          (AntColonyRouter.mkState ph' (AntColonyRouter.draws st))
          nodes sourceId destinationId priority
        = Returned (r, st2).
Proof.
  split_and!.
  - unfold AntColonyRouter.at_start; cbn [AntColonyRouter.pheromones].
    apply initializePheromones_lookup.
  - unfold AntColonyRouter.at_start; cbn [AntColonyRouter.pheromones].
    rewrite initializePheromones_lookup. cbn.
    case_bool_decide; [by split|]. rewrite lookup_empty. split; [|done].
    by intros [??].
  - pose proof (findOptimalPath_independent rnd nodes sourceId destinationId
                  priority st ph') as Hind.
    destruct (findOptimalPath_best rnd nodes sourceId destinationId priority
                (λ _, True)) with (st := st) as (r & st1 & Hret & _).
    { intros st0.
      destruct (antTraverse_returns rnd nodes sourceId destinationId priority st0)
        as (a & _ & ->).
      by eexists _, _. }
    rewrite Hret in Hind |- *.
    destruct (AntColonyRouter.findOptimalPath rnd _ nodes _ _ _) as [[r2 st2]|];
      [|done].
    destruct Hind as [Hr _]. cbn in Hr. subst r2. by exists r, st1, st2.
Qed.

(** C6 as stated fails: after a search on the two linked nodes, the map at
    the start of a search on a node without neighbours still holds the key
    of the edge of the first topology. *)
Lemma pheromones_persist_across_calls :
  ∃ r st1 v,
    AntColonyRouter.findOptimalPath rnd_half AntColonyRouter.fresh
      [nodeA0; nodeB0] "a" "b" normal = Returned (r, st1)
    ∧ edge_keys [nodeC0] = []
    ∧ AntColonyRouter.pheromones (AntColonyRouter.at_start [nodeC0] st1) !! "a-b"
      = Some v.
Proof.
  eexists _, _, _. split_and!.
  - vm_compute. reflexivity.
  - reflexivity.
  - vm_compute. reflexivity.
Qed.

(** ** The topology manager *)

Section node_map.
Implicit Types (l : list Node) (f : Node → Node) (i x y : string).

Lemma elem_of_nodes_modify f i l (X' : Node) :
  X' ∈ nodes_modify f i l
  ↔ ∃ X, X ∈ l ∧ X' = if bool_decide (node_id X = i) then f X else X.
Proof.
  unfold nodes_modify. rewrite list_elem_of_fmap. naive_solver.
Qed.

Lemma ids_nodes_modify f i l :
  (∀ n, node_id (f n) = node_id n) → ids (nodes_modify f i l) = ids l.
Proof.
  intros Hf. unfold ids, nodes_modify. rewrite <- list_fmap_compose.
  apply list_fmap_ext. intros ? n _. cbn. by case_bool_decide.
Qed.

Lemma adj_modify f i l x y :
  (∀ n, node_id (f n) = node_id n) →
  adj (nodes_modify f i l) x y
  ↔ ∃ X, X ∈ l ∧ node_id X = x
         ∧ y ∈ node_connections (if bool_decide (x = i) then f X else X).
Proof.
  intros Hf. unfold adj.
  assert (Hid : ∀ X, node_id (if bool_decide (node_id X = i) then f X else X)
                     = node_id X).
  { intros X. case_bool_decide; [apply Hf|done]. }
  split.
  - intros (X' & (X & HX & ->)%elem_of_nodes_modify & <- & Hy).
    exists X. by rewrite Hid.
  - intros (X & HX & <- & Hy).
    exists (if bool_decide (node_id X = i) then f X else X). split_and!.
    + apply elem_of_nodes_modify. by exists X.
    + apply Hid.
    + done.
Qed.

Lemma nodes_find_Some l i (n : Node) :
  nodes_find l i = Some n → n ∈ l ∧ node_id n = i.
Proof.
  intros [Hin Hid]%find_some. apply bool_decide_eq_true in Hid.
  by apply list_elem_of_In in Hin.
Qed.

Lemma nodes_find_is_Some l i : i ∈ ids l → is_Some (nodes_find l i).
Proof.
  intros Hi. destruct (nodes_find l i) eqn:Hf; [by eexists|].
  destruct (decide (i ∈ ids l)) as [_|Hn]; [|done].
  exfalso. apply list_elem_of_fmap in Hi as (n & -> & Hn).
  apply list_elem_of_In in Hn. eapply find_none in Hf; [|done].
  by apply bool_decide_eq_false in Hf.
Qed.

(** With each key once, the node under a key is the one [get] returns. *)
Lemma nodes_find_unique l (n : Node) :
  NoDup (ids l) → n ∈ l → nodes_find l (node_id n) = Some n.
Proof.
  unfold ids, nodes_find. induction l as [|m l IH]; intros Hnd Hn; [by apply elem_of_nil in Hn|].
  cbn in *. apply NoDup_cons in Hnd as [Hm Hnd]. case_bool_decide as Heq.
  - apply elem_of_cons in Hn as [->|Hn]; [done|].
    destruct Hm. rewrite Heq. apply list_elem_of_fmap. by exists n.
  - apply elem_of_cons in Hn as [->|Hn]; [done|]. by apply IH.
Qed.

Lemma adj_connections_of (s : MeshNetwork.state) x y :
  NoDup (ids (MeshNetwork.nodes s)) →
  adj (MeshNetwork.nodes s) x y ↔ y ∈ MeshNetwork.connections_of x s.
Proof.
  intros Hnd. unfold adj, MeshNetwork.connections_of, MeshNetwork.getNode. split.
  - intros (X & HX & <- & Hy). by rewrite nodes_find_unique.
  - destruct (nodes_find _ x) as [X|] eqn:Hf; cbn; [|by intros ?%elem_of_nil].
    apply nodes_find_Some in Hf as [HX Hid]. intros Hy. by exists X.
Qed.

Lemma adj_push (c : string) i l x y :
  adj (nodes_modify (push_connection c) i l) x y
  ↔ adj l x y ∨ (x = i ∧ i ∈ ids l ∧ y = c).
Proof.
  rewrite adj_modify by done. unfold adj. split.
  - intros (X & HX & Hid & Hy). case_bool_decide as Hi.
    + cbn in Hy. apply elem_of_app in Hy as [Hy|Hy%list_elem_of_singleton].
      * left. by exists X.
      * right. split_and!; [done| |done]. subst. apply list_elem_of_fmap. by exists X.
    + left. by exists X.
  - intros [(X & HX & Hid & Hy)|(-> & Hi & ->)].
    + exists X. split_and!; [done..|]. case_bool_decide; [|done].
      cbn. apply elem_of_app. by left.
    + apply list_elem_of_fmap in Hi as (X & -> & HX). exists X.
      split_and!; [done..|]. rewrite bool_decide_eq_true_2 by done.
      cbn. apply elem_of_app. right. by apply list_elem_of_singleton.
Qed.

Lemma adj_scrub (nodeId : string) i l x y :
  adj (nodes_modify (scrub nodeId) i l) x y
  ↔ adj l x y ∧ (x = i → y ≠ nodeId).
Proof.
  rewrite adj_modify by done. unfold adj. split.
  - intros (X & HX & Hid & Hy). case_bool_decide as Hi.
    + cbn in Hy. apply list_elem_of_filter in Hy as [Hne Hy].
      split; [by exists X|done].
    + split; [by exists X|done].
  - intros [(X & HX & Hid & Hy) Hne]. exists X. split_and!; [done..|].
    case_bool_decide; [|done]. cbn. apply list_elem_of_filter. auto.
Qed.

Lemma adj_ids l x y : adj l x y → x ∈ ids l.
Proof. intros (X & HX & <- & _). apply list_elem_of_fmap. by exists X. Qed.

End node_map.

(** *** [establishConnection] and [discoverConnections] *)

Section establish.
Import MeshNetwork.

Lemma establish_ids (nodeA nodeB : Node) (s : state) :
  ids (nodes (snd (establishConnection nodeA nodeB s))) = ids (nodes s).
Proof. cbn. by rewrite !ids_nodes_modify. Qed.

Lemma establish_adj_gen (nodeA nodeB : Node) (s : state) x y :
  adj (nodes (snd (establishConnection nodeA nodeB s))) x y
  ↔ adj (nodes s) x y
    ∨ (x = node_id nodeA ∧ node_id nodeA ∈ ids (nodes s) ∧ y = node_id nodeB)
    ∨ (x = node_id nodeB ∧ node_id nodeB ∈ ids (nodes s) ∧ y = node_id nodeA).
Proof. cbn. rewrite !adj_push, ids_nodes_modify by done. tauto. Qed.

Lemma establish_adj (nodeA nodeB : Node) (s : state) x y :
  node_id nodeA ∈ ids (nodes s) → node_id nodeB ∈ ids (nodes s) →
  adj (nodes (snd (establishConnection nodeA nodeB s))) x y
  ↔ adj (nodes s) x y
    ∨ (x = node_id nodeA ∧ y = node_id nodeB)
    ∨ (x = node_id nodeB ∧ y = node_id nodeA).
Proof. intros Ha Hb. rewrite establish_adj_gen. tauto. Qed.

Lemma establish_inv (nodeA nodeB : Node) (s : state) :
  mesh_inv (nodes s) → mesh_inv (nodes (snd (establishConnection nodeA nodeB s))).
Proof.
  intros [Hnd Hsym]. split; [by rewrite establish_ids|].
  intros x y. rewrite !establish_adj_gen, establish_ids.
  intros [?|[(-> & ? & ->)|(-> & ? & ->)]] Hy; auto.
Qed.

Lemma establish_trace (used : list string) (nodeA nodeB : Node) (s : state) :
  node_id nodeA ∈ used → node_id nodeB ∈ used →
  trace_inv used (nodes s) →
  trace_inv used (nodes (snd (establishConnection nodeA nodeB s))).
Proof.
  intros Ha Hb (Hinv & Hids & Hrefs). split_and!.
  - by apply establish_inv.
  - by rewrite establish_ids.
  - intros x y [?|[(_ & _ & ->)|(_ & _ & ->)]]%establish_adj_gen; eauto.
Qed.

Lemma discover_step_ids (node : Node) (s : state) (nearbyNode : Node) :
  ids (nodes (discover_step node s nearbyNode)) = ids (nodes s).
Proof. unfold discover_step. case_bool_decide; [done|apply establish_ids]. Qed.

Lemma discover_fold_ids (node : Node) (targets : list Node) (s : state) :
  ids (nodes (fold_left (discover_step node) targets s)) = ids (nodes s).
Proof.
  revert s. induction targets as [|t targets IH]; intros s; cbn [fold_left]; [done|].
  by rewrite IH, discover_step_ids.
Qed.

Lemma discover_fold_trace (used : list string) (node : Node) (targets : list Node)
    (s : state) :
  node_id node ∈ used →
  Forall (λ n, node_id n ∈ used) targets →
  trace_inv used (nodes s) →
  trace_inv used (nodes (fold_left (discover_step node) targets s)).
Proof.
  revert s. induction targets as [|t targets IH]; intros s Hn Ht Hinv; [done|].
  cbn [fold_left]. apply Forall_cons in Ht as [Ht Hts].
  apply IH; [done..|]. unfold discover_step. case_bool_decide; [done|].
  by apply establish_trace.
Qed.

(** The sort rearranges. *)
Lemma sort_insert_perm {A : Type} (cmp : A → A → JS.number) (x : A) (l : list A) :
  JS.sort_insert cmp x l ≡ₚ x :: l.
Proof.
  induction l as [|y l IH]; cbn; [done|]. destruct (PrimFloat.ltb _ _); [|done].
  rewrite IH. apply Permutation_swap.
Qed.

Lemma Array_sort_perm {A : Type} (cmp : A → A → JS.number) (l : list A) :
  JS.Array_sort cmp l ≡ₚ l.
Proof.
  unfold JS.Array_sort. induction l as [|x l IH]; cbn; [done|].
  by rewrite sort_insert_perm, IH.
Qed.

Lemma findNearbyNodes_elem (node : Node) (range : JS.number) (s : state) (n : Node) :
  n ∈ findNearbyNodes node range s → n ∈ nodes s ∧ node_id n ≠ node_id node.
Proof.
  unfold findNearbyNodes. rewrite list_elem_of_fmap. intros ([d m] & -> & Hm).
  rewrite Array_sort_perm in Hm. apply list_elem_of_filter in Hm as [_ Hm].
  apply list_elem_of_fmap in Hm as (m' & [= _ ->] & Hm').
  apply list_elem_of_filter in Hm' as [? ?]. done.
Qed.

Lemma discoverConnections_trace (used : list string) (node : Node) (s : state) :
  node_id node ∈ used →
  trace_inv used (nodes s) → trace_inv used (nodes (discoverConnections node s)).
Proof.
  intros Hn Hinv. apply discover_fold_trace; [done| |done].
  apply Forall_forall. intros n Hin%subseteq_take%findNearbyNodes_elem.
  destruct Hinv as (_ & Hids & _). apply Hids.
  apply list_elem_of_fmap. exists n. by destruct Hin.
Qed.

End establish.


(** *** [createNode] and [removeNode] *)

Section create_remove.
Import MeshNetwork.

Lemma nodes_set_fresh (node : Node) (l : list Node) :
  node_id node ∉ ids l → nodes_set node l = l ++ [node].
Proof. intros Hi. unfold nodes_set. by rewrite bool_decide_eq_false_2. Qed.

Lemma createNode_trace (used : list string) (newId ip : string) (now : Z)
    (name : string) (x y : JS.number) (s : state) :
  newId ∉ used →
  trace_inv used (nodes s) →
  trace_inv (newId :: used) (nodes (createNode newId ip now name x y s)).
Proof.
  intros Hfresh ([Hnd Hsym] & Hids & Hrefs). unfold createNode.
  assert (Hnew : newId ∉ ids (nodes s)) by (intros ?; by apply Hfresh, Hids).
  apply discoverConnections_trace; [left|]. cbn [nodes].
  rewrite nodes_set_fresh by done.
  assert (Hadj : ∀ a b, adj (nodes s ++ [mkNode newId name x y online 100 100 [] now 0 ip]) a b
                        ↔ adj (nodes s) a b).
  { intros a b. unfold adj. split.
    - intros (X & [HX| ->%list_elem_of_singleton]%elem_of_app & Hid & Hb).
      + by exists X.
      + by apply elem_of_nil in Hb.
    - intros (X & HX & Hid & Hb). exists X. split; [|done].
      apply elem_of_app. by left. }
  unfold trace_inv, mesh_inv, ids. rewrite fmap_app. cbn [fmap list_fmap node_id].
  split_and!.
  - apply NoDup_app. split_and!; [done| |apply NoDup_singleton].
    intros i Hi ->%list_elem_of_singleton. done.
  - intros a b Hab%Hadj [Hb| ->%list_elem_of_singleton]%elem_of_app.
    + apply Hadj. by apply Hsym.
    + destruct Hfresh. by eapply Hrefs.
  - intros i [Hi| ->%list_elem_of_singleton]%elem_of_app; [right; by apply Hids|left].
  - intros a b Hab%Hadj. right. by eapply Hrefs.
Qed.

Lemma scrub_fold_ids (nodeId : string) (cs : list string) (l : list Node) :
  ids (fold_left (λ l connId, nodes_modify (scrub nodeId) connId l) cs l) = ids l.
Proof.
  revert l. induction cs as [|c cs IH]; intros l; cbn [fold_left]; [done|].
  by rewrite IH, ids_nodes_modify.
Qed.

Lemma scrub_fold_adj (nodeId : string) (cs : list string) (l : list Node) x y :
  adj (fold_left (λ l connId, nodes_modify (scrub nodeId) connId l) cs l) x y
  ↔ adj l x y ∧ (x ∈ cs → y ≠ nodeId).
Proof.
  revert l. induction cs as [|c cs IH]; intros l; cbn [fold_left].
  { split; [|tauto]. intros H. split; [done|]. by intros ?%elem_of_nil. }
  rewrite IH, adj_scrub, elem_of_cons. naive_solver.
Qed.

Lemma nodes_delete_ids (i : string) (l : list Node) :
  ids (nodes_delete i l) = filter (λ j, j ≠ i) (ids l).
Proof.
  unfold ids, nodes_delete. induction l as [|n l IH]; [done|].
  rewrite fmap_cons, !filter_cons.
  destruct (decide (node_id n ≠ i)); by rewrite ?fmap_cons, IH.
Qed.

Lemma nodes_delete_adj (i : string) (l : list Node) x y :
  adj (nodes_delete i l) x y ↔ x ≠ i ∧ adj l x y.
Proof.
  unfold adj, nodes_delete. split.
  - intros (X & [Hne HX]%list_elem_of_filter & <- & Hy). split; [done|]. by exists X.
  - intros (Hne & X & HX & <- & Hy). exists X. split; [|done].
    by apply list_elem_of_filter.
Qed.

Lemma removeNode_trace (used : list string) (nodeId : string) (s : state) :
  trace_inv used (nodes s) → trace_inv used (nodes (removeNode nodeId s)).
Proof.
  intros ([Hnd Hsym] & Hids & Hrefs). unfold removeNode.
  destruct (getNode nodeId s) as [node|] eqn:Hget; [|done]. cbn [nodes].
  apply nodes_find_Some in Hget as [Hnode Hid].
  unfold trace_inv, mesh_inv. rewrite nodes_delete_ids, scrub_fold_ids. split_and!.
  - by apply NoDup_filter.
  - intros x y. rewrite !nodes_delete_adj, !scrub_fold_adj.
    intros (Hx & Hxy & Hscrub) [Hy Hyin]%list_elem_of_filter. split_and!; auto.
  - intros i [_ Hi]%list_elem_of_filter. by apply Hids.
  - intros x y [_ [Hxy _]%scrub_fold_adj]%nodes_delete_adj. by eapply Hrefs.
Qed.

End create_remove.

(** *** Sequences of requests *)

Lemma serve_trace (used : list string) (s : MeshNetwork.state) (r : request) :
  in_order used r = true →
  trace_inv used (MeshNetwork.nodes s) →
  trace_inv (drawn used r) (MeshNetwork.nodes (serve s r)).
Proof.
  destruct r as [newId ip now name x y|nodeA nodeB|nodeId];
    cbn [serve in_order drawn]; intros Hok Hinv.
  - apply createNode_trace; [|done]. apply negb_true_iff in Hok.
    by apply bool_decide_eq_false in Hok.
  - apply andb_true_iff in Hok as [Ha%bool_decide_eq_true Hb%bool_decide_eq_true].
    by apply establish_trace.
  - by apply removeNode_trace.
Qed.

Lemma serve_all_trace (rs : list request) (used : list string) (s : MeshNetwork.state) :
  all_in_order used rs = true →
  trace_inv used (MeshNetwork.nodes s) →
  ∃ used', trace_inv used' (MeshNetwork.nodes (serve_all s rs)).
Proof.
  revert used s. induction rs as [|r rs IH]; intros used s Hok Hinv; [by exists used|].
  cbn in Hok. apply andb_true_iff in Hok as [Hr Hrs].
  cbn. eapply IH; [done|]. by apply serve_trace.
Qed.

Lemma mesh_inv_symmetric (s : MeshNetwork.state) :
  mesh_inv (MeshNetwork.nodes s) → symmetric s.
Proof.
  intros [Hnd Hsym].

  assert (Hhalf : ∀ A B, A ∈ MeshNetwork.nodes s → B ∈ MeshNetwork.nodes s →
                         node_id B ∈ node_connections A → node_id A ∈ node_connections B).
  { intros A B HA HB Hin.
    destruct (Hsym (node_id A) (node_id B)) as (X & HX & HXid & HAX).
    { by exists A. }
    { apply list_elem_of_fmap. by exists B. }
    assert (X = B) as ->; [|done].
    apply (nodes_find_unique _ _ Hnd) in HX, HB. congruence. }
  intros A B HA HB. split; by apply Hhalf.
Qed.

Lemma trace_inv_empty : trace_inv [] (MeshNetwork.nodes MeshNetwork.empty).
Proof.
  assert (Hadj : ∀ x y, ¬ adj [] x y).
  { intros x y (X & HX & _). by apply elem_of_nil in HX. }
  split_and!.
  - split; [apply NoDup_nil_2|]. intros x y H. by destruct (Hadj x y).
  - by intros i ?%elem_of_nil.
  - intros x y H. by destruct (Hadj x y).
Qed.

(** C5.  After any sequence of [createNode], [establishConnection] and
    [removeNode] from the empty topology, [B]'s id is in [A.connections]
    exactly when [A]'s id is in [B.connections], for all nodes [A] and [B] of
    the topology.  No id is drawn twice, and the objects handed to
    [establishConnection] are nodes that [createNode] has returned. *)
Theorem adjacency_symmetric (rs : list request) :
  all_in_order [] rs = true →
  symmetric (serve_all MeshNetwork.empty rs).
Proof.
  intros Hok.
  destruct (serve_all_trace rs [] MeshNetwork.empty Hok trace_inv_empty)
    as (used & Hinv & _).
  by apply mesh_inv_symmetric.
Qed.

Lemma adjacency_symmetric_witness :
  all_in_order [] requests0 = true
  ∧ symmetric (serve_all MeshNetwork.empty requests0).
Proof.
  assert (H : all_in_order [] requests0 = true) by (vm_compute; reflexivity).
  split; [exact H|]. apply (adjacency_symmetric requests0 H).
Defined.

(** *** Extensions of the map *)

#[global] Instance node_ext_refl : Reflexive node_ext.
Proof. intros n. by unfold node_ext. Qed.

#[global] Instance node_ext_trans : Transitive node_ext.
Proof.
  intros a b c (?&?&?&?&?) (?&?&?&?&?). unfold node_ext.
  split_and!; try congruence. by etrans.
Qed.

#[global] Instance ext_refl : Reflexive ext.
Proof. change (Reflexive (Forall2 node_ext)). apply _. Qed.

#[global] Instance ext_trans : Transitive ext.
Proof. change (Transitive (Forall2 node_ext)). apply _. Qed.

Section extension.
Implicit Types (l : list Node) (n : Node) (i x y : string).

Lemma ext_modify (f : Node → Node) i l :
  (∀ n, node_ext n (f n)) → ext l (nodes_modify f i l).
Proof.
  intros Hf. unfold ext, nodes_modify. induction l as [|n l IH]; [constructor|].
  cbn. constructor; [|done]. by case_bool_decide.
Qed.

Lemma node_ext_push (c : string) n : node_ext n (push_connection c n).
Proof. unfold node_ext; cbn. split_and!; try done. by exists [c]. Qed.

Lemma ext_ids l l' : ext l l' → ids l = ids l'.
Proof.
  unfold ext, ids. induction 1 as [|n n' l l' Hn _ IH]; [done|].
  cbn. destruct Hn as [-> _]. by rewrite IH.
Qed.

Lemma ext_adj l l' x y : ext l l' → adj l x y → adj l' x y.
Proof.
  intros Hext (X & HX & Hid & Hy).
  apply list_elem_of_lookup in HX as [k Hk].
  destruct (Forall2_lookup_l _ _ _ _ _ Hext Hk) as (X' & Hk' & HXX').
  exists X'. split_and!.
  - by eapply list_elem_of_lookup_2.
  - destruct HXX' as [<- _]. done.
  - destruct HXX' as (_&_&_&_&Hpre). by eapply elem_of_prefix.
Qed.

Lemma ext_find l l' i n :
  ext l l' → nodes_find l i = Some n →
  ∃ n', nodes_find l' i = Some n' ∧ node_ext n n'.
Proof.
  unfold ext, nodes_find. induction 1 as [|m m' l l' Hm _ IH]; [done|].
  cbn. assert (node_id m = node_id m') as <- by by destruct Hm.
  case_bool_decide.
  - intros [= <-]. by exists m'.
  - apply IH.
Qed.

Lemma ext_find_rev l l' i n' :
  ext l l' → nodes_find l' i = Some n' →
  ∃ n, nodes_find l i = Some n ∧ node_ext n n'.
Proof.
  unfold ext, nodes_find. induction 1 as [|m m' l l' Hm _ IH]; [done|].
  cbn. assert (node_id m = node_id m') as <- by by destruct Hm.
  case_bool_decide.
  - intros [= <-]. by exists m.
  - apply IH.
Qed.

Lemma ext_healthy l l' :
  ext l l' →
  (∀ x y, adj l' x y → y ∈ ids l') →
  healthy l → healthy l'.
Proof.
  intros Hext Hcl (Hnd & Hon & _). unfold healthy. rewrite <- (ext_ids _ _ Hext).
  split_and!; [done| |].
  - clear Hcl Hnd. induction Hext as [|n n' l l' Hn _ IH]; [done|].
    apply Forall_cons in Hon as [Hn1 Hon]. constructor; [|by apply IH].
    destruct Hn as (_&_&_&<-&_). done.
  - rewrite (ext_ids _ _ Hext). apply Forall_forall. intros n Hn.
    apply Forall_forall. intros c Hc. apply (Hcl (node_id n) c). by exists n.
Qed.

Lemma healthy_closed l x y : healthy l → adj l x y → y ∈ ids l.
Proof.
  intros (_ & _ & Hcl) (X & HX & _ & Hy).
  rewrite Forall_forall in Hcl. specialize (Hcl X HX).
  rewrite Forall_forall in Hcl. by apply Hcl.
Qed.

End extension.

(** *** Discovery extends the map *)

Section discovery.
Import MeshNetwork.
Implicit Types (s : state) (node t : Node).

Lemma establish_ext (nodeA nodeB : Node) s :
  ext (nodes s) (nodes (snd (establishConnection nodeA nodeB s))).
Proof.
  cbn. etrans; apply ext_modify; intros n; apply node_ext_push.
Qed.

Lemma discover_step_ext node s t : ext (nodes s) (nodes (discover_step node s t)).
Proof. unfold discover_step. case_bool_decide; [done|apply establish_ext]. Qed.

Lemma discover_fold_ext node (targets : list Node) s :
  ext (nodes s) (nodes (fold_left (discover_step node) targets s)).
Proof.
  revert s. induction targets as [|t targets IH]; intros s; cbn [fold_left]; [done|].
  etrans; [apply (discover_step_ext node s t)|apply IH].
Qed.

Lemma discover_step_healthy node s t :
  node_id node ∈ ids (nodes s) → node_id t ∈ ids (nodes s) →
  healthy (nodes s) → healthy (nodes (discover_step node s t)).
Proof.
  intros Hn Ht Hh. apply (ext_healthy (nodes s)); [apply discover_step_ext| |done].
  unfold discover_step. case_bool_decide; [intros x y; by apply healthy_closed|].
  rewrite establish_ids. intros x y [Hxy|[[-> ->]|[-> ->]]]%establish_adj; try done.
  by eapply healthy_closed.
Qed.

Lemma discover_fold_healthy node (targets : list Node) s :
  node_id node ∈ ids (nodes s) →
  Forall (λ t, node_id t ∈ ids (nodes s)) targets →
  healthy (nodes s) → healthy (nodes (fold_left (discover_step node) targets s)).
Proof.
  revert s. induction targets as [|t targets IH]; intros s Hn Ht Hh; [done|].
  cbn [fold_left]. apply Forall_cons in Ht as [Ht Hts].
  apply IH; rewrite ?discover_step_ids; [done..|]. by apply discover_step_healthy.
Qed.

Lemma nearby_in_map node (range : JS.number) s :
  Forall (λ t, node_id t ∈ ids (nodes s))
         (take NODE_CONFIG.MAX_CONNECTIONS (findNearbyNodes node range s)).
Proof.
  apply Forall_forall. intros n Hin%subseteq_take%findNearbyNodes_elem.
  apply list_elem_of_fmap. exists n. by destruct Hin.
Qed.

Lemma discoverConnections_healthy node s :
  node_id node ∈ ids (nodes s) →
  healthy (nodes s) → healthy (nodes (discoverConnections node s)).
Proof. intros Hn Hh. apply discover_fold_healthy; [done|apply nearby_in_map|done]. Qed.

(** After the rounds of discovery the node lists every target. *)
Lemma discover_fold_includes node (targets : list Node) s t :
  NoDup (ids (nodes s)) →
  node_id node ∈ ids (nodes s) →
  Forall (λ t, node_id t ∈ ids (nodes s)) targets →
  t ∈ targets →
  adj (nodes (fold_left (discover_step node) targets s)) (node_id node) (node_id t).
Proof.
  revert s. induction targets as [|t0 targets IH]; intros s Hnd Hn Hts Ht.
  { by apply elem_of_nil in Ht. }
  cbn [fold_left]. apply Forall_cons in Hts as [Ht0 Hts].
  apply elem_of_cons in Ht as [->|Ht].
  - eapply ext_adj; [apply discover_fold_ext|].
    unfold discover_step. case_bool_decide as Hin.
    + by apply adj_connections_of.
    + apply establish_adj; auto.
  - apply IH; rewrite ?discover_step_ids; done.
Qed.

(** The nodes in range, nearest first, are the same after pushes to
    [connections]. *)
Lemma sort_insert_ext (x x' : JS.number * Node) (l l' : list (JS.number * Node)) :
  fst x = fst x' → node_ext (snd x) (snd x') →
  Forall2 (λ p p', fst p = fst p' ∧ node_ext (snd p) (snd p')) l l' →
  Forall2 (λ p p', fst p = fst p' ∧ node_ext (snd p) (snd p'))
    (JS.sort_insert (λ a b, (fst a - fst b)%float) x l)
    (JS.sort_insert (λ a b, (fst a - fst b)%float) x' l').
Proof.
  intros Hx1 Hx2. induction 1 as [|y y' l l' [Hy1 Hy2] Hl IH]; cbn.
  { constructor; [done|constructor]. }
  rewrite <- Hx1, <- Hy1. destruct (PrimFloat.ltb _ _).
  - constructor; [done|apply IH].
  - constructor; [done|]. by constructor.
Qed.

Lemma findNearbyNodes_ext node node' (range : JS.number) s s' :
  node_ext node node' → ext (nodes s) (nodes s') →
  Forall2 node_ext (findNearbyNodes node range s) (findNearbyNodes node' range s').
Proof.
  intros (Hid & Hx & Hy & _) Hext. unfold findNearbyNodes.
  apply Forall2_fmap.
  set (PR := λ p p' : JS.number * Node, fst p = fst p' ∧ node_ext (snd p) (snd p')).
  apply (Forall2_impl PR); [|by intros ?? [_ ?]].
  assert (Hin : Forall2 PR
    (filter (λ p, PrimFloat.leb (fst p) range = true)
       ((λ n, (calculateDistance node n, n)) <$>
          filter (λ n, node_id n ≠ node_id node) (nodes s)))
    (filter (λ p, PrimFloat.leb (fst p) range = true)
       ((λ n, (calculateDistance node' n, n)) <$>
          filter (λ n, node_id n ≠ node_id node') (nodes s')))).
  { apply Forall2_filter; [by intros ?? [-> _]|].
    apply Forall2_fmap.
    eapply Forall2_impl.
    - apply (Forall2_filter _ (λ n, node_id n ≠ node_id node)
                              (λ n, node_id n ≠ node_id node')); [|exact Hext].
      intros n n' [Hnid _]. by rewrite Hnid, Hid.
    - intros n n' Hn. split; [|done]. cbn. unfold calculateDistance.
      destruct Hn as (_ & -> & -> & _). by rewrite Hx, Hy. }
  unfold JS.Array_sort. induction Hin as [|p p' l l' [Hp1 Hp2] _ IH]; cbn; [constructor|].
  by apply sort_insert_ext.
Qed.

Lemma nearby_ext node node' (range : JS.number) s s' t' :
  node_ext node node' → ext (nodes s) (nodes s') →
  t' ∈ take NODE_CONFIG.MAX_CONNECTIONS (findNearbyNodes node' range s') →
  ∃ t, t ∈ take NODE_CONFIG.MAX_CONNECTIONS (findNearbyNodes node range s)
       ∧ node_id t = node_id t'.
Proof.
  intros Hn Hext Ht'.
  pose proof (Forall2_take _ _ _ NODE_CONFIG.MAX_CONNECTIONS
                (findNearbyNodes_ext node node' range s s' Hn Hext)) as HF.
  apply list_elem_of_lookup in Ht' as [k Hk].
  destruct (Forall2_lookup_r _ _ _ _ _ HF Hk) as (t & Ht & Htt).
  exists t. split; [by eapply list_elem_of_lookup_2|]. by destruct Htt.
Qed.

End discovery.

(** *** The self-repair pass on a topology without a casualty *)

Section heal.
Import MeshNetwork.
Implicit Types (s : state) (node : Node) (i : string).

Lemma set_connections_same node : set_connections (node_connections node) node = node.
Proof. by destruct node. Qed.

Lemma filter_all {A : Type} (P : A → Prop) `{∀ x, Decision (P x)} (l : list A) :
  Forall P l → filter P l = l.
Proof.
  induction 1 as [|x l Hx _ IH]; [done|]. by rewrite filter_cons_True, IH.
Qed.

Lemma nodes_modify_same (f : Node → Node) i (l : list Node) :
  Forall (λ n, f n = n) l → nodes_modify f i l = l.
Proof.
  unfold nodes_modify. induction 1 as [|n l Hn _ IH]; [done|].
  cbn. rewrite IH. by case_bool_decide; rewrite ?Hn.
Qed.

Lemma healthy_alive s (c : string) :
  healthy (nodes s) → c ∈ ids (nodes s) → alive s c = true.
Proof.
  intros (_ & Hon & _) Hc. unfold alive, getNode.
  destruct (nodes_find_is_Some _ _ Hc) as [n Hn]. rewrite Hn.
  apply nodes_find_Some in Hn as [Hn _]. rewrite Forall_forall in Hon.
  unfold is_online. by rewrite bool_decide_eq_true_2 by by apply Hon.
Qed.

(** Nothing is dropped by the second part of the body. *)
Lemma prune_healthy s i :
  healthy (nodes s) →
  mkState (nodes_modify
             (λ n, set_connections
                     (filter (λ connId, alive s connId = true) (node_connections n)) n)
             i (nodes s))
          (connections s) (localNodeId s) = s.
Proof.
  intros Hh. rewrite nodes_modify_same; [by destruct s|].
  apply Forall_forall. intros n Hn. rewrite filter_all; [apply set_connections_same|].
  apply Forall_forall. intros c Hc. apply healthy_alive; [done|].
  apply (healthy_closed _ (node_id n)); [done|]. by exists n.
Qed.

Lemma reconnect_healthy s i : healthy (nodes s) → healthy (nodes (reconnect s i)).
Proof.
  intros Hh. unfold reconnect. destruct (getNode i s) as [node|] eqn:Hg; [|done].
  destruct (_ && _); [|done]. apply discoverConnections_healthy; [|done].
  apply nodes_find_Some in Hg as [Hn _]. apply list_elem_of_fmap. by exists node.
Qed.

Lemma reconnect_ext s i : ext (nodes s) (nodes (reconnect s i)).
Proof.
  unfold reconnect. destruct (getNode i s) as [node|]; [|done].
  destruct (_ && _); [|done]. apply discover_fold_ext.
Qed.

Lemma heal_step_healthy s i : healthy (nodes s) → heal_step s i = reconnect s i.
Proof.
  intros Hh. pose proof (reconnect_healthy s i Hh) as Hh'.
  unfold heal_step, reconnect in *. destruct (getNode i s) as [node|]; [|done].
  by apply prune_healthy.
Qed.

Lemma heal_fold_healthy (js : list string) s :
  healthy (nodes s) → fold_left heal_step js s = fold_left reconnect js s.
Proof.
  revert s. induction js as [|i js IH]; intros s Hh; [done|].
  cbn [fold_left]. rewrite heal_step_healthy by done.
  apply IH. by apply reconnect_healthy.
Qed.

Lemma satisfied_ext s s' i :
  ext (nodes s) (nodes s') → satisfied s i → satisfied s' i.
Proof.
  intros Hext Hsat node' Hg' Hlen t' Ht'.
  destruct (ext_find_rev _ _ _ _ Hext Hg') as (node & Hg & Hnn).
  destruct (nearby_ext node node' _ s s' t' Hnn Hext Ht') as (t & Ht & <-).
  eapply ext_adj; [done|]. apply (Hsat node Hg); [|done].
  destruct Hnn as (_&_&_&_&Hpre). apply prefix_length in Hpre. lia.
Qed.

Lemma reconnect_satisfied s i : healthy (nodes s) → satisfied (reconnect s i) i.
Proof.
  intros Hh nodeD HgD Hlen t' Ht'.
  pose proof (reconnect_ext s i) as Hext.
  destruct (ext_find_rev _ _ _ _ Hext HgD) as (node & Hg & Hnn).
  destruct (nearby_ext node nodeD _ s (reconnect s i) t' Hnn Hext Ht') as (t & Ht & <-).
  pose proof Hg as [Hin Hid]%nodes_find_Some.
  unfold reconnect in *. unfold getNode in Hext, Hlen, HgD |- *. rewrite Hg in *.
  destruct (_ && _) eqn:Hcond.
  - subst i. apply discover_fold_includes; [by destruct Hh| |apply nearby_in_map|done].
    apply list_elem_of_fmap. by exists node.
  - exfalso. apply andb_false_iff in Hcond as [Hc|Hc].
    + apply Nat.ltb_ge in Hc. assert (node = nodeD) as -> by congruence. lia.
    + destruct Hh as (_ & Hon & _). rewrite Forall_forall in Hon.
      unfold is_online in Hc. by rewrite bool_decide_eq_true_2 in Hc by by apply Hon.
Qed.

(** One pass leaves every node satisfied. *)
Lemma pass_satisfies (js : list string) s :
  healthy (nodes s) →
  ext (nodes s) (nodes (fold_left reconnect js s))
  ∧ healthy (nodes (fold_left reconnect js s))
  ∧ ∀ i, i ∈ js → satisfied (fold_left reconnect js s) i.
Proof.
  revert s. induction js as [|i js IH]; intros s Hh; cbn [fold_left].
  { split_and!; [done..|]. by intros i ?%elem_of_nil. }
  destruct (IH (reconnect s i)) as (Hext & Hh' & Hsat); [by apply reconnect_healthy|].
  split_and!; [|done|].
  - etrans; [apply reconnect_ext|done].
  - intros j [->|Hj]%elem_of_cons; [|by apply Hsat].
    eapply satisfied_ext; [done|]. by apply reconnect_satisfied.
Qed.

Lemma discover_fold_included node (targets : list Node) s :
  Forall (λ t, node_id t ∈ connections_of (node_id node) s) targets →
  fold_left (discover_step node) targets s = s.
Proof.
  induction 1 as [|t targets Ht _ IH]; [done|]. cbn [fold_left].
  unfold discover_step at 2. by rewrite bool_decide_eq_true_2.
Qed.

Lemma reconnect_satisfied_same s i :
  NoDup (ids (nodes s)) → satisfied s i → reconnect s i = s.
Proof.
  intros Hnd Hsat. unfold reconnect. destruct (getNode i s) as [node|] eqn:Hg; [|done].
  destruct (_ && _) eqn:Hcond; [|done]. apply andb_true_iff in Hcond as [Hlen _].
  apply Nat.ltb_lt in Hlen. apply discover_fold_included, Forall_forall.
  intros t Ht. apply nodes_find_Some in Hg as Hid. destruct Hid as [_ ->].
  apply adj_connections_of; [done|]. by apply (Hsat node).
Qed.

(** A pass over satisfied nodes changes nothing. *)
Lemma pass_satisfied_same (js : list string) s :
  NoDup (ids (nodes s)) →
  (∀ i, i ∈ js → satisfied s i) →
  fold_left reconnect js s = s.
Proof.
  intros Hnd. induction js as [|i js IH]; intros Hsat; [done|].
  cbn [fold_left]. rewrite reconnect_satisfied_same; [|done|apply Hsat; left].
  apply IH. intros j Hj. apply Hsat. by right.
Qed.

End heal.

(** C4, as the code has it.  On a topology in which every node is online and
    every neighbour listed is a node of the topology, [healNetwork] is
    idempotent: a second pass right after the first leaves the manager, and
    with it the adjacency of every node, as the first pass left it. *)
Theorem healNetwork_idempotent_all_online (s : MeshNetwork.state) :
  healthy (MeshNetwork.nodes s) →
  MeshNetwork.healNetwork (MeshNetwork.healNetwork s) = MeshNetwork.healNetwork s.
Proof.
  intros Hh. unfold MeshNetwork.healNetwork. fold (ids (MeshNetwork.nodes s)).
  rewrite (heal_fold_healthy _ s Hh).
  destruct (pass_satisfies (ids (MeshNetwork.nodes s)) s Hh) as (Hext & Hh' & Hsat).
  fold (ids (MeshNetwork.nodes (fold_left reconnect (ids (MeshNetwork.nodes s)) s))).
  rewrite <- (ext_ids _ _ Hext).
  rewrite (heal_fold_healthy _ _ Hh').
  apply pass_satisfied_same; [by destruct Hh'|done].
Qed.

Lemma healNetwork_idempotent_all_online_witness :
  healthy (MeshNetwork.nodes strangers)
  ∧ MeshNetwork.healNetwork (MeshNetwork.healNetwork strangers)
    = MeshNetwork.healNetwork strangers.
Proof.
  assert (H : healthy (MeshNetwork.nodes strangers)).
  { unfold healthy. split_and!; compute_done. }
  split; [exact H|]. apply (healNetwork_idempotent_all_online strangers H).
Defined.

(** C4 as stated fails.  On the row of four after the outage the first pass
    leaves [c] without a neighbour, and the second pass, finding it below the
    minimum, connects it to [d]. *)
Lemma healNetwork_second_pass_differs :
  MeshNetwork.connections_of "c" (MeshNetwork.healNetwork row_after_outage) = []
  ∧ MeshNetwork.connections_of "c"
      (MeshNetwork.healNetwork (MeshNetwork.healNetwork row_after_outage)) = ["d"]
  ∧ MeshNetwork.healNetwork (MeshNetwork.healNetwork row_after_outage)
    ≠ MeshNetwork.healNetwork row_after_outage.
Proof.
  assert (H1 : MeshNetwork.connections_of "c" (MeshNetwork.healNetwork row_after_outage)
               = []) by (vm_compute; reflexivity).
  assert (H2 : MeshNetwork.connections_of "c"
                 (MeshNetwork.healNetwork (MeshNetwork.healNetwork row_after_outage))
               = ["d"]) by (vm_compute; reflexivity).
  split_and!; [exact H1|exact H2|]. intros Heq. rewrite Heq, H1 in H2.
  clear Heq H1. discriminate H2.
Qed.

(** C3: the code at the failing input.  In the topology of two linked nodes
    the edge list and the adjacency agree.  After [simulateFailure] of the
    first, the record of the edge is still in the edge list, the second node
    no longer lists the first, and the first still lists the second; after
    [simulateRecovery] that is still so. *)
Theorem simulateFailure_edge_list_diverges :
  endpoints pair_topology = [("b", "a")]
  ∧ MeshNetwork.connections_of "a" pair_topology = ["b"]
  ∧ MeshNetwork.connections_of "b" pair_topology = ["a"]
  ∧ endpoints (MeshNetwork.simulateFailure 3 "a" pair_topology) = [("b", "a")]
  ∧ MeshNetwork.connections_of "a" (MeshNetwork.simulateFailure 3 "a" pair_topology)
    = ["b"]
  ∧ MeshNetwork.connections_of "b" (MeshNetwork.simulateFailure 3 "a" pair_topology)
    = []
  ∧ MeshNetwork.connections_of "b"
      (MeshNetwork.simulateRecovery "a"
         (MeshNetwork.simulateFailure 3 "a" pair_topology)) = [].
Proof. split_and!; vm_compute; reflexivity. Qed.

(** *** [updateNodeStatus] on a known id *)

Lemma nodes_find_modify (f : Node → Node) (i j : string) (l : list Node) :
  (∀ n, node_id (f n) = node_id n) →
  nodes_find (nodes_modify f i l) j
  = if bool_decide (j = i) then f <$> nodes_find l j else nodes_find l j.
Proof.
  intros Hf. unfold nodes_find, nodes_modify.
  assert (Hid : ∀ n, node_id (if bool_decide (node_id n = i) then f n else n)
                     = node_id n).
  { intros n. case_bool_decide; [apply Hf|done]. }
  induction l as [|n l IH]; [by case_bool_decide|].
  rewrite fmap_cons. cbn [find]. rewrite Hid, IH.
  destruct (decide (node_id n = j)) as [<-|Hn].
  - rewrite (bool_decide_eq_true_2 (node_id n = node_id n)) by done.
    by case_bool_decide.
  - rewrite (bool_decide_eq_false_2 (node_id n = j)) by done. done.
Qed.

(** The node gets the status and the time of the call, whatever the status;
    nothing else changes. *)
Lemma updateNodeStatus_known (now : Z) (i : string) (status : Status)
    (s : MeshNetwork.state) (node : Node) :
  MeshNetwork.getNode i s = Some node →
  MeshNetwork.getNode i (MeshNetwork.updateNodeStatus now i status s)
  = Some (set_lastSeen now (set_status status node))
  ∧ (∀ j, j ≠ i →
       MeshNetwork.getNode j (MeshNetwork.updateNodeStatus now i status s)
       = MeshNetwork.getNode j s)
  ∧ MeshNetwork.connections (MeshNetwork.updateNodeStatus now i status s)
    = MeshNetwork.connections s.
Proof.
  intros Hget. unfold MeshNetwork.updateNodeStatus. rewrite Hget.
  unfold MeshNetwork.getNode in *. cbn [MeshNetwork.nodes MeshNetwork.connections].
  split_and!; [|..|done].
  - rewrite nodes_find_modify by done. rewrite bool_decide_eq_true_2 by done.
    by rewrite Hget.
  - intros j Hj. rewrite nodes_find_modify by done.
    by rewrite bool_decide_eq_false_2.
Qed.

(** C9: the code at the failing input.  [updateNodeStatus] to [offline] sets
    the status and sets [lastSeen] to the time of the call. *)
Theorem updateNodeStatus_offline_refreshes_lastSeen :
  node_lastSeen <$> MeshNetwork.getNode "a" pair_topology = Some 1%Z
  ∧ node_status <$> MeshNetwork.getNode "a"
      (MeshNetwork.updateNodeStatus 99 "a" offline pair_topology) = Some offline
  ∧ node_lastSeen <$> MeshNetwork.getNode "a"
      (MeshNetwork.updateNodeStatus 99 "a" offline pair_topology) = Some 99%Z.
Proof. split_and!; vm_compute; reflexivity. Qed.

(** C1: the code at the failing input.  Two nodes online at 100/100 list
    each other, five apart; the edge costs 5, and [findShortestPath] from one
    to the other returns [null]. *)
Theorem dijkstra_misses_linked_neighbour :
  Forall (λ n, node_status n = online ∧ node_battery n = 100%float
               ∧ node_signalStrength n = 100%float) [nodeA0; nodeB0]
  ∧ "b" ∈ node_connections nodeA0
  ∧ DijkstraRouter.calculateEdgeCost nodeA0 nodeB0 = 5%float
  ∧ DijkstraRouter.findShortestPath [nodeA0; nodeB0] "a" "b" = Returned None.
Proof.
  split_and!.
  - by repeat constructor.
  - by left.
  - vm_compute. reflexivity.
  - vm_compute. reflexivity.
Qed.

(** ** More on the topology manager *)

(** *** [removeNode] *)

Section remove_effect.
Import MeshNetwork.

Lemma removeNode_adj (nodeId : string) (s : state) (x y : string) :
  mesh_inv (nodes s) → nodeId ∈ ids (nodes s) →
  adj (nodes (removeNode nodeId s)) x y
  ↔ adj (nodes s) x y ∧ x ≠ nodeId ∧ y ≠ nodeId.
Proof.
  intros [Hnd Hsym] Hin. unfold removeNode.
  destruct (nodes_find_is_Some _ _ Hin) as [node Hget].
  unfold getNode. rewrite Hget. cbn [nodes].
  apply nodes_find_Some in Hget as [Hnode Hid].
  rewrite nodes_delete_adj, scrub_fold_adj. split.
  - intros (Hx & Hxy & Hscrub). split_and!; [done..|].
    intros ->. apply Hscrub; [|done].
    destruct (Hsym x nodeId Hxy Hin) as (X & HX & HXid & Hx').
    assert (X = node) as ->; [|done].
    apply (nodes_find_unique _ _ Hnd) in HX, Hnode. congruence.
  - intros (Hxy & Hx & Hy). done.
Qed.

Lemma removeNode_getNode (nodeId : string) (s : state) :
  getNode nodeId (removeNode nodeId s) = None.
Proof.
  unfold removeNode. destruct (getNode nodeId s) as [node|] eqn:Hget; [|done].
  unfold getNode. cbn [nodes]. apply nodes_find_None.
  fold (ids (nodes_delete nodeId
    (fold_left (λ l connId, nodes_modify (scrub nodeId) connId l)
       (node_connections node) (nodes s)))).
  rewrite nodes_delete_ids. by intros [? _]%list_elem_of_filter.
Qed.

End remove_effect.

(** X1.  [removeNode] of a node of a topology with symmetric adjacency
    leaves no reference to it: the node is gone from the map, the other
    nodes list what they listed apart from its id, and the edge list holds
    the records that do not name it; adjacency stays symmetric. *)
Theorem removeNode_leaves_no_reference (nodeId : string) (s : MeshNetwork.state) :
  mesh_inv (MeshNetwork.nodes s) → nodeId ∈ ids (MeshNetwork.nodes s) →
  ids (MeshNetwork.nodes (MeshNetwork.removeNode nodeId s))
  = filter (λ j, j ≠ nodeId) (ids (MeshNetwork.nodes s))
  ∧ MeshNetwork.getNode nodeId (MeshNetwork.removeNode nodeId s) = None
  ∧ (∀ x y, adj (MeshNetwork.nodes (MeshNetwork.removeNode nodeId s)) x y
            ↔ adj (MeshNetwork.nodes s) x y ∧ x ≠ nodeId ∧ y ≠ nodeId)
  ∧ (∀ c, c ∈ MeshNetwork.connections (MeshNetwork.removeNode nodeId s)
          ↔ c ∈ MeshNetwork.connections s
            ∧ conn_nodeA c ≠ nodeId ∧ conn_nodeB c ≠ nodeId)
  ∧ mesh_inv (MeshNetwork.nodes (MeshNetwork.removeNode nodeId s)).
Proof.
  intros Hinv Hin.
  assert (Hids : ids (MeshNetwork.nodes (MeshNetwork.removeNode nodeId s))
                 = filter (λ j, j ≠ nodeId) (ids (MeshNetwork.nodes s))).
  { unfold MeshNetwork.removeNode.
    destruct (nodes_find_is_Some _ _ Hin) as [node Hget].
    unfold MeshNetwork.getNode. rewrite Hget. cbn [MeshNetwork.nodes].
    by rewrite nodes_delete_ids, scrub_fold_ids. }
  split_and!.
  - done.
  - apply removeNode_getNode.
  - intros x y. by apply removeNode_adj.
  - intros c. unfold MeshNetwork.removeNode.
    destruct (nodes_find_is_Some _ _ Hin) as [node Hget].
    unfold MeshNetwork.getNode. rewrite Hget. cbn [MeshNetwork.connections].
    rewrite list_elem_of_filter. tauto.
  - split.
    + rewrite Hids. apply NoDup_filter. by destruct Hinv.
    + intros x y. rewrite !removeNode_adj, Hids by done.
      intros (Hxy & Hx & Hy) [_ Hyin]%list_elem_of_filter.
      split_and!; [|done..]. destruct Hinv as [_ Hsym]. by apply Hsym.
Qed.

Lemma removeNode_leaves_no_reference_witness :
  mesh_inv (MeshNetwork.nodes pair_topology)
  ∧ "a" ∈ ids (MeshNetwork.nodes pair_topology)
  ∧ MeshNetwork.getNode "a" (MeshNetwork.removeNode "a" pair_topology) = None.
Proof.
  assert (H1 : mesh_inv (MeshNetwork.nodes pair_topology)).
  { split; [compute_done|]. intros x y (X & HX & <- & Hy) _. vm_compute in HX.
    apply elem_of_cons in HX as [->|HX]; [|apply elem_of_cons in HX as [->|HX]].
    - vm_compute in Hy. apply list_elem_of_singleton in Hy as ->.
      eexists. split; [right; left|]. split; [done|]. by left.
    - vm_compute in Hy. apply list_elem_of_singleton in Hy as ->.
      eexists. split; [left|]. split; [done|]. by left.
    - by apply elem_of_nil in HX. }
  assert (H2 : "a" ∈ ids (MeshNetwork.nodes pair_topology)) by compute_done.
  split_and!; [exact H1|exact H2|].
  apply (removeNode_leaves_no_reference "a" pair_topology H1 H2).
Defined.

(** *** [findNearbyNodes] *)

Section nearby.
Import MeshNetwork.

Lemma within_range_filter (node : Node) (range : JS.number) (l : list Node) :
  snd <$> filter (λ p : JS.number * Node, PrimFloat.leb (fst p) range = true)
                 ((λ n, (calculateDistance node n, n)) <$> l)
  = filter (λ n, PrimFloat.leb (calculateDistance node n) range = true) l.
Proof.
  induction l as [|n l IH]; [done|]. rewrite fmap_cons, !filter_cons. cbn [fst].
  destruct (decide (_ = true)); by rewrite ?fmap_cons, IH.
Qed.

Lemma findNearbyNodes_perm (node : Node) (range : JS.number) (s : state) :
  findNearbyNodes node range s ≡ₚ filter (in_range node range) (nodes s).
Proof.
  unfold findNearbyNodes. rewrite Array_sort_perm, within_range_filter.
  rewrite list_filter_filter. apply reflexive_eq, list_filter_iff.
  intros n. unfold in_range. tauto.
Qed.

Lemma findNearbyNodes_NoDup (node : Node) (range : JS.number) (s : state) :
  NoDup (ids (nodes s)) → NoDup (ids (findNearbyNodes node range s)).
Proof.
  intros Hnd. unfold ids. rewrite findNearbyNodes_perm.
  eapply sublist_NoDup; [done|]. apply fmap_sublist, sublist_filter.
Qed.

End nearby.

(** X3.  [findNearbyNodes] returns the nodes of the map other than [node]
    whose distance to it is at most [range], each as often as the map holds
    it, and no other node. *)
Theorem findNearbyNodes_in_range (node : Node) (range : JS.number)
    (s : MeshNetwork.state) :
  MeshNetwork.findNearbyNodes node range s
  ≡ₚ filter (in_range node range) (MeshNetwork.nodes s).
Proof. apply findNearbyNodes_perm. Qed.

(** *** [createNode] *)

Section create_effect.
Import MeshNetwork.

Lemma set_connections_twice (c1 c2 : list string) (n : Node) :
  set_connections c2 (set_connections c1 n) = set_connections c2 n.
Proof. done. Qed.

Lemma getNode_establish (nodeA nodeB : Node) (s : state) (j : string) :
  getNode j (snd (establishConnection nodeA nodeB s))
  = linked_to nodeA nodeB j <$> getNode j s.
Proof.
  unfold getNode. cbn [establishConnection snd nodes].
  rewrite !nodes_find_modify by done. unfold linked_to.
  destruct (nodes_find (nodes s) j) as [n|]; [|by repeat case_bool_decide].
  repeat case_bool_decide; cbn; unfold push_connection; cbn;
    by rewrite ?app_nil_r, <- ?app_assoc, ?set_connections_same.
Qed.

Lemma joined_step (node t : Node) (ts : list Node) (j : string) (n : Node) :
  node_id node ≠ node_id t → node_id t ∉ ids ts →
  joined (node_id node) ts j (linked_to node t j n)
  = joined (node_id node) (t :: ts) j n.
Proof.
  intros Hne Hnt. unfold joined, linked_to. rewrite set_connections_twice.
  f_equal. cbn [node_connections set_connections ids fmap list_fmap].
  fold (ids ts). rewrite <- !app_assoc. f_equal.
  destruct (decide (j = node_id node)) as [->|Hj].
  - rewrite !(bool_decide_eq_true_2 (node_id node = node_id node)) by done.
    by rewrite bool_decide_eq_false_2 by done.
  - rewrite !(bool_decide_eq_false_2 (j = node_id node)) by done.
    destruct (decide (j = node_id t)) as [->|Hjt].
    + rewrite bool_decide_eq_true_2 by done.
      rewrite (bool_decide_eq_false_2 (node_id t ∈ ids ts)) by done.
      by rewrite bool_decide_eq_true_2 by left.
    + rewrite bool_decide_eq_false_2 by done. cbn.
      case_bool_decide as H1.
      * by rewrite bool_decide_eq_true_2 by by right.
      * rewrite bool_decide_eq_false_2; [done|]. by intros [?|?]%elem_of_cons.
Qed.

(** Discovery among nodes that the node does not list yet. *)
Lemma discover_fold_fresh (node : Node) (ts : list Node) (s : state) :
  NoDup (ids ts) → node_id node ∉ ids ts →
  (∀ t, t ∈ ts → node_id t ∉ connections_of (node_id node) s) →
  (∀ j, getNode j (fold_left (discover_step node) ts s)
        = joined (node_id node) ts j <$> getNode j s)
  ∧ connections (fold_left (discover_step node) ts s)
    = connections s ++ ((λ t, fst (establishConnection node t s)) <$> ts).
Proof.
  revert s. induction ts as [|t ts IH]; intros s Hnd Hself Hnew.
  { split; [|by rewrite app_nil_r]. intros j. cbn [fold_left].
    destruct (getNode j s) as [n|]; [|done]. cbn. unfold joined. cbn.
    case_bool_decide; by rewrite app_nil_r, set_connections_same. }
  cbn [ids fmap list_fmap] in Hnd, Hself. fold (ids ts) in Hnd, Hself.
  apply NoDup_cons in Hnd as [Ht Hnd]. apply not_elem_of_cons in Hself as [Hne Hself].
  cbn [fold_left]. unfold discover_step at 2 4.
  rewrite bool_decide_eq_false_2 by (apply Hnew; left).
  destruct (IH (snd (establishConnection node t s))) as [IHg IHc]; [done..| |].
  { intros t' Ht'. unfold connections_of. rewrite getNode_establish.
    assert (node_id t' ∉ connections_of (node_id node) s) as Hn by (apply Hnew; by right).
    unfold connections_of in Hn. destruct (getNode (node_id node) s) as [n|]; [|done].
    cbn in *. rewrite bool_decide_eq_true_2 by done.
    rewrite (bool_decide_eq_false_2 (node_id node = node_id t)) by done.
    rewrite app_nil_r. intros [?|Heq%list_elem_of_singleton]%elem_of_app; [done|].
    apply Ht. rewrite <- Heq. apply list_elem_of_fmap. by exists t'. }
  split.
  - intros j. rewrite IHg, getNode_establish.
    destruct (getNode j s) as [n|]; [|done]. cbn. f_equal. by apply joined_step.
  - rewrite IHc. cbn. by rewrite <- app_assoc.
Qed.

Lemma nodes_find_app (l l' : list Node) (j : string) :
  nodes_find (l ++ l') j
  = match nodes_find l j with Some n => Some n | None => nodes_find l' j end.
Proof.
  unfold nodes_find. induction l as [|n l IH]; [done|]. cbn.
  by case_bool_decide.
Qed.

Lemma findNearbyNodes_newcomer (node : Node) (range : JS.number)
    (l : list Node) (cs : list Connection) (loc : option string) :
  findNearbyNodes node range (mkState (l ++ [node]) cs loc)
  = findNearbyNodes node range (mkState l cs loc).
Proof.
  unfold findNearbyNodes. cbn [nodes]. rewrite filter_app.
  rewrite (filter_cons_False _ node []) by (intros H; by apply H).
  by rewrite filter_nil, app_nil_r.
Qed.

Lemma createNode_effect (newId ip : string) (now : Z) (name : string)
    (x y : JS.number) (s : state) :
  NoDup (ids (nodes s)) → newId ∉ ids (nodes s) →
  (∀ j, getNode j (createNode newId ip now name x y s)
        = joined newId (nearest (newborn newId ip now name x y) s) j
            <$> getNode j (mkState (nodes s ++ [newborn newId ip now name x y])
                                   (connections s) (localNodeId s)))
  ∧ connections (createNode newId ip now name x y s)
    = connections s
      ++ ((λ t, fst (establishConnection (newborn newId ip now name x y) t s))
            <$> nearest (newborn newId ip now name x y) s).
Proof.
  intros Hnd Hfresh. unfold createNode, discoverConnections. cbn [nodes connections localNodeId].
  rewrite nodes_set_fresh by done. fold (newborn newId ip now name x y).
  rewrite findNearbyNodes_newcomer.
  assert (findNearbyNodes (newborn newId ip now name x y) NODE_CONFIG.MAX_RANGE
            (mkState (nodes s) (connections s) (localNodeId s))
          = findNearbyNodes (newborn newId ip now name x y) NODE_CONFIG.MAX_RANGE s)
    as -> by by destruct s.
  fold (nearest (newborn newId ip now name x y) s).
  destruct (discover_fold_fresh (newborn newId ip now name x y)
              (nearest (newborn newId ip now name x y) s)
              (mkState (nodes s ++ [newborn newId ip now name x y])
                       (connections s) (localNodeId s))) as [Hg Hc].
  - apply (sublist_NoDup _ (ids (findNearbyNodes (newborn newId ip now name x y)
                                    NODE_CONFIG.MAX_RANGE s))).
    + by apply findNearbyNodes_NoDup.
    + apply fmap_sublist, sublist_take.
  - intros (t & Hid & Ht%subseteq_take%findNearbyNodes_elem)%list_elem_of_fmap.
    destruct Ht as [_ Ht]. by apply Ht.
  - intros t _. unfold connections_of, getNode. cbn [nodes].
    rewrite nodes_find_app, nodes_find_None by done. cbn.
    rewrite bool_decide_eq_true_2 by done. cbn. apply not_elem_of_nil.
  - split; [exact Hg|]. rewrite Hc. reflexivity.
Qed.

End create_effect.

(** X2.  [createNode] under an id that is not in use: the map gets the new
    node at its end, online at 100/100 and at the time of the call, listing
    the first [MAX_CONNECTIONS] of the nodes that [findNearbyNodes] returns
    for it, in the order of that array; each of these nodes lists the new
    id last, and no other node changes; the edge list gets one record for
    each of them, in that order. *)
Theorem createNode_connects_nearest (newId ip : string) (now : Z) (name : string)
    (x y : JS.number) (s : MeshNetwork.state) :
  NoDup (ids (MeshNetwork.nodes s)) → newId ∉ ids (MeshNetwork.nodes s) →
  ids (MeshNetwork.nodes (MeshNetwork.createNode newId ip now name x y s))
  = ids (MeshNetwork.nodes s) ++ [newId]
  ∧ MeshNetwork.getNode newId (MeshNetwork.createNode newId ip now name x y s)
    = Some (set_connections (ids (nearest (newborn newId ip now name x y) s))
                            (newborn newId ip now name x y))
  ∧ (∀ j, j ≠ newId →
       MeshNetwork.getNode j (MeshNetwork.createNode newId ip now name x y s)
       = (λ n, if bool_decide (j ∈ ids (nearest (newborn newId ip now name x y) s))
               then push_connection newId n else n) <$> MeshNetwork.getNode j s)
  ∧ MeshNetwork.connections (MeshNetwork.createNode newId ip now name x y s)
    = MeshNetwork.connections s
      ++ ((λ t, fst (MeshNetwork.establishConnection
                       (newborn newId ip now name x y) t s))
            <$> nearest (newborn newId ip now name x y) s)
  ∧ length (nearest (newborn newId ip now name x y) s) ≤ NODE_CONFIG.MAX_CONNECTIONS
  ∧ NoDup (ids (nearest (newborn newId ip now name x y) s))
  ∧ (∀ t, t ∈ nearest (newborn newId ip now name x y) s →
       t ∈ MeshNetwork.nodes s
       ∧ in_range (newborn newId ip now name x y) NODE_CONFIG.MAX_RANGE t).
Proof.
  intros Hnd Hfresh.
  destruct (createNode_effect newId ip now name x y s Hnd Hfresh) as [Hg Hc].
  split_and!.
  - unfold MeshNetwork.createNode, MeshNetwork.discoverConnections.
    rewrite discover_fold_ids. cbn [MeshNetwork.nodes].
    rewrite nodes_set_fresh by done. unfold ids. by rewrite fmap_app.
  - rewrite Hg. unfold MeshNetwork.getNode. cbn [MeshNetwork.nodes].
    rewrite nodes_find_app, nodes_find_None by done. cbn.
    rewrite bool_decide_eq_true_2 by done. cbn. unfold joined.
    by rewrite bool_decide_eq_true_2 by done.
  - intros j Hj. rewrite Hg. unfold MeshNetwork.getNode. cbn [MeshNetwork.nodes].
    rewrite nodes_find_app.
    unfold joined. rewrite (bool_decide_eq_false_2 (j = newId)) by done.
    destruct (decide (j ∈ ids (nearest (newborn newId ip now name x y) s)))
      as [Hin|Hin].
    + rewrite !(bool_decide_eq_true_2 _ Hin).
      destruct (nodes_find (MeshNetwork.nodes s) j) as [n|]; [reflexivity|].
      cbn. by rewrite bool_decide_eq_false_2.
    + rewrite !(bool_decide_eq_false_2 _ Hin).
      destruct (nodes_find (MeshNetwork.nodes s) j) as [n|].
      * cbn. by rewrite app_nil_r, set_connections_same.
      * cbn. by rewrite bool_decide_eq_false_2.
  - exact Hc.
  - unfold nearest. rewrite length_take. lia.
  - apply (sublist_NoDup _ (ids (MeshNetwork.findNearbyNodes
             (newborn newId ip now name x y) NODE_CONFIG.MAX_RANGE s))).
    + by apply findNearbyNodes_NoDup.
    + apply fmap_sublist, sublist_take.
  - intros t Ht%subseteq_take. rewrite findNearbyNodes_perm in Ht.
    apply list_elem_of_filter in Ht. tauto.
Qed.

Lemma createNode_connects_nearest_witness :
  NoDup (ids (MeshNetwork.nodes pair_topology))
  ∧ ("c" ∉ ids (MeshNetwork.nodes pair_topology))
  ∧ ids (MeshNetwork.nodes
           (MeshNetwork.createNode "c" "192.168.0.3" 3 "Gamma" 6%float 8%float
              pair_topology))
    = ids (MeshNetwork.nodes pair_topology) ++ ["c"].
Proof.
  assert (H1 : NoDup (ids (MeshNetwork.nodes pair_topology))) by compute_done.
  assert (H2 : "c" ∉ ids (MeshNetwork.nodes pair_topology)) by compute_done.
  split_and!; [exact H1|exact H2|].
  apply (createNode_connects_nearest "c" "192.168.0.3" 3 "Gamma" 6%float 8%float
           pair_topology H1 H2).
Defined.

(** *** [discoverConnections] twice *)

(** X4.  [discoverConnections] for a node of the map is idempotent: a second
    run right after the first finds every node it would connect to listed
    already and changes nothing. *)
Theorem discoverConnections_idempotent (node : Node) (s : MeshNetwork.state) :
  NoDup (ids (MeshNetwork.nodes s)) → node_id node ∈ ids (MeshNetwork.nodes s) →
  MeshNetwork.discoverConnections node (MeshNetwork.discoverConnections node s)
  = MeshNetwork.discoverConnections node s.
Proof.
  intros Hnd Hin.
  pose proof (discover_fold_ext node
                (take NODE_CONFIG.MAX_CONNECTIONS
                   (MeshNetwork.findNearbyNodes node NODE_CONFIG.MAX_RANGE s)) s) as Hext.
  fold (MeshNetwork.discoverConnections node s) in Hext.
  unfold MeshNetwork.discoverConnections at 1.
  apply discover_fold_included, Forall_forall. intros t' Ht'.
  destruct (nearby_ext node node NODE_CONFIG.MAX_RANGE s
              (MeshNetwork.discoverConnections node s) t')
    as (t & Ht & <-); [done..|].
  apply adj_connections_of; [by rewrite <- (ext_ids _ _ Hext)|].
  apply discover_fold_includes; [done..|apply nearby_in_map|done].
Qed.

Lemma discoverConnections_idempotent_witness :
  let node := default nodeC0 (head (MeshNetwork.nodes strangers)) in
  MeshNetwork.discoverConnections node (MeshNetwork.discoverConnections node strangers)
  = MeshNetwork.discoverConnections node strangers.
Proof.
  intros node. apply discoverConnections_idempotent.
  - vm_compute. repeat constructor; compute_done.
  - vm_compute. apply list_elem_of_here.
Defined.

(** *** [healNetwork] on any topology *)

Section heal_any.
Import MeshNetwork.
Implicit Types (s : state) (l : list Node) (i x y c : string).

Lemma bare_modify (f : Node → Node) i l :
  (∀ n, set_connections [] (f n) = set_connections [] n) →
  bare (nodes_modify f i l) = bare l.
Proof.
  intros Hf. unfold bare, nodes_modify. rewrite <- list_fmap_compose.
  apply list_fmap_ext. intros ? n _. cbn. by case_bool_decide.
Qed.

Lemma nodes_find_bare l c :
  nodes_find (bare l) c = set_connections [] <$> nodes_find l c.
Proof.
  unfold nodes_find, bare. induction l as [|n l IH]; [done|].
  cbn. by case_bool_decide.
Qed.

Lemma alive_bare s s' c : bare (nodes s) = bare (nodes s') → alive s c = alive s' c.
Proof.
  intros Hb. unfold alive, getNode.
  pose proof (nodes_find_bare (nodes s) c) as H1.
  pose proof (nodes_find_bare (nodes s') c) as H2. rewrite Hb in H1.
  rewrite H1 in H2. clear H1.
  destruct (nodes_find (nodes s) c) as [n|], (nodes_find (nodes s') c) as [n'|];
    try done.
  apply (f_equal (fmap node_status)) in H2. cbn in H2.
  injection H2 as H2. unfold is_online. by rewrite H2.
Qed.

Lemma establish_bare (nodeA nodeB : Node) s :
  bare (nodes (snd (establishConnection nodeA nodeB s))) = bare (nodes s).
Proof. cbn. by rewrite !bare_modify. Qed.

Lemma discover_fold_bare (node : Node) (targets : list Node) s :
  bare (nodes (fold_left (discover_step node) targets s)) = bare (nodes s).
Proof.
  revert s. induction targets as [|t targets IH]; intros s; cbn [fold_left]; [done|].
  rewrite IH. unfold discover_step. case_bool_decide; [done|apply establish_bare].
Qed.

Lemma heal_step_bare s i : bare (nodes (heal_step s i)) = bare (nodes s).
Proof.
  unfold heal_step. destruct (getNode i s) as [node|]; [|done]. cbn [nodes].
  rewrite bare_modify by done. destruct (_ && _); [|done]. apply discover_fold_bare.
Qed.

Lemma heal_fold_bare (js : list string) s :
  bare (nodes (fold_left heal_step js s)) = bare (nodes s).
Proof.
  revert s. induction js as [|j js IH]; intros s; cbn [fold_left]; [done|].
  by rewrite IH, heal_step_bare.
Qed.

Lemma bare_ids l l' : bare l = bare l' → ids l = ids l'.
Proof.
  intros Hb. apply (f_equal (fmap node_id)) in Hb. unfold bare in Hb.
  by rewrite <- !list_fmap_compose in Hb.
Qed.

Lemma adj_filter (P : string → Prop) `{∀ c, Decision (P c)} i l x y :
  adj (nodes_modify (λ n, set_connections (filter P (node_connections n)) n) i l) x y
  ↔ adj l x y ∧ (x = i → P y).
Proof.
  rewrite adj_modify by done. unfold adj. split.
  - intros (X & HX & Hid & Hy). case_bool_decide as Hi.
    + cbn in Hy. apply list_elem_of_filter in Hy as [HP Hy].
      split; [by exists X|done].
    + split; [by exists X|done].
  - intros [(X & HX & Hid & Hy) HP]. exists X. split_and!; [done..|].
    case_bool_decide; [|done]. cbn. apply list_elem_of_filter. auto.
Qed.

Lemma discover_fold_adj_sub (node : Node) (targets : list Node) s x y :
  adj (nodes (fold_left (discover_step node) targets s)) x y →
  adj (nodes s) x y ∨ x = node_id node ∨ y = node_id node.
Proof.
  revert s. induction targets as [|t targets IH]; intros s; cbn [fold_left]; [by left|].
  intros [Hxy|?]%IH; [|by right]. unfold discover_step in Hxy.
  case_bool_decide; [by left|].
  apply establish_adj_gen in Hxy as [?|[(-> & _)|(_ & _ & ->)]]; auto.
Qed.

Lemma discover_fold_connections (node : Node) (targets : list Node) s :
  connections s `prefix_of` connections (fold_left (discover_step node) targets s).
Proof.
  revert s. induction targets as [|t targets IH]; intros s; cbn [fold_left]; [done|].
  etrans; [|apply IH]. unfold discover_step. case_bool_decide; [done|].
  cbn. by eexists.
Qed.

(** The state in which the second part of the body finds the manager. *)
Lemma heal_step_adj s i (node : Node) x y :
  getNode i s = Some node →
  adj (nodes (heal_step s i)) x y
  ↔ adj (nodes (reconnect s i)) x y ∧ (x = i → alive (reconnect s i) y = true).
Proof.
  intros Hg. unfold heal_step, reconnect. rewrite Hg. cbn [nodes].
  apply adj_filter.
Qed.

Lemma reconnect_bare s i : bare (nodes (reconnect s i)) = bare (nodes s).
Proof.
  unfold reconnect. destruct (getNode i s) as [node|]; [|done].
  destruct (_ && _); [|done]. apply discover_fold_bare.
Qed.

Lemma reconnect_adj_sub s i x y :
  adj (nodes (reconnect s i)) x y →
  adj (nodes s) x y ∨ x = i ∨ (y = i ∧ alive s i = true).
Proof.
  unfold reconnect. destruct (getNode i s) as [node|] eqn:Hg; [|by left].
  destruct (_ && _) eqn:Hc; [|by left].
  apply andb_true_iff in Hc as [_ Hon].
  pose proof Hg as [_ Hid]%nodes_find_Some.
  intros [?|[?|?]]%discover_fold_adj_sub; [by left|right; left; congruence|].
  right. right. split; [congruence|]. unfold alive. by rewrite Hg.
Qed.

(** After the body has run for the nodes [done], these list online nodes of
    the map only. *)
Lemma heal_fold_pruned (js done : list string) s :
  (∀ x y, x ∈ done → adj (nodes s) x y → alive s y = true) →
  ∀ x y, x ∈ done ++ js →
    adj (nodes (fold_left heal_step js s)) x y →
    alive (fold_left heal_step js s) y = true.
Proof.
  revert done s. induction js as [|j js IH]; intros done s Hdone x y Hx.
  { rewrite app_nil_r in Hx. by apply Hdone. }
  cbn [fold_left]. apply (IH (done ++ [j])); [|by rewrite <- app_assoc].
  clear x y Hx. intros x y Hx Hxy.
  rewrite (alive_bare _ s) by apply heal_step_bare.
  destruct (getNode j s) as [node|] eqn:Hg.
  - apply (heal_step_adj _ _ node) in Hxy as [Hxy Hj]; [|done].
    destruct (decide (x = j)) as [->|Hne].
    { rewrite <- (alive_bare (reconnect s j)) by apply reconnect_bare. by apply Hj. }
    apply elem_of_app in Hx as [Hx|Hx%list_elem_of_singleton]; [|done].
    apply reconnect_adj_sub in Hxy as [?|[?|[-> ?]]]; [by eapply Hdone|done|done].
  - unfold heal_step in Hxy. rewrite Hg in Hxy.
    apply elem_of_app in Hx as [Hx|Hx%list_elem_of_singleton]; [by eapply Hdone|].
    subst x. apply adj_ids, nodes_find_is_Some in Hxy as [n Hn].
    unfold getNode in Hg. congruence.
Qed.

Lemma heal_step_keeps s i x y :
  adj (nodes s) x y → alive s y = true → adj (nodes (heal_step s i)) x y.
Proof.
  intros Hxy Hy. destruct (getNode i s) as [node|] eqn:Hg.
  - apply (heal_step_adj _ _ node); [done|]. split.
    + eapply ext_adj; [apply reconnect_ext|done].
    + intros _. by rewrite (alive_bare _ s) by apply reconnect_bare.
  - unfold heal_step. by rewrite Hg.
Qed.

Lemma heal_fold_keeps (js : list string) s x y :
  adj (nodes s) x y → alive s y = true → adj (nodes (fold_left heal_step js s)) x y.
Proof.
  revert s. induction js as [|j js IH]; intros s Hxy Hy; cbn [fold_left]; [done|].
  apply IH; [by apply heal_step_keeps|].
  by rewrite (alive_bare _ s) by apply heal_step_bare.
Qed.

Lemma heal_fold_connections (js : list string) s :
  connections s `prefix_of` connections (fold_left heal_step js s).
Proof.
  revert s. induction js as [|j js IH]; intros s; cbn [fold_left]; [done|].
  etrans; [|apply IH]. unfold heal_step. destruct (getNode j s); [|done].
  cbn [connections]. destruct (_ && _); [|done]. apply discover_fold_connections.
Qed.

End heal_any.

(** X5.  After [healNetwork], on any topology, every id that a node lists is
    the id of an online node of the map: the pass leaves no reference to an
    offline or unknown node in any adjacency. *)
Theorem healNetwork_lists_online_only (s : MeshNetwork.state) (n : Node) (c : string) :
  n ∈ MeshNetwork.nodes (MeshNetwork.healNetwork s) →
  c ∈ node_connections n →
  ∃ m, MeshNetwork.getNode c (MeshNetwork.healNetwork s) = Some m
       ∧ node_status m = online.
Proof.
  intros Hn Hc.
  assert (Halive : MeshNetwork.alive (MeshNetwork.healNetwork s) c = true).
  { unfold MeshNetwork.healNetwork.
    apply (heal_fold_pruned (node_id <$> MeshNetwork.nodes s) [] s) with (x := node_id n).
    - by intros x y ?%elem_of_nil.
    - cbn. fold (ids (MeshNetwork.nodes s)).
      rewrite (bare_ids _ (MeshNetwork.nodes (MeshNetwork.healNetwork s)))
        by (symmetry; apply heal_fold_bare).
      apply list_elem_of_fmap. by exists n.
    - by exists n. }
  unfold MeshNetwork.alive in Halive.
  destruct (MeshNetwork.getNode c (MeshNetwork.healNetwork s)) as [m|]; [|done].
  exists m. split; [done|]. by apply bool_decide_eq_true in Halive.
Qed.

Lemma healNetwork_lists_online_only_witness :
  ∃ m, MeshNetwork.getNode "b" (MeshNetwork.healNetwork strangers) = Some m
       ∧ node_status m = online.
Proof.
  apply (healNetwork_lists_online_only strangers
           (default nodeC0 (head (MeshNetwork.nodes (MeshNetwork.healNetwork strangers))))
           "b").
  - apply (list_elem_of_lookup_2 _ 0). vm_compute. reflexivity.
  - vm_compute. apply list_elem_of_here.
Defined.

(** X6.  [healNetwork] rewrites [connections] arrays and nothing else: the
    map keeps its keys in their order and every node keeps all its other
    fields; an entry that names an online node stays where it is; and the
    edge list keeps its records and only grows at its end. *)
Theorem healNetwork_frame (s : MeshNetwork.state) :
  bare (MeshNetwork.nodes (MeshNetwork.healNetwork s)) = bare (MeshNetwork.nodes s)
  ∧ (∀ x y, adj (MeshNetwork.nodes s) x y → MeshNetwork.alive s y = true →
            adj (MeshNetwork.nodes (MeshNetwork.healNetwork s)) x y)
  ∧ MeshNetwork.connections s
      `prefix_of` MeshNetwork.connections (MeshNetwork.healNetwork s)
  ∧ MeshNetwork.localNodeId (MeshNetwork.healNetwork s) = MeshNetwork.localNodeId s.
Proof.
  unfold MeshNetwork.healNetwork. split_and!.
  - apply heal_fold_bare.
  - intros x y. apply heal_fold_keeps.
  - apply heal_fold_connections.
  - generalize (node_id <$> MeshNetwork.nodes s). intros js. revert s.
    induction js as [|j js IH]; intros s; cbn [fold_left]; [done|].
    rewrite IH. unfold MeshNetwork.heal_step.
    destruct (MeshNetwork.getNode j s) as [node|]; [|done].
    cbn [MeshNetwork.localNodeId]. destruct (_ && _); [|done].
    unfold MeshNetwork.discoverConnections.
    generalize (take NODE_CONFIG.MAX_CONNECTIONS
      (MeshNetwork.findNearbyNodes node NODE_CONFIG.MAX_RANGE s)).
    intros ts. revert s. induction ts as [|t ts IHt]; intros s; cbn [fold_left]; [done|].
    rewrite IHt. unfold MeshNetwork.discover_step. by case_bool_decide.
Qed.

(** *** The shape of the routes of the ants *)

Section ant_route_shape.
Import AntColonyRouter.
Variables (rnd : nat → JS.number) (nodes : list Node).
Variables (sourceId destinationId : string) (priority : Priority).

Lemma available_spec (vis : list string) (currentNode : Node) (i : string) :
  i ∈ available nodes vis currentNode →
  i ∈ node_connections currentNode ∧ (i ∉ vis)
  ∧ ∃ n, nodes_find nodes i = Some n ∧ node_status n = online.
Proof.
  unfold available. rewrite list_elem_of_filter. intros [H Hin].
  destruct (nodes_find nodes i) as [n|] eqn:Hf; [|done].
  apply andb_true_iff in H as [Hon H]. apply negb_true_iff in H.
  unfold JS.set_has in H. apply bool_decide_eq_false in H.
  apply bool_decide_eq_true in Hon. eauto.
Qed.

Lemma linked_snoc (p : list string) (a b : string) :
  linked nodes p → last p = Some a → hop nodes a b → linked nodes (p ++ [b]).
Proof.
  intros Hp Hlast Hab k x y Hx Hy.
  destruct (decide (S k < length p)) as [Hlt|Hge].
  - rewrite lookup_app_l in Hx, Hy by lia. by eapply Hp.
  - assert (Hk : S k = length p).
    { apply lookup_lt_Some in Hy. rewrite length_app in Hy. cbn in Hy. lia. }
    rewrite lookup_app_r in Hy by lia. rewrite Hk, Nat.sub_diag in Hy.
    injection Hy as <-. rewrite lookup_app_l in Hx by lia.
    rewrite last_lookup, <- Hk in Hlast. cbn in Hlast. congruence.
Qed.

Lemma cost_along_snoc (p : list string) (a b : string) (acc : JS.number) :
  last p = Some a →
  cost_along nodes priority acc (p ++ [b])
  = (cost_along nodes priority acc p + hop_cost nodes priority a b)%float.
Proof.
  revert acc. induction p as [|x [|y q] IH]; intros acc Hlast; [done| |].
  - injection Hlast as ->. done.
  - change (cost_along nodes priority (acc + hop_cost nodes priority x y)
              ((y :: q) ++ [b])
            = (cost_along nodes priority (acc + hop_cost nodes priority x y) (y :: q)
               + hop_cost nodes priority a b)%float).
    by apply IH.
Qed.

Lemma walk_keeps_shape (ph : gmap string JS.number) (fuel : nat) (a a' : ant) :
  walk fuel rnd ph nodes destinationId priority a = Returned a' →
  walk_shape nodes sourceId priority a → walk_shape nodes sourceId priority a'.
Proof.
  revert a. induction fuel as [|fuel IH]; intros a Hw Hs; cbn [walk] in Hw.
  { case_bool_decide; [|discriminate Hw]. by injection Hw as <-. }
  case_bool_decide; [by injection Hw as <-|].
  destruct (nodes_find nodes (currentId a)) as [currentNode|] eqn:Hcur;
    [|by injection Hw as <-].
  destruct (available nodes (visited a) currentNode) as [|n0 ns] eqn:Hav;
    [by injection Hw as <-|].
  destruct (selectNextNode _ _ _ _ _ _) as [next d] eqn:Hsel.
  destruct next as [nextId|]; [|by injection Hw as <-].
  destruct (JS.str_truthy nextId); cbn [negb] in Hw; [|by injection Hw as <-].
  destruct (nodes_find nodes nextId) as [nextNode|] eqn:Hnext; [|by injection Hw as <-].
  assert (Hel : nextId ∈ n0 :: ns).
  { eapply selectNextNode_elem. by rewrite Hsel. }
  rewrite <- Hav in Hel. apply available_spec in Hel as (Hlist & Hnv & n & Hn & Hon).
  assert (Hadd : JS.set_add nextId (visited a) = visited a ++ [nextId]).
  { unfold JS.set_add, JS.set_has. by rewrite bool_decide_eq_false_2. }
  apply IH in Hw; [done|]. clear Hw IH.
  destruct Hs as (Hvis & Hhead & Hlast & Hnd & Hlink & Hcost).
  unfold walk_shape; cbn. rewrite Hadd, Hvis. rewrite Hvis in Hnv.
  split_and!.
  - done.
  - destruct (path a); [done|]. done.
  - by rewrite last_snoc.
  - apply NoDup_app. split_and!; [done| |apply NoDup_singleton].
    by intros i Hi ->%list_elem_of_singleton.
  - apply (linked_snoc _ (currentId a)); [done..|].
    exists currentNode, n. done.
  - rewrite (cost_along_snoc _ (currentId a)) by done. rewrite <- Hcost.
    unfold hop_cost. by rewrite Hcur, Hnext.
Qed.

Lemma antTraverse_shape (st : state) :
  ∃ r d, antTraverse rnd st nodes sourceId destinationId priority = Returned (r, d)
    ∧ ∀ route, r = Some route →
        ant_route nodes sourceId destinationId priority route.
Proof.
  destruct (walk_returns rnd (pheromones st) nodes sourceId destinationId priority
              (S (length nodes)) (ant0 sourceId (draws st)) (ant0_inv _ _ _))
    as (a & Hw & _); [cbn; lia|].
  pose proof Hw as Hs. apply walk_keeps_shape in Hs.
  2:{ unfold walk_shape, ant0, linked. cbn.
      split_and!; [done..|apply NoDup_singleton|by intros [|k] x y Hx Hy|done]. }
  unfold antTraverse. fold (ant0 sourceId (draws st)). rewrite Hw.
  rewrite outcome_bind_Returned.
  destruct Hs as (Hvis & Hhead & Hlast & Hnd & Hlink & Hcost).
  case_bool_decide as Hd; cbn [negb]; eexists _, _; (split; [done|]);
    intros route Hr; [|done].
  injection Hr as <-. unfold ant_route; cbn. rewrite Hlast, Hd. done.
Qed.

End ant_route_shape.

(** X7.  [findOptimalPath] returns; a route it returns has a path from the
    source to the destination that visits no node twice and moves only along
    listed connections to known online nodes; its cost is the sum, in path
    order, of the lengths of the moves times the modifier of the priority,
    its latency 15 per entry of the path and its reliability 0.9. *)
Theorem findOptimalPath_route_shape (rnd : nat → JS.number) (nodes : list Node)
    (sourceId destinationId : string) (priority : Priority)
    (st : AntColonyRouter.state) :
  ∃ r st', AntColonyRouter.findOptimalPath rnd st nodes sourceId destinationId priority
           = Returned (r, st')
    ∧ ∀ route, r = Some route →
        ant_route nodes sourceId destinationId priority route.
Proof.
  apply (findOptimalPath_best rnd nodes sourceId destinationId priority
           (ant_route nodes sourceId destinationId priority)).
  apply antTraverse_shape.
Qed.

(** *** Destinations out of reach *)

Section out_of_reach.
Variables (rnd : nat → JS.number) (nodes : list Node).
Variables (sourceId destinationId : string).

Lemma linked_rtc (p : list string) (a b : string) :
  head p = Some a → last p = Some b → linked nodes p → rtc (hop nodes) a b.
Proof.
  revert a. induction p as [|x [|y q] IH]; intros a Hhead Hlast Hlink; [done| |].
  - cbn in Hhead, Hlast. assert (a = b) as -> by congruence. done.
  - injection Hhead as ->. eapply rtc_l.
    + by apply (Hlink 0 a y).
    + apply IH; [done..|]. intros k u v Hu Hv. by apply (Hlink (S k)).
Qed.

Hypothesis out_of_reach : ¬ rtc (hop nodes) sourceId destinationId.

Lemma findOptimalPath_out_of_reach (priority : Priority) (st : AntColonyRouter.state) :
  ∃ st', AntColonyRouter.findOptimalPath rnd st nodes sourceId destinationId priority
         = Returned (None, st').
Proof.
  destruct (findOptimalPath_best rnd nodes sourceId destinationId priority
              (ant_route nodes sourceId destinationId priority)
              (antTraverse_shape rnd nodes sourceId destinationId priority) st)
    as (r & st' & -> & Hr).
  exists st'. destruct r as [route|]; [|done].
  destruct (Hr route eq_refl) as (_ & _ & Hhead & Hlast & _ & Hlink & _).
  destruct out_of_reach. by apply (linked_rtc (route_path route)).
Qed.

End out_of_reach.

(** X8.  When no chain of listed connections to known online nodes leads
    from the source to the destination, no strategy finds a route:
    [findOptimalPath] and [findRoute] return [null] at every priority, and
    [findAllRoutes] returns the empty array. *)
Theorem out_of_reach_no_route (rnd : nat → JS.number) (nodes : list Node)
    (sourceId destinationId : string) (priority : Priority)
    (st : AntColonyRouter.state) :
  ¬ rtc (hop nodes) sourceId destinationId →
  (∃ st', AntColonyRouter.findOptimalPath rnd st nodes sourceId destinationId priority
          = Returned (None, st'))
  ∧ (∃ st', Router.findRoute rnd st nodes sourceId destinationId priority
            = Returned (None, st'))
  ∧ (∃ st', Router.findAllRoutes rnd st nodes sourceId destinationId
            = Returned ([], st')).
Proof.
  intros Hno.
  assert (Hne : sourceId ≠ destinationId) by (by intros ->; destruct Hno).
  split_and!.
  - by apply findOptimalPath_out_of_reach.
  - unfold Router.findRoute. case_bool_decide.
    + rewrite findShortestPath_distinct by done. rewrite outcome_bind_Returned.
      by exists st.
    + by apply findOptimalPath_out_of_reach.
  - unfold Router.findAllRoutes. rewrite findShortestPath_distinct by done.
    rewrite outcome_bind_Returned.
    destruct (findOptimalPath_out_of_reach rnd nodes sourceId destinationId Hno
                critical st) as [st' ->].
    rewrite outcome_bind_Returned. by exists st'.
Qed.

Lemma out_of_reach_no_route_witness :
  (∃ st', AntColonyRouter.findOptimalPath rnd_half AntColonyRouter.fresh
            (MeshNetwork.nodes strangers) "a" "b" normal = Returned (None, st'))
  ∧ (∃ st', Router.findRoute rnd_half AntColonyRouter.fresh
              (MeshNetwork.nodes strangers) "a" "b" normal = Returned (None, st'))
  ∧ (∃ st', Router.findAllRoutes rnd_half AntColonyRouter.fresh
              (MeshNetwork.nodes strangers) "a" "b" = Returned ([], st')).
Proof.
  apply out_of_reach_no_route.
  intros [Heq|(y & (na & nb & Hna & Hy & _) & _)]%rtc_inv; [discriminate Heq|].
  vm_compute in Hna. injection Hna as <-. by apply elem_of_nil in Hy.
Defined.

(** *** Edge keys *)

Section edge_key.
Import AntColonyRouter.

Lemma ltb_asym (a b : string) : String.ltb a b = true → String.ltb b a = false.
Proof.
  unfold String.ltb. rewrite (String.compare_antisym a b).
  by destruct (String.compare b a).
Qed.

Lemma ltb_total (a b : string) :
  String.ltb a b = false → String.ltb b a = false → a = b.
Proof.
  unfold String.ltb. rewrite (String.compare_antisym b a).
  destruct (String.compare a b) eqn:Hc; [|done..].
  intros _ _. by apply String.compare_eq_iff.
Qed.

Lemma getEdgeKey_sym (nodeA nodeB : string) :
  getEdgeKey nodeA nodeB = getEdgeKey nodeB nodeA.
Proof.
  unfold getEdgeKey.
  destruct (String.ltb nodeB nodeA) eqn:Hba, (String.ltb nodeA nodeB) eqn:Hab;
    try done.
  - apply ltb_asym in Hba. congruence.
  - by rewrite (ltb_total _ _ Hab Hba).
Qed.

Lemma join_inj (a b c d : string) :
  String.length a = String.length c →
  a +:+ "-" +:+ b = c +:+ "-" +:+ d → a = c ∧ b = d.
Proof.
  revert c. induction a as [|x a IH]; intros [|y c] Hlen Heq; try done.
  - cbv in Heq. by injection Heq as ->.
  - injection Heq as -> Heq. injection Hlen as Hlen.
    destruct (IH c Hlen Heq) as [-> ->]. done.
Qed.

End edge_key.

(** X9.  [getEdgeKey] does not depend on the order of its arguments: the two
    directions of an edge share one pheromone entry. *)
Theorem getEdgeKey_symmetric (nodeA nodeB : string) :
  AntColonyRouter.getEdgeKey nodeA nodeB = AntColonyRouter.getEdgeKey nodeB nodeA.
Proof. apply getEdgeKey_sym. Qed.

(** X10.  Among ids of one length, as [generateId] draws them, two edges
    with the same key have the same two ends. *)
Theorem getEdgeKey_injective (a b c d : string) :
  String.length a = String.length b → String.length b = String.length c →
  String.length c = String.length d →
  AntColonyRouter.getEdgeKey a b = AntColonyRouter.getEdgeKey c d →
  (a = c ∧ b = d) ∨ (a = d ∧ b = c).
Proof.
  intros Hab Hbc Hcd. unfold AntColonyRouter.getEdgeKey.
  destruct (String.ltb b a), (String.ltb d c); intros H; apply join_inj in H;
    try congruence; tauto.
Qed.

Lemma getEdgeKey_injective_witness :
  ("a" = "b" ∧ "b" = "a") ∨ ("a" = "a" ∧ "b" = "b").
Proof.
  apply (getEdgeKey_injective "a" "b" "b" "a"); reflexivity.
Defined.

(** Without the condition on the lengths the key does not tell the edge: a
    dash inside an id moves the boundary. *)
Lemma getEdgeKey_collision :
  AntColonyRouter.getEdgeKey "a" "b-c" = AntColonyRouter.getEdgeKey "a-b" "c".
Proof. reflexivity. Qed.

(** *** The choice of the next node *)

Section choice.
Import AntColonyRouter.
Variables (rnd : nat → JS.number) (nodes : list Node).
Variables (destinationId : string) (priority : Priority).

Lemma selectNextNode_Some (st : state) (current : Node) (neighbors : list string) :
  neighbors ≠ [] → EmptyString ∉ neighbors →
  ∃ i, fst (selectNextNode rnd st current neighbors nodes destinationId) = Some i
       ∧ i ∈ neighbors.
Proof.
  intros Hne Hempty.
  assert (∃ i, fst (selectNextNode rnd st current neighbors nodes destinationId)
               = Some i) as [i Hi].
  { unfold selectNextNode.
    destruct (PrimFloat.eqb _ _) eqn:Htotal.
    { destruct neighbors; [done|]. by eexists. }
    destruct (roulette _ _) as [j|]; [by eexists|].
    destruct (last _) as [[j w]|] eqn:Hl.
    - apply last_Some_elem_of, probabilities_elem in Hl. cbn in Hl.
      unfold JS.str_truthy. rewrite bool_decide_eq_false_2; [by eexists|].
      by intros ->.
    - apply last_None in Hl. rewrite Hl in Htotal. discriminate Htotal. }
  exists i. split; [done|]. destruct st as [ph d].
  by apply (selectNextNode_elem rnd ph nodes destinationId d current).
Qed.

Lemma walk_stops (ph : gmap string JS.number) (fuel : nat) (a a' : ant) :
  EmptyString ∉ ids nodes →
  walk fuel rnd ph nodes destinationId priority a = Returned a' →
  currentId a' = destinationId ∨ dead_end nodes a'.
Proof.
  intros Hempty. revert a. induction fuel as [|fuel IH]; intros a Hw; cbn [walk] in Hw.
  { case_bool_decide; [|discriminate Hw]. injection Hw as <-. by left. }
  case_bool_decide; [injection Hw as <-; by left|].
  destruct (nodes_find nodes (currentId a)) as [currentNode|] eqn:Hcur.
  2:{ injection Hw as <-. right. unfold dead_end. by rewrite Hcur. }
  destruct (available nodes (visited a) currentNode) as [|n0 ns] eqn:Hav.
  { injection Hw as <-. right. unfold dead_end. by rewrite Hcur. }
  destruct (selectNextNode_Some (mkState ph (ant_draws a)) currentNode (n0 :: ns))
    as (i & Hi & Hin); [done| |].
  { rewrite <- Hav. intros [_ Hid]%(available_elem nodes). done. }
  destruct (selectNextNode _ _ _ _ _ _) as [next d] eqn:Hsel. cbn in Hi. subst next.
  assert (Htruthy : JS.str_truthy i = true).
  { unfold JS.str_truthy. rewrite bool_decide_eq_false_2; [done|].
    intros ->. rewrite <- Hav in Hin.
    by apply (available_elem nodes) in Hin as [_ Hid]. }
  rewrite Htruthy in Hw. cbn [negb] in Hw.
  destruct (nodes_find nodes i) as [nextNode|] eqn:Hnext; [by eapply IH|].
  rewrite <- Hav in Hin. apply (available_elem nodes) in Hin as [_ Hid].
  apply nodes_find_is_Some in Hid as [n Hn]. congruence.
Qed.

End choice.

(** X11.  Given a non-empty list of neighbours none of which is the empty
    string, [selectNextNode] returns one of them, never [null], and makes at
    most one draw. *)
Theorem selectNextNode_chooses (rnd : nat → JS.number) (st : AntColonyRouter.state)
    (current : Node) (neighbors : list string) (nodes : list Node)
    (destination : string) :
  neighbors ≠ [] → EmptyString ∉ neighbors →
  ∃ i d, AntColonyRouter.selectNextNode rnd st current neighbors nodes destination
         = (Some i, d)
    ∧ i ∈ neighbors
    ∧ (d = AntColonyRouter.draws st ∨ d = S (AntColonyRouter.draws st)).
Proof.
  intros Hne Hempty.
  destruct (selectNextNode_Some rnd nodes destination st current neighbors Hne Hempty)
    as (i & Hi & Hin).
  destruct (AntColonyRouter.selectNextNode _ _ _ _ _ _) as [next d] eqn:Hsel.
  cbn in Hi. subst next. exists i, d. split_and!; [done..|].
  unfold AntColonyRouter.selectNextNode in Hsel.
  destruct (PrimFloat.eqb _ _); [injection Hsel as _ <-; by left|].
  destruct (AntColonyRouter.roulette _ _); injection Hsel as _ <-; by right.
Qed.

Lemma selectNextNode_chooses_witness :
  ∃ i d, AntColonyRouter.selectNextNode rnd_half AntColonyRouter.fresh nodeA0 ["b"]
           [nodeA0; nodeB0] "b" = (Some i, d)
    ∧ i ∈ ["b"]
    ∧ (d = AntColonyRouter.draws AntColonyRouter.fresh
       ∨ d = S (AntColonyRouter.draws AntColonyRouter.fresh)).
Proof.
  apply selectNextNode_chooses; [done|].
  intros Hin%list_elem_of_singleton. discriminate Hin.
Defined.

(** X12.  When no node has the empty string for its id, the walk of an ant
    ends in one of two ways only: at the destination, or at a dead end, where
    the node it stands on is unknown or lists no online node it has not
    visited. *)
Theorem ant_stops_at_dead_end (rnd : nat → JS.number) (ph : gmap string JS.number)
    (nodes : list Node) (sourceId destinationId : string) (priority : Priority)
    (d : nat) :
  EmptyString ∉ ids nodes →
  ∃ a, AntColonyRouter.walk (S (length nodes)) rnd ph nodes destinationId priority
         (ant0 sourceId d) = Returned a
    ∧ (AntColonyRouter.currentId a = destinationId ∨ dead_end nodes a).
Proof.
  intros Hempty.
  destruct (walk_returns rnd ph nodes sourceId destinationId priority
              (S (length nodes)) (ant0 sourceId d) (ant0_inv _ _ _))
    as (a & Hw & _); [cbn; lia|].
  exists a. split; [done|]. by eapply walk_stops.
Qed.

Lemma ant_stops_at_dead_end_witness :
  ∃ a, AntColonyRouter.walk 3 rnd_half ∅ [nodeA0; nodeB0] "b" normal (ant0 "a" 0)
       = Returned a
    ∧ (AntColonyRouter.currentId a = "b" ∨ dead_end [nodeA0; nodeB0] a).
Proof.
  apply (ant_stops_at_dead_end rnd_half ∅ [nodeA0; nodeB0] "a" "b" normal 0).
  compute_done.
Defined.

(** *** The entries of the pheromone map *)

Section pheromone_keys.
Import AntColonyRouter.
Variables (rnd : nat → JS.number) (nodes : list Node).
Variables (sourceId destinationId : string) (priority : Priority).

Lemma deploy_pheromones (n : nat) (routes : list Route) (s : search) :
  ∃ routes' s', deploy n rnd nodes sourceId destinationId priority routes s
                = Returned (routes', s')
    ∧ pheromones (router s') = pheromones (router s).
Proof.
  revert routes s. induction n as [|n IH]; intros routes s; cbn [deploy].
  { by eexists _, _. }
  destruct (antTraverse_returns rnd nodes sourceId destinationId priority (router s))
    as (a & _ & ->).
  rewrite outcome_bind_Returned. cbn beta iota.
  destruct (bool_decide (currentId a = destinationId)).
  - destruct (PrimFloat.ltb _ _);
      match goal with |- context [deploy n _ _ _ _ _ ?rs ?s0] =>
        destruct (IH rs s0) as (routes' & s' & -> & Hph) end;
      eexists _, _; (split; [done|]); by cbn in Hph.
  - match goal with |- context [deploy n _ _ _ _ _ ?rs ?s0] =>
      destruct (IH rs s0) as (routes' & s' & -> & Hph) end.
    eexists _, _. split; [done|]. by cbn in Hph.
Qed.

Lemma deposit_on_keeps (deposit : JS.number) (p : list string)
    (ph : gmap string JS.number) (k : string) :
  is_Some (ph !! k) → is_Some (deposit_on deposit p ph !! k).
Proof.
  revert ph. induction p as [|a [|b q] IH]; intros ph Hk; [done..|].
  cbn [deposit_on]. apply IH. rewrite lookup_insert_is_Some'. by right.
Qed.

Lemma deposits_keep (routes : list Route) (ph : gmap string JS.number) (k : string) :
  is_Some (ph !! k) →
  is_Some (fold_left (λ ph route, depositPheromones route priority ph) routes ph !! k).
Proof.
  revert ph. induction routes as [|route routes IH]; intros ph Hk; [done|].
  cbn [fold_left]. apply IH. by apply deposit_on_keeps.
Qed.

Lemma iterations_keep (n : nat) (s : search) (k : string) :
  ∃ s', iterations n rnd nodes sourceId destinationId priority s = Returned s'
    ∧ (is_Some (pheromones (router s) !! k) → is_Some (pheromones (router s') !! k)).
Proof.
  revert s. induction n as [|n IH]; intros s; cbn [iterations].
  { by eexists. }
  unfold iteration.
  destruct (deploy_pheromones ROUTING_CONFIG.ANT_COUNT [] s)
    as (routes & s1 & -> & Hph).
  rewrite !outcome_bind_Returned. cbn beta iota.
  match goal with |- context [iterations n _ _ _ _ _ ?s0] =>
    destruct (IH s0) as (s' & -> & Hk) end.
  exists s'. split; [done|]. cbn [router pheromones] in Hk.
  intros Hin. apply Hk, deposits_keep. unfold evaporatePheromones.
  rewrite lookup_fmap, Hph. by apply fmap_is_Some.
Qed.

End pheromone_keys.

(** X13.  [findOptimalPath] never deletes a pheromone entry: when it returns,
    the router holds an entry under every key it held before the call and
    under the key of every edge of the topology of the call. *)
Theorem findOptimalPath_keeps_entries (rnd : nat → JS.number) (nodes : list Node)
    (sourceId destinationId : string) (priority : Priority)
    (st : AntColonyRouter.state) :
  ∃ r st', AntColonyRouter.findOptimalPath rnd st nodes sourceId destinationId priority
           = Returned (r, st')
    ∧ ∀ k, is_Some (AntColonyRouter.pheromones st !! k) ∨ k ∈ edge_keys nodes →
           is_Some (AntColonyRouter.pheromones st' !! k).
Proof.
  unfold AntColonyRouter.findOptimalPath.
  pose proof (iterations_keep rnd nodes sourceId destinationId priority
                ROUTING_CONFIG.ACO_ITERATIONS
                (AntColonyRouter.mkSearch None JS.Infinity
                   (AntColonyRouter.at_start nodes st))) as Hit.
  destruct (Hit EmptyString) as (s' & Hs' & _).
  rewrite Hs', outcome_bind_Returned. eexists _, _. split; [done|].
  intros k Hk. destruct (Hit k) as (s'' & Hs'' & Hkeep).
  rewrite Hs' in Hs''. injection Hs'' as <-. apply Hkeep.
  unfold AntColonyRouter.at_start;
    cbn [AntColonyRouter.router AntColonyRouter.pheromones].
  rewrite initializePheromones_lookup. case_bool_decide; [done|].
  by destruct Hk.
Qed.

(** *** Edge list and adjacency in step *)

Section in_step.
Import MeshNetwork.
Implicit Types (s : state) (node t : Node) (x y : string).

Lemma edge_sym (cs : list Connection) x y : edge cs x y → edge cs y x.
Proof. intros (c & Hc & H). exists c. tauto. Qed.

Lemma edge_snoc (cs : list Connection) (c : Connection) x y :
  edge (cs ++ [c]) x y
  ↔ edge cs x y ∨ (x = conn_nodeA c ∧ y = conn_nodeB c)
    ∨ (x = conn_nodeB c ∧ y = conn_nodeA c).
Proof.
  unfold edge. split.
  - intros (c' & [Hc| ->%list_elem_of_singleton]%elem_of_app & H).
    + left. by exists c'.
    + right. destruct H as [[<- <-]|[<- <-]]; auto.
  - intros [(c' & Hc & H)|H].
    + exists c'. split; [|done]. apply elem_of_app. by left.
    + exists c. split; [apply elem_of_app; right; by apply list_elem_of_singleton|].
      destruct H as [[-> ->]|[-> ->]]; auto.
Qed.

Lemma edge_filter (nodeId : string) (cs : list Connection) x y :
  edge (filter (λ c, conn_nodeA c ≠ nodeId ∧ conn_nodeB c ≠ nodeId) cs) x y
  ↔ edge cs x y ∧ x ≠ nodeId ∧ y ≠ nodeId.
Proof.
  unfold edge. split.
  - intros (c & [[Ha Hb] Hc]%list_elem_of_filter & H).
    split; [by exists c|]. destruct H as [[<- <-]|[<- <-]]; done.
  - intros [(c & Hc & H) [Hx Hy]]. exists c. split; [|done].
    apply list_elem_of_filter. split; [|done].
    destruct H as [[-> ->]|[-> ->]]; done.
Qed.

Lemma in_step_mesh_inv s : in_step s → mesh_inv (nodes s).
Proof.
  intros [Hnd Hag]. split; [done|]. intros x y Hxy _.
  by apply Hag, edge_sym, Hag.
Qed.

Lemma establish_in_step (nodeA nodeB : Node) s :
  node_id nodeA ∈ ids (nodes s) → node_id nodeB ∈ ids (nodes s) →
  in_step s → in_step (snd (establishConnection nodeA nodeB s)).
Proof.
  intros Ha Hb [Hnd Hag]. split; [by rewrite establish_ids|].
  intros x y. rewrite establish_adj by done. cbn [establishConnection snd connections].
  rewrite edge_snoc, Hag. done.
Qed.

Lemma discover_fold_in_step node (targets : list Node) s :
  node_id node ∈ ids (nodes s) →
  Forall (λ t, node_id t ∈ ids (nodes s)) targets →
  in_step s → in_step (fold_left (discover_step node) targets s).
Proof.
  revert s. induction targets as [|t targets IH]; intros s Hn Hts Hs; [done|].
  cbn [fold_left]. apply Forall_cons in Hts as [Ht Hts].
  apply IH.
  - by rewrite discover_step_ids.
  - by rewrite discover_step_ids.
  - unfold discover_step. case_bool_decide; [done|]. by apply establish_in_step.
Qed.

Lemma discoverConnections_in_step node s :
  node_id node ∈ ids (nodes s) → in_step s → in_step (discoverConnections node s).
Proof.
  intros Hn Hs. apply discover_fold_in_step; [done|apply nearby_in_map|done].
Qed.

Lemma createNode_in_step (newId ip : string) (now : Z) (name : string)
    (x y : JS.number) s :
  newId ∉ ids (nodes s) → in_step s → in_step (createNode newId ip now name x y s).
Proof.
  intros Hfresh [Hnd Hag]. unfold createNode.
  rewrite nodes_set_fresh by done. apply discoverConnections_in_step.
  { cbn. unfold ids. rewrite fmap_app. apply elem_of_app. right. cbn. left. }
  split; cbn [nodes connections].
  - unfold ids. rewrite fmap_app. apply NoDup_app. split_and!; [done| |].
    + intros i Hi ->%list_elem_of_singleton. done.
    + apply NoDup_singleton.
  - intros u v. rewrite Hag. unfold adj. split.
    + intros (X & HX & H). exists X. split; [|done]. apply elem_of_app. by left.
    + intros (X & [HX| ->%list_elem_of_singleton]%elem_of_app & Hid & Hv).
      * by exists X.
      * by apply elem_of_nil in Hv.
Qed.

Lemma removeNode_in_step (nodeId : string) s :
  in_step s → in_step (removeNode nodeId s).
Proof.
  intros Hs. destruct (decide (nodeId ∈ ids (nodes s))) as [Hin|Hout].
  2:{ by rewrite removeNode_unknown. }
  pose proof (in_step_mesh_inv s Hs) as Hmesh. destruct Hs as [Hnd Hag]. split.
  - unfold removeNode. destruct (getNode nodeId s) as [node|]; [|done].
    cbn [nodes]. rewrite nodes_delete_ids, scrub_fold_ids. by apply NoDup_filter.
  - intros u v. rewrite removeNode_adj by done. rewrite <- Hag.
    unfold removeNode. destruct (nodes_find_is_Some _ _ Hin) as [node Hget].
    unfold getNode. rewrite Hget. cbn [connections]. apply edge_filter.
Qed.

Lemma serve_in_step s (r : request) :
  live s r = true → in_step s → in_step (serve s r).
Proof.
  destruct r as [newId ip now name x y|nodeA nodeB|nodeId]; cbn [live serve].
  - intros Hf%bool_decide_eq_true. by apply createNode_in_step.
  - intros [Ha%bool_decide_eq_true Hb%bool_decide_eq_true]%andb_true_iff.
    by apply establish_in_step.
  - intros _. apply removeNode_in_step.
Qed.

Lemma serve_all_in_step (rs : list request) s :
  all_live s rs = true → in_step s → in_step (serve_all s rs).
Proof.
  revert s. induction rs as [|r rs IH]; intros s Hlive Hs; [done|].
  cbn [all_live] in Hlive. apply andb_true_iff in Hlive as [Hr Hrs].
  cbn. apply IH; [done|]. by apply serve_in_step.
Qed.

End in_step.

(** X14.  As long as [createNode] draws ids that are not keys of the map and
    [establishConnection] is handed nodes of the map, the edge list and the
    adjacency stay in step through any sequence of [createNode],
    [establishConnection] and [removeNode] from the empty topology: there is
    a record between two ids exactly when the one lists the other. *)
Theorem edge_list_in_step (rs : list request) (x y : string) :
  all_live MeshNetwork.empty rs = true →
  edge (MeshNetwork.getConnections (serve_all MeshNetwork.empty rs)) x y
  ↔ adj (MeshNetwork.getNodes (serve_all MeshNetwork.empty rs)) x y.
Proof.
  intros Hlive.
  apply (serve_all_in_step rs MeshNetwork.empty Hlive).
  split; [constructor|].
  intros u v. split.
  - by intros (c & Hc%elem_of_nil & _).
  - by intros (X & HX%elem_of_nil & _).
Qed.

Lemma edge_list_in_step_witness :
  edge (MeshNetwork.getConnections (serve_all MeshNetwork.empty requests1)) "x" "d"
  ↔ adj (MeshNetwork.getNodes (serve_all MeshNetwork.empty requests1)) "x" "d".
Proof.
  apply (edge_list_in_step requests1 "x" "d"). vm_compute. reflexivity.
Defined.

(** *** Failure and recovery *)

Section failure.
Import MeshNetwork.
Implicit Types (s : state) (node : Node) (i x y : string).

Lemma getNode_bare s s' i :
  bare (nodes s) = bare (nodes s') →
  set_connections [] <$> getNode i s = set_connections [] <$> getNode i s'.
Proof.
  intros Hb. unfold getNode. by rewrite <- !nodes_find_bare, Hb.
Qed.

Lemma alive_after_failure (now : Z) i s :
  alive (updateNodeStatus now i offline s) i = false.
Proof.
  unfold alive. destruct (getNode i s) as [node|] eqn:Hg.
  - destruct (updateNodeStatus_known now i offline s node Hg) as (-> & _). done.
  - unfold updateNodeStatus. by rewrite Hg, Hg.
Qed.

Lemma healNetwork_pruned s x y :
  adj (nodes (healNetwork s)) x y → alive s y = true.
Proof.
  intros Hxy. rewrite (alive_bare s (healNetwork s)).
  2:{ symmetry. apply heal_fold_bare. }
  unfold healNetwork in *.
  apply (heal_fold_pruned (node_id <$> nodes s) [] s) with (x := x); [|cbn|done].
  - by intros ? ? ?%elem_of_nil.
  - fold (ids (nodes s)).
    rewrite (bare_ids _ (nodes (fold_left heal_step (node_id <$> nodes s) s)))
      by (symmetry; apply heal_fold_bare).
    by eapply adj_ids.
Qed.

End failure.

(** X16.  After [simulateFailure], no node of the map lists the failed node
    any more, and the failed node is still in the map, offline, with the
    clock of the call as its [lastSeen]. *)
Theorem simulateFailure_isolates (now : Z) (nodeId : string) (s : MeshNetwork.state)
    (node : Node) :
  MeshNetwork.getNode nodeId s = Some node →
  (∀ n, n ∈ MeshNetwork.nodes (MeshNetwork.simulateFailure now nodeId s) →
        nodeId ∉ node_connections n)
  ∧ ∃ n', MeshNetwork.getNode nodeId (MeshNetwork.simulateFailure now nodeId s)
          = Some n'
      ∧ set_connections [] n'
        = set_connections [] (set_lastSeen now (set_status offline node)).
Proof.
  intros Hg. unfold MeshNetwork.simulateFailure. split.
  - intros n Hn Hin.
    assert (Hadj : adj (MeshNetwork.nodes (MeshNetwork.healNetwork
                     (MeshNetwork.updateNodeStatus now nodeId offline s)))
                     (node_id n) nodeId) by (by exists n).
    apply healNetwork_pruned in Hadj. by rewrite alive_after_failure in Hadj.
  - pose proof (getNode_bare
                  (MeshNetwork.healNetwork
                     (MeshNetwork.updateNodeStatus now nodeId offline s))
                  (MeshNetwork.updateNodeStatus now nodeId offline s) nodeId
                  (heal_fold_bare _ _)) as Hb.
    destruct (updateNodeStatus_known now nodeId offline s node Hg) as (Hk & _).
    rewrite Hk in Hb.
    destruct (MeshNetwork.getNode nodeId (MeshNetwork.healNetwork _)) as [n'|];
      [|discriminate Hb].
    exists n'. split; [done|]. by apply (inj Some) in Hb.
Qed.

Lemma simulateFailure_isolates_witness :
  (∀ n, n ∈ MeshNetwork.nodes (MeshNetwork.simulateFailure 5 "a" pair_topology) →
        "a" ∉ node_connections n)
  ∧ ∃ n', MeshNetwork.getNode "a" (MeshNetwork.simulateFailure 5 "a" pair_topology)
          = Some n'
      ∧ set_connections [] n'
        = set_connections []
            (set_lastSeen 5 (set_status offline
               (default nodeC0 (MeshNetwork.getNode "a" pair_topology)))).
Proof.
  apply simulateFailure_isolates. vm_compute. reflexivity.
Defined.

(** *** Statistics *)

Section stats.
Import MeshNetwork.
Implicit Types (s : state) (l : list Node).

Lemma status_count_bare (st : Status) l l' :
  bare l = bare l' →
  length (filter (λ n, node_status n = st) l)
  = length (filter (λ n, node_status n = st) l').
Proof.
  assert (H : ∀ l, length (filter (λ n, node_status n = st) l)
                   = length (filter (λ n, node_status n = st) (bare l))).
  { clear. induction l as [|n l IH]; [done|].
    change (bare (n :: l)) with (set_connections [] n :: bare l).
    rewrite !filter_cons. cbn [set_connections node_status].
    destruct (decide (node_status n = st)); cbn [length]; by rewrite IH. }
  intros Hb. by rewrite (H l), (H l'), Hb.
Qed.

Lemma length_bare l l' : bare l = bare l' → length l = length l'.
Proof.
  intros Hb. apply (f_equal length) in Hb. unfold bare in Hb.
  by rewrite !length_fmap in Hb.
Qed.

Lemma createNode_bare (newId ip : string) (now : Z) (name : string)
    (x y : JS.number) s :
  newId ∉ ids (nodes s) →
  bare (nodes (createNode newId ip now name x y s))
  = bare (nodes s ++ [newborn newId ip now name x y]).
Proof.
  intros Hfresh. unfold createNode, discoverConnections.
  rewrite discover_fold_bare. cbn [nodes]. by rewrite nodes_set_fresh.
Qed.

End stats.

(** X15.  The counts of [getStats] add up: every node is online, offline,
    busy or relay, so the online and the offline nodes together are at most
    all nodes, and they are all nodes exactly when none is busy or relay. *)
Theorem getStats_partition (s : MeshNetwork.state) :
  onlineNodes (getStats s) + offlineNodes (getStats s)
  + length (filter (λ n, node_status n = busy ∨ node_status n = relay)
              (MeshNetwork.getNodes s))
  = totalNodes (getStats s).
Proof.
  unfold getStats, MeshNetwork.getNodes. cbn.
  induction (MeshNetwork.nodes s) as [|n l IH]; [done|].
  rewrite !filter_cons.
  destruct (node_status n) eqn:Hst;
    repeat (case_decide; try (by intuition congruence)); cbn; lia.
Qed.

(** X18.  [createNode] with an id that is not a key of the map raises
    [totalNodes] and [onlineNodes] by one, leaves [offlineNodes], and raises
    [totalConnections] by the number of nodes it connects to, at most
    [MAX_CONNECTIONS]. *)
Theorem getStats_createNode (newId ip : string) (now : Z) (name : string)
    (x y : JS.number) (s : MeshNetwork.state) :
  NoDup (ids (MeshNetwork.nodes s)) → newId ∉ ids (MeshNetwork.nodes s) →
  let st := getStats s in
  let st' := getStats (MeshNetwork.createNode newId ip now name x y s) in
  totalNodes st' = S (totalNodes st)
  ∧ onlineNodes st' = S (onlineNodes st)
  ∧ offlineNodes st' = offlineNodes st
  ∧ totalConnections st'
    = totalConnections st + length (nearest (newborn newId ip now name x y) s)
  ∧ totalConnections st' ≤ totalConnections st + NODE_CONFIG.MAX_CONNECTIONS.
Proof.
  intros Hnd Hfresh st st'.
  pose proof (createNode_bare newId ip now name x y s Hfresh) as Hb.
  destruct (createNode_effect newId ip now name x y s Hnd Hfresh) as [_ Hc].
  assert (Hlen : length (nearest (newborn newId ip now name x y) s)
                 ≤ NODE_CONFIG.MAX_CONNECTIONS).
  { unfold nearest. rewrite length_take. lia. }
  unfold st, st', getStats, MeshNetwork.getNodes;
    cbn [totalNodes onlineNodes offlineNodes totalConnections].
  rewrite (length_bare _ _ Hb), !(status_count_bare _ _ _ Hb), Hc.
  rewrite !filter_app, !length_app, length_fmap.
  rewrite !filter_cons, !filter_nil.
  rewrite (decide_True (P := _ = online)) by done.
  rewrite (decide_False (P := _ = offline)) by done.
  cbn [length]. split_and!; lia.
Qed.

Lemma getStats_createNode_witness :
  let st := getStats pair_topology in
  let st' := getStats (MeshNetwork.createNode "c" "192.168.0.3" 3 "Gamma"
                         9%float 9%float pair_topology) in
  totalNodes st' = S (totalNodes st)
  ∧ onlineNodes st' = S (onlineNodes st)
  ∧ offlineNodes st' = offlineNodes st
  ∧ totalConnections st'
    = totalConnections st
      + length (nearest (newborn "c" "192.168.0.3" 3 "Gamma" 9%float 9%float)
                  pair_topology)
  ∧ totalConnections st' ≤ totalConnections st + NODE_CONFIG.MAX_CONNECTIONS.
Proof.
  apply getStats_createNode; compute_done.
Defined.

(** X19.  [healNetwork] leaves [totalNodes], [onlineNodes] and
    [offlineNodes] as they are, and [totalConnections] does not go down:
    the pass drops entries of the adjacency only, never a record of the edge
    list. *)
Theorem getStats_healNetwork (s : MeshNetwork.state) :
  let st := getStats s in
  let st' := getStats (MeshNetwork.healNetwork s) in
  totalNodes st' = totalNodes st
  ∧ onlineNodes st' = onlineNodes st
  ∧ offlineNodes st' = offlineNodes st
  ∧ totalConnections st ≤ totalConnections st'.
Proof.
  intros st st'.
  pose proof (heal_fold_bare (node_id <$> MeshNetwork.nodes s) s) as Hb.
  fold (MeshNetwork.healNetwork s) in Hb.
  pose proof (heal_fold_connections (node_id <$> MeshNetwork.nodes s) s) as Hc.
  fold (MeshNetwork.healNetwork s) in Hc. apply prefix_length in Hc.
  unfold st, st', getStats, MeshNetwork.getNodes;
    cbn [totalNodes onlineNodes offlineNodes totalConnections].
  by rewrite (length_bare _ _ Hb), !(status_count_bare _ _ _ Hb).
Qed.

(** *** Recovery *)

Section recovery.
Import MeshNetwork.
Implicit Types (s : state) (node : Node) (i x y : string).

Lemma sort_insert_place (p p' : JS.number * Node) (l l' : list (JS.number * Node)) :
  fst p = fst p' → same_place (snd p) (snd p') →
  Forall2 (λ q q', fst q = fst q' ∧ same_place (snd q) (snd q')) l l' →
  Forall2 (λ q q', fst q = fst q' ∧ same_place (snd q) (snd q'))
    (JS.sort_insert (λ a b, (fst a - fst b)%float) p l)
    (JS.sort_insert (λ a b, (fst a - fst b)%float) p' l').
Proof.
  intros Hp1 Hp2. induction 1 as [|q q' l l' [Hq1 Hq2] Hl IH]; cbn.
  { constructor; [done|constructor]. }
  rewrite <- Hp1, <- Hq1. destruct (PrimFloat.ltb _ _).
  - constructor; [done|apply IH].
  - constructor; [done|]. by constructor.
Qed.

Lemma findNearbyNodes_place node node' (range : JS.number) s s' :
  same_place node node' → Forall2 same_place (nodes s) (nodes s') →
  Forall2 same_place (findNearbyNodes node range s) (findNearbyNodes node' range s').
Proof.
  intros (Hid & Hx & Hy) Hpl. unfold findNearbyNodes.
  apply Forall2_fmap.
  set (PR := λ p p' : JS.number * Node, fst p = fst p' ∧ same_place (snd p) (snd p')).
  apply (Forall2_impl PR); [|by intros ?? [_ ?]].
  assert (Hin : Forall2 PR
    (filter (λ p, PrimFloat.leb (fst p) range = true)
       ((λ n, (calculateDistance node n, n)) <$>
          filter (λ n, node_id n ≠ node_id node) (nodes s)))
    (filter (λ p, PrimFloat.leb (fst p) range = true)
       ((λ n, (calculateDistance node' n, n)) <$>
          filter (λ n, node_id n ≠ node_id node') (nodes s')))).
  { apply Forall2_filter; [by intros ?? [-> _]|].
    apply Forall2_fmap.
    eapply Forall2_impl.
    - apply (Forall2_filter _ (λ n, node_id n ≠ node_id node)
                              (λ n, node_id n ≠ node_id node')); [|exact Hpl].
      intros n n' [Hnid _]. by rewrite Hnid, Hid.
    - intros n n' Hn. split; [|done]. cbn. unfold calculateDistance.
      destruct Hn as (_ & -> & ->). by rewrite Hx, Hy. }
  unfold JS.Array_sort. induction Hin as [|p p' l l' [Hp1 Hp2] _ IH]; cbn; [constructor|].
  by apply sort_insert_place.
Qed.

Lemma same_place_ids (l l' : list Node) : Forall2 same_place l l' → ids l = ids l'.
Proof.
  induction 1 as [|n n' l l' [Hid _] _ IH]; [done|].
  unfold ids in *. cbn. by rewrite Hid, IH.
Qed.

Lemma revive_place i (l : list Node) :
  Forall2 same_place l (nodes_modify (set_status online) i l).
Proof.
  unfold nodes_modify. induction l as [|n l IH]; cbn; constructor; [|done].
  by case_bool_decide.
Qed.

Lemma adj_revive i (l : list Node) x y :
  adj (nodes_modify (set_status online) i l) x y ↔ adj l x y.
Proof.
  rewrite adj_modify by done. unfold adj.
  split; intros (X & HX & Hid & Hy); exists X; (split_and!; [done..|]);
    by case_bool_decide.
Qed.

Lemma simulateRecovery_effect i s node :
  NoDup (ids (nodes s)) → getNode i s = Some node →
  (∃ n', getNode i (simulateRecovery i s) = Some n'
         ∧ set_connections [] n' = set_connections [] (set_status online node)
         ∧ ∀ j, j ∈ ids (nearest node s) → j ∈ node_connections n')
  ∧ (∀ x y, adj (nodes s) x y → adj (nodes (simulateRecovery i s)) x y)
  ∧ bare (nodes (simulateRecovery i s))
    = bare (nodes_modify (set_status online) i (nodes s))
  ∧ connections s `prefix_of` connections (simulateRecovery i s).
Proof.
  intros Hnd Hg. unfold simulateRecovery. rewrite Hg.
  set (s1 := mkState (nodes_modify (set_status online) i (nodes s))
                     (connections s) (localNodeId s)).
  set (n1 := set_status online node).
  pose proof Hg as [Hin Hid]%nodes_find_Some.
  assert (Hnd1 : NoDup (ids (nodes s1))) by (by cbn; rewrite ids_nodes_modify).
  assert (Hin1 : node_id n1 ∈ ids (nodes s1)).
  { cbn. rewrite ids_nodes_modify by done. rewrite Hid.
    apply list_elem_of_fmap. exists node. done. }
  assert (Hb : bare (nodes (discoverConnections n1 s1)) = bare (nodes s1))
    by apply discover_fold_bare.
  assert (Hg1 : getNode i s1 = Some n1).
  { unfold getNode, s1. cbn [nodes]. rewrite nodes_find_modify by done.
    rewrite bool_decide_eq_true_2 by done. unfold getNode in Hg. by rewrite Hg. }
  split_and!.
  - pose proof (getNode_bare _ _ i Hb) as Hgb. rewrite Hg1 in Hgb.
    destruct (getNode i (discoverConnections n1 s1)) as [n'|] eqn:Hg';
      [|discriminate Hgb].
    exists n'. split_and!; [done|by apply (inj Some) in Hgb|].
    intros j Hj.
    assert (Hj1 : j ∈ ids (nearest n1 s1)).
    { pose proof (same_place_ids _ _
        (findNearbyNodes_place node n1 NODE_CONFIG.MAX_RANGE s s1
           (conj eq_refl (conj eq_refl eq_refl)) (revive_place i (nodes s)))) as Heq.
      unfold nearest, ids in *. rewrite fmap_take in Hj. rewrite fmap_take.
      by rewrite <- Heq. }
    apply list_elem_of_fmap in Hj1 as (t & -> & Ht).
    assert (Hadj : adj (nodes (discoverConnections n1 s1)) (node_id n1) (node_id t)).
    { apply discover_fold_includes; [done..|apply nearby_in_map|done]. }
    apply adj_connections_of in Hadj.
    2:{ unfold discoverConnections. by rewrite discover_fold_ids. }
    unfold connections_of in Hadj. change (node_id n1) with (node_id node) in Hadj.
    rewrite Hid, Hg' in Hadj. done.
  - intros x y Hxy. eapply ext_adj; [apply discover_fold_ext|].
    cbn [nodes s1]. by apply adj_revive.
  - done.
  - apply (discover_fold_connections n1 _ s1).
Qed.

End recovery.

(** X17.  [simulateRecovery] of a node of the map sets it online and leaves
    its [lastSeen] and its other fields as they were; afterwards the node
    lists each of the first [MAX_CONNECTIONS] nodes that [findNearbyNodes]
    returns for it, online or not; no node loses a neighbour, and the edge
    list keeps its records and only grows at its end. *)
Theorem simulateRecovery_reconnects (nodeId : string) (s : MeshNetwork.state)
    (node : Node) :
  NoDup (ids (MeshNetwork.nodes s)) → MeshNetwork.getNode nodeId s = Some node →
  (∃ n', MeshNetwork.getNode nodeId (MeshNetwork.simulateRecovery nodeId s) = Some n'
         ∧ set_connections [] n' = set_connections [] (set_status online node)
         ∧ ∀ j, j ∈ ids (nearest node s) → j ∈ node_connections n')
  ∧ (∀ x y, adj (MeshNetwork.nodes s) x y →
            adj (MeshNetwork.nodes (MeshNetwork.simulateRecovery nodeId s)) x y)
  ∧ bare (MeshNetwork.nodes (MeshNetwork.simulateRecovery nodeId s))
    = bare (nodes_modify (set_status online) nodeId (MeshNetwork.nodes s))
  ∧ MeshNetwork.connections s
      `prefix_of` MeshNetwork.connections (MeshNetwork.simulateRecovery nodeId s).
Proof. apply simulateRecovery_effect. Qed.

Lemma simulateRecovery_reconnects_witness :
  let s := MeshNetwork.simulateFailure 5 "a" pair_topology in
  let node := default nodeC0 (MeshNetwork.getNode "a" s) in
  (∃ n', MeshNetwork.getNode "a" (MeshNetwork.simulateRecovery "a" s) = Some n'
         ∧ set_connections [] n' = set_connections [] (set_status online node)
         ∧ ∀ j, j ∈ ids (nearest node s) → j ∈ node_connections n')
  ∧ (∀ x y, adj (MeshNetwork.nodes s) x y →
            adj (MeshNetwork.nodes (MeshNetwork.simulateRecovery "a" s)) x y)
  ∧ bare (MeshNetwork.nodes (MeshNetwork.simulateRecovery "a" s))
    = bare (nodes_modify (set_status online) "a" (MeshNetwork.nodes s))
  ∧ MeshNetwork.connections s
      `prefix_of` MeshNetwork.connections (MeshNetwork.simulateRecovery "a" s).
Proof.
  intros s node. apply simulateRecovery_reconnects.
  - vm_compute. repeat constructor; compute_done.
  - vm_compute. reflexivity.
Defined.

(** *** The main loop of the deterministic strategy *)

Section dijkstra_loop.
Import DijkstraRouter.
Variables (nodes : list Node) (destinationId : string).

Lemma scan_fold_elem (dist : gmap string JS.number) (unv : list string)
    (acc : option string * JS.number) (m : string) :
  fst (fold_left (scan_step dist) unv acc) = Some m → m ∈ unv ∨ fst acc = Some m.
Proof.
  revert acc. induction unv as [|i unv IH]; intros acc; cbn [fold_left]; [by right|].
  intros [Hm|Hm]%IH; [left; by right|].
  unfold scan_step in Hm. destruct (PrimFloat.ltb _ _); [|by right].
  cbn in Hm. injection Hm as ->. left. by left.
Qed.

Lemma scan_min_elem (dist : gmap string JS.number) (unv : list string) (m : string) :
  fst (scan_min dist unv) = Some m → m ∈ unv.
Proof. by intros [?|?]%scan_fold_elem. Qed.

Lemma relax_unvisited (minNode : string) (currentNode : Node) (st : state)
    (neighborId : string) :
  unvisited (relax nodes minNode currentNode st neighborId) = unvisited st.
Proof.
  unfold relax. destruct (negb _); [done|].
  destruct (nodes_find nodes neighborId); [|done].
  destruct (negb _); [done|]. by destruct (PrimFloat.ltb _ _).
Qed.

Lemma relax_fold_unvisited (minNode : string) (currentNode : Node)
    (cs : list string) (st : state) :
  unvisited (fold_left (relax nodes minNode currentNode) cs st) = unvisited st.
Proof.
  revert st. induction cs as [|c cs IH]; intros st; cbn [fold_left]; [done|].
  by rewrite IH, relax_unvisited.
Qed.

Lemma set_delete_length (m : string) (l : list string) :
  m ∈ l → length (JS.set_delete m l) < length l.
Proof.
  unfold JS.set_delete. induction 1 as [m l|m i l Hin IH].
  - rewrite filter_cons_False by (by intros H; apply H).
    pose proof (length_filter (λ y, y ≠ m) l). cbn. lia.
  - rewrite filter_cons. destruct (decide (i ≠ m)); cbn; lia.
Qed.

Lemma main_loop_returns (fuel : nat) (st : state) :
  length (unvisited st) ≤ fuel →
  ∃ st', main_loop fuel nodes destinationId st = Returned st'
         ∧ unvisited st' ⊆ unvisited st.
Proof.
  revert st. induction fuel as [|fuel IH]; intros st Hfuel.
  { destruct st as [d p [|u unv]]; cbn in *; [|lia].
    eexists; split; reflexivity. }
  cbn [main_loop]. destruct (unvisited st) as [|u unv] eqn:Hunv.
  { eexists; split; [reflexivity|]. by rewrite Hunv. }
  rewrite <- Hunv. rewrite <- Hunv in Hfuel.
  destruct (fst (scan_min (distances st) (unvisited st))) as [minNode|] eqn:Hscan;
    [|eexists; split; reflexivity].
  case_bool_decide; [eexists; split; reflexivity|].
  apply scan_min_elem in Hscan. pose proof (set_delete_length _ _ Hscan) as Hlt.
  assert (Hsub : JS.set_delete minNode (unvisited st) ⊆ unvisited st).
  { intros i [_ Hi]%list_elem_of_filter. done. }
  destruct (nodes_find nodes minNode) as [currentNode|].
  - match goal with |- context [main_loop fuel _ _ ?st1] =>
      destruct (IH st1) as (st' & -> & Hst') end.
    { rewrite relax_fold_unvisited. cbn [unvisited]. lia. }
    exists st'. split; [done|]. rewrite relax_fold_unvisited in Hst'.
    cbn [unvisited] in Hst'.
    by etrans.
  - match goal with |- context [main_loop fuel _ _ ?st1] =>
      destruct (IH st1) as (st' & -> & Hst') end.
    { cbn [unvisited]. lia. }
    exists st'. split; [done|]. cbn [unvisited] in Hst'. by etrans.
Qed.

End dijkstra_loop.

(** X20.  The main loop of [findShortestPath] stops from any state of its
    variables: it makes at most one round for each member of [unvisited],
    and [unvisited] only shrinks. *)
Theorem main_loop_terminates (fuel : nat) (nodes : list Node)
    (destinationId : string) (st : DijkstraRouter.state) :
  length (DijkstraRouter.unvisited st) ≤ fuel →
  ∃ st', DijkstraRouter.main_loop fuel nodes destinationId st = Returned st'
         ∧ DijkstraRouter.unvisited st' ⊆ DijkstraRouter.unvisited st.
Proof. apply main_loop_returns. Qed.

Lemma main_loop_terminates_witness :
  ∃ st', DijkstraRouter.main_loop 2 [nodeA0; nodeB0] "b"
           (DijkstraRouter.mkState (<["a" := 1%float]> ∅) ∅ ["a"; "b"])
         = Returned st'
    ∧ DijkstraRouter.unvisited st' ⊆ ["a"; "b"].
Proof.
  apply (main_loop_terminates 2 [nodeA0; nodeB0] "b"
           (DijkstraRouter.mkState (<["a" := 1%float]> ∅) ∅ ["a"; "b"])).
  cbn. lia.
Defined.

(** *** [createNode] undone by [removeNode] *)

Section round_trip.
Import MeshNetwork.
Implicit Types (s : state) (l : list Node) (node n : Node) (i j : string).

Lemma nodes_eq_by_lookup l l' :
  NoDup (ids l) → ids l = ids l' →
  (∀ j, nodes_find l j = nodes_find l' j) → l = l'.
Proof.
  revert l'. induction l as [|n l IH]; intros [|n' l'] Hnd Hids Hfind; try done.
  unfold ids in *. cbn in Hids. injection Hids as Hid Hids.
  apply NoDup_cons in Hnd as [Hn Hnd].
  assert (n = n') as <-.
  { pose proof (Hfind (node_id n)) as H. unfold nodes_find in H. cbn in H.
    rewrite !bool_decide_eq_true_2 in H by done. by injection H. }
  f_equal. apply IH; [done..|]. intros j.
  destruct (decide (node_id n = j)) as [<-|Hne].
  - rewrite !nodes_find_None; [done|by rewrite <- Hids|done].
  - pose proof (Hfind j) as H. unfold nodes_find in *. cbn in H.
    by rewrite !bool_decide_eq_false_2 in H by done.
Qed.

Lemma nodes_find_delete i j l :
  nodes_find (nodes_delete i l) j
  = if bool_decide (j = i) then None else nodes_find l j.
Proof.
  unfold nodes_find, nodes_delete. induction l as [|n l IH].
  { cbn. by case_bool_decide. }
  rewrite filter_cons. destruct (decide (node_id n ≠ i)) as [Hne|Heq]; cbn [find].
  - rewrite IH. repeat case_bool_decide; congruence.
  - apply dec_stable in Heq. rewrite IH. repeat case_bool_decide; congruence.
Qed.

Lemma scrub_twice i n : scrub i (scrub i n) = scrub i n.
Proof.
  unfold scrub, set_connections; cbn. f_equal.
  rewrite list_filter_filter. apply list_filter_iff. tauto.
Qed.

Lemma nodes_find_scrub_fold i (cs : list string) l j :
  nodes_find (fold_left (λ l connId, nodes_modify (scrub i) connId l) cs l) j
  = (λ n, if bool_decide (j ∈ cs) then scrub i n else n) <$> nodes_find l j.
Proof.
  revert l. induction cs as [|c cs IH]; intros l; cbn [fold_left].
  { by destruct (nodes_find l j). }
  rewrite IH, nodes_find_modify by done.
  destruct (nodes_find l j) as [n|]; [|by destruct (bool_decide (j = c))].
  destruct (decide (j = c)) as [->|Hne].
  - rewrite (bool_decide_eq_true_2 (c = c)) by done. cbn.
    rewrite (bool_decide_eq_true_2 (c ∈ c :: cs)) by left.
    case_bool_decide; [by rewrite scrub_twice|done].
  - rewrite (bool_decide_eq_false_2 (j = c)) by done. cbn.
    rewrite (bool_decide_ext (j ∈ c :: cs) (j ∈ cs)); [done|].
    rewrite elem_of_cons. tauto.
Qed.

Lemma getNode_removeNode i j s node :
  getNode i s = Some node →
  getNode j (removeNode i s)
  = if bool_decide (j = i) then None
    else (λ n, if bool_decide (j ∈ node_connections node) then scrub i n else n)
           <$> getNode j s.
Proof.
  intros Hg. unfold removeNode. rewrite Hg. unfold getNode. cbn [nodes].
  by rewrite nodes_find_delete, nodes_find_scrub_fold.
Qed.

Lemma discover_fold_localNodeId node (ts : list Node) s :
  localNodeId (fold_left (discover_step node) ts s) = localNodeId s.
Proof.
  revert s. induction ts as [|t ts IH]; intros s; cbn [fold_left]; [done|].
  rewrite IH. unfold discover_step. by case_bool_decide.
Qed.

Lemma scrub_pushed i n :
  i ∉ node_connections n → scrub i (set_connections (node_connections n ++ [i]) n) = n.
Proof.
  intros Hi. unfold scrub. cbn [node_connections set_connections].
  rewrite filter_app, filter_cons_False, filter_nil, app_nil_r by (by intros H; apply H).
  rewrite filter_all; [by destruct n|].
  apply Forall_forall. by intros c Hc ->.
Qed.

Lemma createNode_undone (newId ip : string) (now : Z) (name : string)
    (x y : JS.number) s :
  NoDup (ids (nodes s)) → newId ∉ ids (nodes s) →
  (∀ i, ¬ adj (nodes s) i newId) →
  (∀ c, c ∈ connections s → conn_nodeA c ≠ newId ∧ conn_nodeB c ≠ newId) →
  removeNode newId (createNode newId ip now name x y s) = s.
Proof.
  intros Hnd Hfresh Hadj Hrec.
  set (node := newborn newId ip now name x y).
  set (s' := createNode newId ip now name x y s).
  destruct (createNode_effect newId ip now name x y s Hnd Hfresh) as [Hget Hconn].
  fold node s' in Hget, Hconn.
  assert (Hids : ids (nodes s') = ids (nodes s) ++ [newId]).
  { unfold s', createNode, discoverConnections. rewrite discover_fold_ids. cbn [nodes].
    rewrite nodes_set_fresh by done. unfold ids. by rewrite fmap_app. }
  assert (Hloc : localNodeId s' = localNodeId s).
  { unfold s', createNode, discoverConnections. by rewrite discover_fold_localNodeId. }
  assert (Hnew : getNode newId s' = Some (joined newId (nearest node s) newId node)).
  { rewrite Hget. unfold getNode. cbn [nodes]. rewrite nodes_find_app.
    rewrite (nodes_find_None (nodes s) newId) by done.
    unfold nodes_find. cbn. by rewrite bool_decide_eq_true_2. }
  assert (Hnodes : nodes (removeNode newId s') = nodes s).
  { symmetry. apply nodes_eq_by_lookup; [done| |].
    - unfold removeNode. rewrite Hnew. cbn [nodes].
      rewrite nodes_delete_ids, scrub_fold_ids, Hids, filter_app.
      rewrite filter_cons_False, filter_nil, app_nil_r by (by intros H; apply H).
      rewrite filter_all; [done|]. apply Forall_forall. by intros j Hj ->.
    - intros j. change (getNode j s = getNode j (removeNode newId s')).
      rewrite (getNode_removeNode _ _ _ _ Hnew). case_bool_decide as Hj.
      { subst j. by apply nodes_find_None. }
      rewrite Hget. unfold getNode at 2. cbn [nodes]. rewrite nodes_find_app.
      fold (getNode j s).
      assert (Hc : node_connections (joined newId (nearest node s) newId node)
                   = ids (nearest node s)).
      { unfold joined. by rewrite bool_decide_eq_true_2 by done. }
      rewrite Hc.
      destruct (getNode j s) as [n|] eqn:Hn.
      2:{ unfold nodes_find. cbn [find node node_id newborn].
          by rewrite (bool_decide_eq_false_2 (newId = j)) by congruence. }
      cbn [fmap option_fmap option_map]. f_equal.
      assert (Hj' : joined newId (nearest node s) j n
                    = set_connections
                        (node_connections n
                         ++ (if bool_decide (j ∈ ids (nearest node s))
                             then [newId] else [])) n).
      { unfold joined. by rewrite (bool_decide_eq_false_2 (j = newId)) by done. }
      rewrite Hj'. case_bool_decide.
      + symmetry. apply scrub_pushed. intros Hin. apply (Hadj j).
        apply nodes_find_Some in Hn as [Hn Hid]. by exists n.
      + by rewrite app_nil_r, set_connections_same. }
  assert (Hconns : connections (removeNode newId s') = connections s).
  { unfold removeNode. rewrite Hnew. cbn [connections]. rewrite Hconn, filter_app.
    rewrite filter_all by (apply Forall_forall; intros c Hc; by apply Hrec).
    generalize (nearest node s). intros ts.
    induction ts as [|t ts IHt]; [by rewrite app_nil_r|].
    rewrite fmap_cons, filter_cons_False; [done|]. cbn. tauto. }
  assert (Hl : localNodeId (removeNode newId s') = localNodeId s).
  { unfold removeNode. by rewrite Hnew. }
  destruct (removeNode newId s'), s. cbn in *. congruence.
Qed.

End round_trip.

(** X21.  [createNode] followed by [removeNode] of the new node gives the
    manager back as it was: the map, every [connections] array and the edge
    list; provided the id is new to the manager, so that no node lists it
    and no record names it. *)
Theorem createNode_removeNode_round_trip (newId ip : string) (now : Z)
    (name : string) (x y : JS.number) (s : MeshNetwork.state) :
  NoDup (ids (MeshNetwork.nodes s)) → newId ∉ ids (MeshNetwork.nodes s) →
  (∀ i, ¬ adj (MeshNetwork.nodes s) i newId) →
  (∀ c, c ∈ MeshNetwork.connections s →
        conn_nodeA c ≠ newId ∧ conn_nodeB c ≠ newId) →
  MeshNetwork.removeNode newId (MeshNetwork.createNode newId ip now name x y s) = s.
Proof. apply createNode_undone. Qed.

Lemma createNode_removeNode_round_trip_witness :
  MeshNetwork.removeNode "c"
    (MeshNetwork.createNode "c" "192.168.0.3" 3 "Gamma" 6%float 8%float pair_topology)
  = pair_topology.
Proof.
  apply createNode_removeNode_round_trip.
  - compute_done.
  - compute_done.
  - intros i (X & HX & _ & Hc). vm_compute in HX.
    repeat (apply elem_of_cons in HX as [->|HX]; [vm_compute in Hc|]).
    + apply elem_of_cons in Hc as [Hc|Hc]; [discriminate Hc|by apply elem_of_nil in Hc].
    + apply elem_of_cons in Hc as [Hc|Hc]; [discriminate Hc|by apply elem_of_nil in Hc].
    + by apply elem_of_nil in HX.
  - intros c Hc. vm_compute in Hc.
    apply elem_of_cons in Hc as [->|Hc]; [|by apply elem_of_nil in Hc].
    split; discriminate.
Defined.

(** X22.  [removeNode] is idempotent: after it the id is no key of the map,
    and a second call finds nothing to do. *)
Theorem removeNode_idempotent (nodeId : string) (s : MeshNetwork.state) :
  MeshNetwork.removeNode nodeId (MeshNetwork.removeNode nodeId s)
  = MeshNetwork.removeNode nodeId s.
Proof.
  unfold MeshNetwork.removeNode at 1. by rewrite removeNode_getNode.
Qed.

(** X23.  [establishConnection] appends one active record between the two
    ids to the edge list, whatever the map holds, and pushes each id onto
    the [connections] of the other node where that node is in the map:
    nothing else changes, no node is added, and nothing is checked for a
    record or an entry that is there already. *)
Theorem establishConnection_effect (nodeA nodeB : Node) (s : MeshNetwork.state) :
  let c := fst (MeshNetwork.establishConnection nodeA nodeB s) in
  let s' := snd (MeshNetwork.establishConnection nodeA nodeB s) in
  conn_nodeA c = node_id nodeA ∧ conn_nodeB c = node_id nodeB ∧ conn_active c = true
  ∧ MeshNetwork.connections s' = MeshNetwork.connections s ++ [c]
  ∧ (∀ j, MeshNetwork.getNode j s' = linked_to nodeA nodeB j <$> MeshNetwork.getNode j s)
  ∧ ids (MeshNetwork.nodes s') = ids (MeshNetwork.nodes s)
  ∧ bare (MeshNetwork.nodes s') = bare (MeshNetwork.nodes s).
Proof.
  intros c s'. split_and!; [done..| | |].
  - intros j. apply getNode_establish.
  - apply establish_ids.
  - apply establish_bare.
Qed.

(** X24.  [updateNodeStatus] on a node of the map writes the status and the
    clock to that node, whatever the status is; every other node, every
    [connections] array and the edge list stay as they are. *)
Theorem updateNodeStatus_effect (now : Z) (nodeId : string) (status : Status)
    (s : MeshNetwork.state) (node : Node) :
  MeshNetwork.getNode nodeId s = Some node →
  let s' := MeshNetwork.updateNodeStatus now nodeId status s in
  MeshNetwork.getNode nodeId s' = Some (set_lastSeen now (set_status status node))
  ∧ (∀ j, j ≠ nodeId → MeshNetwork.getNode j s' = MeshNetwork.getNode j s)
  ∧ (∀ x y, adj (MeshNetwork.nodes s') x y ↔ adj (MeshNetwork.nodes s) x y)
  ∧ ids (MeshNetwork.nodes s') = ids (MeshNetwork.nodes s)
  ∧ MeshNetwork.connections s' = MeshNetwork.connections s.
Proof.
  intros Hg s'.
  destruct (updateNodeStatus_known now nodeId status s node Hg) as (H1 & H2 & H3).
  split_and!; [done..| | |done].
  - intros x y. unfold s', MeshNetwork.updateNodeStatus. rewrite Hg.
    cbn [MeshNetwork.nodes]. rewrite adj_modify by done. unfold adj.
    split; intros (X & HX & Hid & Hy); exists X; (split_and!; [done..|]);
      by case_bool_decide.
  - unfold s', MeshNetwork.updateNodeStatus. rewrite Hg.
    cbn [MeshNetwork.nodes]. by rewrite ids_nodes_modify.
Qed.

Lemma updateNodeStatus_effect_witness :
  let node := default nodeC0 (MeshNetwork.getNode "a" pair_topology) in
  let s' := MeshNetwork.updateNodeStatus 9 "a" busy pair_topology in
  MeshNetwork.getNode "a" s' = Some (set_lastSeen 9 (set_status busy node))
  ∧ (∀ j, j ≠ "a" → MeshNetwork.getNode j s' = MeshNetwork.getNode j pair_topology)
  ∧ (∀ x y, adj (MeshNetwork.nodes s') x y ↔ adj (MeshNetwork.nodes pair_topology) x y)
  ∧ ids (MeshNetwork.nodes s') = ids (MeshNetwork.nodes pair_topology)
  ∧ MeshNetwork.connections s' = MeshNetwork.connections pair_topology.
Proof.
  intros node. apply updateNodeStatus_effect. vm_compute. reflexivity.
Defined.
